(** * Moving least squares coefficients (ArborX interpolation details)

    A shallow embedding of
    [src/interpolation/details/ArborX_InterpDetailsMovingLeastSquaresCoefficients.hpp]
    and the properties its specification states about it.

    The C++ function is a template over the working scalar type
    ([CoefficientsType]), the kernel ([CRBF]), the polynomial degree and the
    memory and execution spaces.  The embedding keeps that shape:

    - [Scalar] is the interface the function needs from [CoefficientsType];
    - [Platform] is the Kokkos side (memory spaces, execution spaces and the
      accessibility trait);
    - [Environment] gathers the collaborators whose code lives in other
      headers ([distance], [CRBF::evaluate], the polynomial basis, the
      symmetric pseudo-inverse) and the contents of uninitialised memory.

    Kokkos views are reference-counted handles on device memory, so the
    function is embedded as a state transformer over a memory of views: it
    allocates its tables, runs its six kernels and the pseudo-inverse, and
    returns the handle of the coefficient table.  Loop counters and extents
    are natural numbers (the source holds them in [int]; extents are assumed
    to fit).  A view of points of shape [n0][n1] is stored with the coordinate
    as a third index.  Input coordinates are taken in the working scalar type.
    Profiling regions only bracket the stages and are left out, and the
    intermediate tables are not released when the function returns, so that
    they can still be named in the state it leaves. *)

From Stdlib Require Import String.
From Stdlib Require Import List Arith Lia Bool ZArith.
From Stdlib Require Import Reals Lra.
From Stdlib Require Import Floats.
From Stdlib Require Import Permutation.
Import ListNotations.

Set Implicit Arguments.

(** ** Interfaces *)

(** What the function uses of [CoefficientsType]: the literal [0], the four
    arithmetic operators, [<] (through [Kokkos::max]), the machine epsilon
    [Kokkos::Experimental::epsilon_v] and the literal [1.1].  [one] is only
    used to state properties. *)
Class Scalar (T : Type) : Type := {
  zero : T;
  one : T;
  add : T -> T -> T;
  sub : T -> T -> T;
  mul : T -> T -> T;
  div : T -> T -> T;
  ltb : T -> T -> bool;
  epsilon : T;
  c1_1 : T
}.

(** [Kokkos::max(a, b)] is [a < b ? b : a]. *)
Definition kmax {T} `{Scalar T} (a b : T) : T := if ltb a b then b else a.

(** Memory spaces, execution spaces and [KokkosExt::is_accessible_from]. *)
Class Platform : Type := {
  memory_space : Type;
  execution_space : Type;
  is_accessible_from : memory_space -> execution_space -> bool
}.

Definition index := list nat.
Definition handle := nat.

Definition index_eqb (a b : index) : bool :=
  if list_eq_dec Nat.eq_dec a b then true else false.

(** The collaborators of the function, none of which is defined in the header:
    - [distance] is [ArborX::Details::distance] on two points;
    - [CRBF_evaluate] is [CRBF::evaluate];
    - [polynomialBasisSize dimension degree] and
      [evaluatePolynomialBasis degree x k] (entry [k] of the returned array)
      come from [ArborX_InterpDetailsPolynomialBasis.hpp];
    - [pseudoInverse n m] is what [symmetricPseudoInverseSVD] leaves in place
      of the [n] by [n] matrix [m];
    - [uninitialized h ix] is whatever a view allocated with
      [Kokkos::WithoutInitializing] holds before it is written. *)
Class Environment (T : Type) : Type := {
  distance : list T -> list T -> T;
  CRBF_evaluate : T -> T;
  polynomialBasisSize : nat -> nat -> nat;
  evaluatePolynomialBasis : nat -> list T -> nat -> T;
  pseudoInverse : nat -> (nat -> nat -> T) -> nat -> nat -> T;
  uninitialized : handle -> index -> T
}.

(** ** Loops *)

(** [for (int k = lo; k < lo + n; k++) s = body k s]. *)
Fixpoint for_range {S : Type} (lo n : nat) (body : nat -> S -> S) (s : S) : S :=
  match n with
  | O => s
  | Datatypes.S n' => for_range (Datatypes.S lo) n' body (body lo s)
  end.

(** [for (int k = 0; k < n; k++) s = body k s]. *)
Definition for_loop {S : Type} (n : nat) (body : nat -> S -> S) (s : S) : S :=
  for_range 0 n body s.

(** The sum of [term 0], ..., [term (n-1)] taken from the left, starting at [zero]:
    the reading of a [Σ] in the working scalar type. *)
Definition sum_upto {T} `{Scalar T} (n : nat) (term : nat -> T) : T :=
  fold_left add (map term (seq 0 n)) zero.

(** The running maximum of a list of values, started at [floor]. *)
Definition max_floored {T} `{Scalar T} (floor : T) (values : list T) : T :=
  fold_left kmax values floor.

(** ** Memory of views *)

Section Memory.

Context {T : Type} {PF : Platform}.

(** A view: the memory space it lives in, its extents and its elements. *)
Record View : Type := mkView {
  memory : memory_space;
  extents : list nat;
  elem : index -> T
}.

(** [v.extent(r)]; Kokkos answers 1 past the rank. *)
Definition extent (v : View) (r : nat) : nat := nth r (extents v) 1.

(** A view of points keeps the coordinate in its last index. *)
Definition point_rank (v : View) : nat := pred (length (extents v)).
Definition point_dimension (v : View) : nat := last (extents v) 0.

(** The views allocated so far, by handle. *)
Record Memory : Type := mkMemory {
  allocated : nat;
  views : handle -> View
}.

Definition read (m : Memory) (h : handle) (ix : index) : T :=
  elem (views m h) ix.

Definition set_elem (v : View) (ix : index) (x : T) : View :=
  mkView (memory v) (extents v)
         (fun ix' => if index_eqb ix' ix then x else elem v ix').

Definition write (h : handle) (ix : index) (x : T) (m : Memory) : Memory :=
  mkMemory (allocated m)
           (fun h' => if Nat.eqb h' h then set_elem (views m h) ix x else views m h').

Definition alloc (v : View) (m : Memory) : Memory :=
  mkMemory (Datatypes.S (allocated m))
           (fun h' => if Nat.eqb h' (allocated m) then v else views m h').

(** The state of a call: the memory and the kernels dispatched so far. *)
Record State : Type := mkState {
  mem : Memory;
  dispatched : list string
}.

(** A call ends normally, is rejected by a [static_assert] (the instantiation
    does not compile, nothing runs) or is stopped by [KOKKOS_ASSERT]. *)
Inductive outcome (A : Type) : Type :=
| Done (a : A) (st : State)
| IllFormed (msg : string)
| Aborted (msg : string) (st : State).

Definition M (A : Type) : Type := State -> outcome A.

Definition ret {A} (a : A) : M A := fun st => Done a st.

Definition bind {A B} (c : M A) (k : A -> M B) : M B :=
  fun st =>
    match c st with
    | Done a st' => k a st'
    | IllFormed _ msg => IllFormed _ msg
    | Aborted _ msg st' => Aborted _ msg st'
    end.

Definition static_assert (cond : bool) (msg : string) : M unit :=
  fun st => if cond then Done tt st else IllFormed _ msg.

(** Modelled from the spec: [KOKKOS_ASSERT] is a Kokkos macro, not defined
    under src; the specification makes its failure a fatal precondition
    failure, so a false condition stops the call where it stands. *)
Definition KOKKOS_ASSERT (cond : bool) (msg : string) : M unit :=
  fun st => if cond then Done tt st else Aborted _ msg st.

Definition get_view (h : handle) : M View :=
  fun st => Done (views (mem st) h) st.

End Memory.

Arguments View T {PF}.
Arguments Memory T {PF}.
Arguments State T {PF}.
Arguments M T {PF} A.

Declare Scope mls_scope.
Notation "x <- c ;; k" := (bind c (fun x => k))
  (at level 61, c at next level, right associativity) : mls_scope.
Notation "c ;;; k" := (bind c (fun _ => k))
  (at level 61, right associativity) : mls_scope.
Open Scope mls_scope.

(** ** The function *)

Section MovingLeastSquares.

Context {T : Type} {SC : Scalar T} {PF : Platform} {EV : Environment T}.

(** Allocation and kernel dispatch never fail: they run in a plain state
    monad, lifted into [M] by the function itself. *)
Definition K (A : Type) : Type := State T -> A * State T.

Definition kret {A} (a : A) : K A := fun st => (a, st).

Definition kbind {A B} (c : K A) (k : A -> K B) : K B :=
  fun st => let (a, st') := c st in k a st'.

Notation "x <-- c ;; k" := (kbind c (fun x => k))
  (at level 61, c at next level, right associativity).
Notation "c ;;;; k" := (kbind c (fun _ => k))
  (at level 61, right associativity).

Definition lift {A} (c : K A) : M T A :=
  fun st => let (a, st') := c st in Done a st'.

(** [Kokkos::View<...>(Kokkos::view_alloc(space, Kokkos::WithoutInitializing, label), extents...)]. *)
Definition view_alloc (ms : memory_space) (ext : list nat) : K handle :=
  fun st =>
    let h := allocated (mem st) in
    (h, mkState (alloc (mkView ms ext (uninitialized h)) (mem st)) (dispatched st)).

(** [Kokkos::parallel_for(label, policy, lambda)]: the iterations of a policy
    are run one after the other, in row-major order. *)
Definition parallel_for (label : string) (kernel : Memory T -> Memory T) : K unit :=
  fun st => (tt, mkState (kernel (mem st)) (dispatched st ++ [label])).

Definition RangePolicy (n0 : nat) (body : nat -> Memory T -> Memory T)
  : Memory T -> Memory T :=
  for_loop n0 body.

Definition MDRangePolicy2 (n0 n1 : nat) (body : nat -> nat -> Memory T -> Memory T)
  : Memory T -> Memory T :=
  for_loop n0 (fun i => for_loop n1 (fun j => body i j)).

Definition MDRangePolicy3 (n0 n1 n2 : nat)
           (body : nat -> nat -> nat -> Memory T -> Memory T)
  : Memory T -> Memory T :=
  for_loop n0 (fun i => for_loop n1 (fun j => for_loop n2 (fun k => body i j k))).

(** Points.  [load_point m v ix] is the point [v(ix...)]; [point_t{}] is the
    origin; [p[k] = x] is [set_coord]; [v(ix...) = p] is [store_point]. *)
Definition point_of (dimension : nat) (v : View T) (ix : index) : list T :=
  map (fun k => elem v (ix ++ [k])) (seq 0 dimension).

Definition load_point (dimension : nat) (m : Memory T) (v : handle) (ix : index)
  : list T :=
  point_of dimension (views m v) ix.

Definition origin (dimension : nat) : list T := repeat zero dimension.

Fixpoint set_coord (p : list T) (k : nat) (x : T) : list T :=
  match p, k with
  | [], _ => []
  | _ :: q, O => x :: q
  | y :: q, Datatypes.S k' => y :: set_coord q k' x
  end.

Definition coord (p : list T) (k : nat) : T := nth k p zero.

Definition store_point (v : handle) (ix : index) (p : list T) (m : Memory T)
  : Memory T :=
  for_loop (length p) (fun k m' => write v (ix ++ [k]) (coord p k) m') m.

(** *** The six kernels (the lambdas of the six [parallel_for]) *)

Section Kernels.

Variables (dimension num_neighbors poly_size degree : nat).

(** Lines 103-112. *)
Definition source_ref_target_fill (source_points target_points source_ref_target : handle)
           (i j : nat) (m : Memory T) : Memory T :=
  let src := load_point dimension m source_points [i; j] in
  let tgt := load_point dimension m target_points [i] in
  let t := for_loop dimension
             (fun k t => set_coord t k (sub (coord src k) (coord tgt k)))
             (origin dimension) in
  store_point source_ref_target [i; j] t m.

(** Lines 127-139. *)
Definition radii_computation (source_ref_target radii : handle)
           (i : nat) (m : Memory T) : Memory T :=
  let radius :=
    for_loop num_neighbors
      (fun j radius =>
         let norm := distance (load_point dimension m source_ref_target [i; j])
                              (origin dimension) in
         kmax radius norm)
      epsilon in
  write radii [i] (mul c1_1 radius) m.

(** Lines 154-158. *)
Definition phi_computation (source_ref_target radii phi : handle)
           (i j : nat) (m : Memory T) : Memory T :=
  let norm := distance (load_point dimension m source_ref_target [i; j])
                       (origin dimension) in
  write phi [i; j] (CRBF_evaluate (div norm (read m radii [i]))) m.

(** Lines 173-177. *)
Definition vandermonde_computation (source_ref_target p : handle)
           (i j : nat) (m : Memory T) : Memory T :=
  let basis := evaluatePolynomialBasis degree
                 (load_point dimension m source_ref_target [i; j]) in
  for_loop poly_size (fun k m' => write p [i; j; k] (basis k) m') m.

(** Lines 193-198. *)
Definition moment_computation (p phi a : handle)
           (i j k : nat) (m : Memory T) : Memory T :=
  let tmp :=
    for_loop num_neighbors
      (fun l tmp =>
         add tmp (mul (mul (read m p [i; l; j]) (read m p [i; l; k]))
                      (read m phi [i; l])))
      zero in
  write a [i; j; k] tmp m.

(** Lines 223-228. *)
Definition coefficients_computation (a p phi coeffs : handle)
           (i j : nat) (m : Memory T) : Memory T :=
  let tmp :=
    for_loop poly_size
      (fun k tmp =>
         add tmp (mul (mul (read m a [i; 0; k]) (read m p [i; j; k]))
                      (read m phi [i; j])))
      zero in
  write coeffs [i; j] tmp m.

End Kernels.

(** Modelled from the spec: [symmetricPseudoInverseSVD] is defined in
    [ArborX_InterpDetailsSymmetricPseudoInverseSVD.hpp], not under src; by its
    contract each matrix of the batch is replaced in place by its
    pseudo-inverse. *)
Definition symmetricPseudoInverseSVD (a : handle) (m : Memory T) : Memory T :=
  let n := extent (views m a) 1 in
  MDRangePolicy3 (extent (views m a) 0) n n
    (fun i r c m' =>
       write a [i; r; c]
             (pseudoInverse n (fun r' c' => read m a [i; r'; c']) r c) m')
    m.

(** *** The body of the function *)

(** The tables of a call that are still alive when the pseudo-inverse is
    taken. *)
Record Tables : Type := mkTables {
  source_ref_target_of : handle;
  radii_of : handle;
  phi_of : handle;
  p_of : handle;
  a_of : handle
}.

Section Body.

Variables (MemorySpace : memory_space).
Variables (dimension num_targets num_neighbors poly_size degree : nat).
Variables (source_points target_points : handle).

(** Each stage allocates its table without initialising it, fills it with one
    [parallel_for] and leaves its handle to the stages that follow. *)

(** Lines 94-112. *)
Definition stage_source_ref_target : K handle :=
  source_ref_target <--
    view_alloc MemorySpace [num_targets; num_neighbors; dimension] ;;
  parallel_for
    "ArborX::MovingLeastSquaresCoefficients::source_ref_target_fill"%string
    (MDRangePolicy2 num_targets num_neighbors
       (source_ref_target_fill dimension source_points target_points
                               source_ref_target)) ;;;;
  kret source_ref_target.

(** Lines 120-139. *)
Definition stage_radii (source_ref_target : handle) : K handle :=
  radii <-- view_alloc MemorySpace [num_targets] ;;
  parallel_for
    "ArborX::MovingLeastSquaresCoefficients::radii_computation"%string
    (RangePolicy num_targets
       (radii_computation dimension num_neighbors source_ref_target radii)) ;;;;
  kret radii.

(** Lines 146-158. *)
Definition stage_phi (source_ref_target radii : handle) : K handle :=
  phi <-- view_alloc MemorySpace [num_targets; num_neighbors] ;;
  parallel_for
    "ArborX::MovingLeastSquaresCoefficients::phi_computation"%string
    (MDRangePolicy2 num_targets num_neighbors
       (phi_computation dimension source_ref_target radii phi)) ;;;;
  kret phi.

(** Lines 165-177. *)
Definition stage_vandermonde (source_ref_target : handle) : K handle :=
  p <-- view_alloc MemorySpace [num_targets; num_neighbors; poly_size] ;;
  parallel_for
    "ArborX::MovingLeastSquaresCoefficients::vandermonde_computation"%string
    (MDRangePolicy2 num_targets num_neighbors
       (vandermonde_computation dimension poly_size degree source_ref_target p)) ;;;;
  kret p.

(** Lines 185-198. *)
Definition stage_moment (p phi : handle) : K handle :=
  a <-- view_alloc MemorySpace [num_targets; poly_size; poly_size] ;;
  parallel_for
    "ArborX::MovingLeastSquaresCoefficients::moment_computation"%string
    (MDRangePolicy3 num_targets poly_size poly_size
       (moment_computation num_neighbors p phi a)) ;;;;
  kret a.

(** Line 206. *)
Definition stage_pseudo_inverse (a : handle) : K unit :=
  parallel_for
    "ArborX::MovingLeastSquaresCoefficients::pseudo_inverse_svd"%string
    (symmetricPseudoInverseSVD a).

(** Lines 214-228. *)
Definition stage_coefficients (a p phi : handle) : K handle :=
  coeffs <-- view_alloc MemorySpace [num_targets; num_neighbors] ;;
  parallel_for
    "ArborX::MovingLeastSquaresCoefficients::coefficients_computation"%string
    (MDRangePolicy2 num_targets num_neighbors
       (coefficients_computation poly_size a p phi coeffs)) ;;;;
  kret coeffs.

(** Lines 94-198: relative coordinates, radii, weights, Vandermonde table and
    moment matrix. *)
Definition assemble : K Tables :=
  source_ref_target <-- stage_source_ref_target ;;
  radii <-- stage_radii source_ref_target ;;
  phi <-- stage_phi source_ref_target radii ;;
  p <-- stage_vandermonde source_ref_target ;;
  a <-- stage_moment p phi ;;
  kret (mkTables source_ref_target radii phi p a).

(** Lines 206-231: the moment matrices are inverted in place, then the
    coefficients are computed and their table is returned. *)
Definition extract (tb : Tables) : K handle :=
  stage_pseudo_inverse (a_of tb) ;;;;
  stage_coefficients (a_of tb) (p_of tb) (phi_of tb).

Definition stages : K handle :=
  tb <-- assemble ;; extract tb.

End Body.

(** Lines 31-232.  The [static_assert]s on what the elements of the two inputs
    are (points, valid geometry and access traits) are carried by the types of
    the embedding. *)
Definition movingLeastSquaresCoefficients
           (degree : nat) (MemorySpace : memory_space) (space : execution_space)
           (source_points target_points : handle) : M T handle :=
  static_assert (is_accessible_from MemorySpace space)
    "Memory space must be accessible from the execution space"%string ;;;
  src <- get_view source_points ;;
  static_assert (point_rank src =? 2)
    "source points must be a 2D view of points"%string ;;;
  static_assert (is_accessible_from (memory src) space)
    "source points must be accessible from the execution space"%string ;;;
  let dimension := point_dimension src in
  tgt <- get_view target_points ;;
  static_assert (is_accessible_from (memory tgt) space)
    "target points must be accessible from the execution space"%string ;;;
  static_assert (dimension =? point_dimension tgt)
    "target and source points must have the same dimension"%string ;;;
  let num_targets := extent tgt 0 in
  let num_neighbors := extent src 1 in
  KOKKOS_ASSERT (num_targets =? extent src 0)
    "num_targets == source_points.extent_int(0)"%string ;;;
  let poly_size := polynomialBasisSize dimension degree in
  lift (stages MemorySpace dimension num_targets num_neighbors poly_size degree
               source_points target_points).

(** The conditions under which the call goes through. *)
Definition preconditions (MemorySpace : memory_space) (space : execution_space)
           (source_points target_points : handle) (st : State T) : bool :=
  let src := views (mem st) source_points in
  let tgt := views (mem st) target_points in
  is_accessible_from MemorySpace space
  && (point_rank src =? 2)
  && is_accessible_from (memory src) space
  && is_accessible_from (memory tgt) space
  && (point_dimension src =? point_dimension tgt)
  && (extent tgt 0 =? extent src 0).

End MovingLeastSquares.

(** ** The sizes and the intermediate state of a call *)

Section Call.

Context {T : Type} {SC : Scalar T} {PF : Platform} {EV : Environment T}.
Variables (degree : nat) (MemorySpace : memory_space).
Variables (source_points target_points : handle) (st : State T).

(** [dimension], [num_targets], [num_neighbors] and [poly_size] as the function
    reads them off its arguments (lines 54, 69, 70 and 79). *)
Definition call_dimension : nat :=
  point_dimension (views (mem st) source_points).

Definition call_num_targets : nat :=
  extent (views (mem st) target_points) 0.

Definition call_num_neighbors : nat :=
  extent (views (mem st) source_points) 1.

Definition call_poly_size : nat :=
  polynomialBasisSize call_dimension degree.

(** The tables and the state of the call when it reaches line 206, the moment
    matrices assembled and not yet inverted. *)
Definition at_pseudo_inverse : Tables * State T :=
  assemble MemorySpace call_dimension call_num_targets call_num_neighbors
           call_poly_size degree source_points target_points st.

(** The coefficient table and the state of the call when it returns. *)
Definition at_return : handle * State T :=
  extract MemorySpace call_num_targets call_num_neighbors call_poly_size
          (fst at_pseudo_inverse) (snd at_pseudo_inverse).

End Call.

(** ** The formulas of the specification *)

Section Formulas.

Context {T : Type} {SC : Scalar T}.

(** Radius: 1.1 times the largest distance of a neighbour to the origin, the
    maximum floored at the machine epsilon. *)
Definition radius_formula (distances : list T) : T :=
  mul c1_1 (max_floored epsilon distances).

(** Moment matrix: [A[i][j][k] = Σ_l P[i][l][j] * P[i][l][k] * weight[i][l]]. *)
Definition moment_formula (num_neighbors : nat)
           (P : nat -> nat -> nat -> T) (weight : nat -> nat -> T)
           (i j k : nat) : T :=
  sum_upto num_neighbors (fun l => mul (mul (P i l j) (P i l k)) (weight i l)).

(** Coefficients: [coeff[i][j] = Σ_k Ainv[i][0][k] * P[i][j][k] * weight[i][j]]. *)
Definition coefficient_formula (poly_size : nat)
           (Ainv P : nat -> nat -> nat -> T) (weight : nat -> nat -> T)
           (i j : nat) : T :=
  sum_upto poly_size (fun k => mul (mul (Ainv i 0 k) (P i j k)) (weight i j)).

End Formulas.

(** *** The contents of the tables

    What each stage is specified to leave in its table, as a function of the
    tables it reads. *)

Section Contents.

Context {T : Type} {SC : Scalar T} {PF : Platform} {EV : Environment T}.
Variables (dimension num_neighbors poly_size degree : nat).

(** [relative[i][j][d] = source[i][j][d] - target[i][d]]. *)
Definition relative_value (source target : View T) (ix : index) : T :=
  match ix with
  | [i; j; d] => sub (elem source [i; j; d]) (elem target [i; d])
  | _ => zero
  end.

(** The distances to the origin of the neighbours of target [i]. *)
Definition norms (relative : View T) (i : nat) : list T :=
  map (fun j => distance (point_of dimension relative [i; j]) (origin dimension))
      (seq 0 num_neighbors).

Definition radius_value (relative : View T) (ix : index) : T :=
  match ix with
  | [i] => radius_formula (norms relative i)
  | _ => zero
  end.

(** [distance(relative[i][j], origin) / radius[i]]. *)
Definition normalized_distance (relative radii : View T) (i j : nat) : T :=
  div (distance (point_of dimension relative [i; j]) (origin dimension))
      (elem radii [i]).

(** [weight[i][j] = kernel(distance(relative[i][j], origin) / radius[i])]. *)
Definition weight_value (relative radii : View T) (ix : index) : T :=
  match ix with
  | [i; j] => CRBF_evaluate (normalized_distance relative radii i j)
  | _ => zero
  end.

Definition basis_value (relative : View T) (ix : index) : T :=
  match ix with
  | [i; j; k] => evaluatePolynomialBasis degree (point_of dimension relative [i; j]) k
  | _ => zero
  end.

Definition table3_of (v : View T) (i j k : nat) : T := elem v [i; j; k].
Definition table2_of (v : View T) (i j : nat) : T := elem v [i; j].

Definition moment_value (p phi : View T) (ix : index) : T :=
  match ix with
  | [i; j; k] => moment_formula num_neighbors (table3_of p) (table2_of phi) i j k
  | _ => zero
  end.

Definition inverse_value (n : nat) (a : View T) (ix : index) : T :=
  match ix with
  | [i; r; c] => pseudoInverse n (fun r' c' => elem a [i; r'; c']) r c
  | _ => zero
  end.

Definition coefficient_value (a p phi : View T) (ix : index) : T :=
  match ix with
  | [i; j] => coefficient_formula poly_size (table3_of a) (table3_of p)
                                  (table2_of phi) i j
  | _ => zero
  end.

End Contents.

(** ** Instances to run the function on *)

(** Collaborators written over any scalar type that also has a square root
    and an absolute value: the Euclidean distance, the Wendland kernel of
    order 0, the basis [1, x_0, ..., x_(d-1)] (degrees 0 and 1 only) and the
    closed forms of the pseudo-inverse of a symmetric matrix of size 1 or 2
    (larger matrices are outside these instances and left as they are). *)
Section SampleCollaborators.

Context {T : Type} {SC : Scalar T}.
Variables (sqrt_ abs_ : T -> T).

Definition euclidean_distance (x y : list T) : T :=
  sqrt_ (fold_left (fun acc ab => add acc (mul (sub (fst ab) (snd ab))
                                              (sub (fst ab) (snd ab))))
                   (combine x y) zero).

(** [Kokkos::min(a, b)] is [b < a ? b : a]. *)
Definition kmin (a b : T) : T := if ltb b a then b else a.

Definition wendland0 (y : T) : T :=
  let x := kmin (abs_ y) one in
  mul (sub one x) (sub one x).

Definition linear_basis_size (dimension degree : nat) : nat :=
  match degree with O => 1 | _ => Datatypes.S dimension end.

Definition linear_basis (degree : nat) (x : list T) (k : nat) : T :=
  match k with
  | O => one
  | Datatypes.S k' => match degree with O => zero | _ => nth k' x zero end
  end.

Definition nonzero (x : T) : bool := ltb x zero || ltb zero x.

Definition pinv_small (n : nat) (m : nat -> nat -> T) (r c : nat) : T :=
  match n with
  | 1 => if nonzero (m 0 0) then div one (m 0 0) else zero
  | 2 =>
      let det := sub (mul (m 0 0) (m 1 1)) (mul (m 0 1) (m 1 0)) in
      let tr := add (m 0 0) (m 1 1) in
      if nonzero det then
        match r, c with
        | 0, 0 => div (m 1 1) det
        | 0, 1 => div (sub zero (m 0 1)) det
        | 1, 0 => div (sub zero (m 1 0)) det
        | _, _ => div (m 0 0) det
        end
      else if nonzero tr then div (m r c) (mul tr tr)
      else zero
  | _ => m r c
  end.

Definition sample_environment : Environment T :=
  {| distance := euclidean_distance;
     CRBF_evaluate := wendland0;
     polynomialBasisSize := linear_basis_size;
     evaluatePolynomialBasis := linear_basis;
     pseudoInverse := pinv_small;
     uninitialized := fun _ _ => zero |}.

End SampleCollaborators.

(** A platform with a host and a device that do not see each other's memory. *)
Inductive sample_space : Type := Host | Device.

Definition sample_accessible (ms es : sample_space) : bool :=
  match ms, es with
  | Host, Host | Device, Device => true
  | _, _ => false
  end.

Definition sample_platform : Platform :=
  {| memory_space := sample_space;
     execution_space := sample_space;
     is_accessible_from := sample_accessible |}.

Section SampleInputs.

Context {T : Type} {SC : Scalar T}.

Definition table3 (l : list (list (list T))) (ix : index) : T :=
  match ix with
  | [i; j; k] => nth k (nth j (nth i l []) []) zero
  | _ => zero
  end.

Definition table2 (l : list (list T)) (ix : index) : T :=
  match ix with
  | [i; k] => nth k (nth i l []) zero
  | _ => zero
  end.

(** A memory holding a neighbourhood table (handle 0) and a target sequence
    (handle 1), both on the host. *)
Definition sample_memory (dimension : nat)
           (sources : list (list (list T))) (targets : list (list T))
  : @Memory T sample_platform :=
  @mkMemory T sample_platform 2
    (fun h =>
       match h with
       | 0 => @mkView T sample_platform Host
                [length sources; length (nth 0 sources []); dimension]
                (table3 sources)
       | 1 => @mkView T sample_platform Host
                [length targets; dimension] (table2 targets)
       | _ => @mkView T sample_platform Host [] (fun _ => zero)
       end).

Definition sample_state (dimension : nat)
           (sources : list (list (list T))) (targets : list (list T))
  : @State T sample_platform :=
  @mkState T sample_platform (sample_memory dimension sources targets) [].

End SampleInputs.

(** *** Double precision *)

Module Binary64.

Definition scalar : Scalar float :=
  {| zero := 0%float;
     one := 1%float;
     add := PrimFloat.add;
     sub := PrimFloat.sub;
     mul := PrimFloat.mul;
     div := PrimFloat.div;
     ltb := PrimFloat.ltb;
     epsilon := 0x1p-52%float;
     c1_1 := 0x1.199999999999ap+0%float |}.

Definition environment : Environment float :=
  @sample_environment float scalar PrimFloat.sqrt PrimFloat.abs.

(** One target at 0 with neighbours at -1 and 1, in one dimension. *)
Definition scenario_A : @State float sample_platform :=
  @sample_state float scalar 1 [[[(-1)%float]; [1%float]]] [[0%float]].


(** One target at 0 whose two neighbours both sit on it. *)
Definition collapsed : @State float sample_platform :=
  @sample_state float scalar 1 [[[0%float]; [0%float]]] [[0%float]].

Definition run (degree : nat) (st : @State float sample_platform)
  : outcome (T:=float) handle :=
  @movingLeastSquaresCoefficients float scalar sample_platform environment
    degree Host Host 0 1 st.

(** Neither NaN nor an infinity, and a zero of either sign, read on the
    specification of binary64. *)
Definition finite_SF (x : spec_float) : bool :=
  match x with S754_zero _ | S754_finite _ _ _ => true | _ => false end.

Definition zero_SF (x : spec_float) : bool :=
  match x with S754_zero _ => true | _ => false end.

(** The integer [p], below [2^52], as a binary64 number. *)
Definition rep (p : positive) : spec_float :=
  S754_finite false
    (Pos.iter xO p (Z.to_pos (53 - Zpos (digits2_pos p))))
    (Zpos (digits2_pos p) - 53).

(** [1 + 1 + ... + 1], [n] times, from the left. *)
Definition ones (n : nat) : float :=
  fold_left PrimFloat.add (repeat 1%float n) 0%float.

End Binary64.

(** *** Exact arithmetic *)

Module Exact.

Definition Rltb (x y : R) : bool := if Rlt_dec x y then true else false.

Definition scalar : Scalar R :=
  {| zero := 0%R;
     one := 1%R;
     add := Rplus;
     sub := Rminus;
     mul := Rmult;
     div := Rdiv;
     ltb := Rltb;
     epsilon := (/ 4503599627370496)%R;
     c1_1 := (11 / 10)%R |}.

Definition environment : Environment R :=
  @sample_environment R scalar R_sqrt.sqrt Rabs.

(** One target at 0 with neighbours at -1 and 1, in one dimension. *)
Definition scenario_A : @State R sample_platform :=
  @sample_state R scalar 1 [[[(-1)%R]; [1%R]]] [[0%R]].

Definition run (degree : nat) (st : @State R sample_platform)
  : outcome (T:=R) handle :=
  @movingLeastSquaresCoefficients R scalar sample_platform environment
    degree Host Host 0 1 st.

End Exact.

(** ** What a kernel leaves in memory *)

(** [Tab dst m0 W val m]: memory [m] is memory [m0] where view [dst] holds
    [val ix] at every index [ix] of the region [W], and nothing else moved. *)
Definition Tab {T : Type} {PF : Platform} (dst : handle) (m0 : Memory T)
           (W : index -> bool) (val : index -> T) (m : Memory T) : Prop :=
  allocated m = allocated m0 /\
  (forall h, h <> dst -> views m h = views m0 h) /\
  memory (views m dst) = memory (views m0 dst) /\
  extents (views m dst) = extents (views m0 dst) /\
  (forall ix, read m dst ix = if W ix then val ix else read m0 dst ix).

(** The region of a table a kernel instance writes: one cell, or the row of
    the cells that extend a prefix. *)
Definition cell (target : index) (ix : index) : bool := index_eqb ix target.

Definition row (prefix : index) (n : nat) (ix : index) : bool :=
  existsb (fun k => index_eqb ix (prefix ++ [k])) (seq 0 n).

(** The cells written by a policy: the union of the regions of its iterations. *)
Definition range1 (n0 : nat) (W : nat -> index -> bool) (ix : index) : bool :=
  existsb (fun i => W i ix) (seq 0 n0).

Definition range2 (n0 n1 : nat) (W : nat -> nat -> index -> bool) (ix : index)
  : bool :=
  range1 n0 (fun i => range1 n1 (W i)) ix.

Definition range3 (n0 n1 n2 : nat) (W : nat -> nat -> nat -> index -> bool)
           (ix : index) : bool :=
  range1 n0 (fun i => range2 n1 n2 (W i)) ix.

(** The handles a call gives its tables when it starts in state [st]. *)
Definition tables_of {T : Type} {PF : Platform} (st : State T) : Tables :=
  let h := allocated (mem st) in
  mkTables h (1 + h) (2 + h) (3 + h) (4 + h).

Definition coeffs_of {T : Type} {PF : Platform} (st : State T) : handle :=
  5 + allocated (mem st).

Section Facts.

Context {T : Type} {SC : Scalar T} {PF : Platform} {EV : Environment T}.

(** What a stage that fills a new table leaves: the table is the next handle,
    has the memory space and extents asked for and holds [val] on [W]; the
    views that existed are the same views. *)
Record StageFacts (m : Memory T) (ms : memory_space) (ext : list nat)
       (W : index -> bool) (val : index -> T) (m' : Memory T) : Prop := {
  sf_allocated : allocated m' = Datatypes.S (allocated m);
  sf_frame : forall h, h <> allocated m -> views m' h = views m h;
  sf_memory : memory (views m' (allocated m)) = ms;
  sf_extents : extents (views m' (allocated m)) = ext;
  sf_values : forall ix, W ix = true -> elem (views m' (allocated m)) ix = val ix
}.

Variables (MemorySpace : memory_space).
Variables (dimension num_targets num_neighbors poly_size degree : nat).
Variables (source_points target_points : handle).

Definition assemble_labels : list string :=
  [ "ArborX::MovingLeastSquaresCoefficients::source_ref_target_fill"%string;
    "ArborX::MovingLeastSquaresCoefficients::radii_computation"%string;
    "ArborX::MovingLeastSquaresCoefficients::phi_computation"%string;
    "ArborX::MovingLeastSquaresCoefficients::vandermonde_computation"%string;
    "ArborX::MovingLeastSquaresCoefficients::moment_computation"%string ].

Definition extract_labels : list string :=
  [ "ArborX::MovingLeastSquaresCoefficients::pseudo_inverse_svd"%string;
    "ArborX::MovingLeastSquaresCoefficients::coefficients_computation"%string ].

(** The state [st'] and tables [tb] that [assemble] reaches from [st]. *)
Record Assembled (st : State T) (tb : Tables) (st' : State T) : Prop := {
  as_tables : tb = tables_of st;
  as_allocated : allocated (mem st') = 5 + allocated (mem st);
  as_frame : forall h, h < allocated (mem st) ->
                       views (mem st') h = views (mem st) h;
  as_dispatched : dispatched st' = dispatched st ++ assemble_labels;
  as_moment_memory : memory (views (mem st') (a_of tb)) = MemorySpace;
  as_moment_extents :
    extents (views (mem st') (a_of tb)) = [num_targets; poly_size; poly_size];
  as_relative : forall i j d,
      i < num_targets -> j < num_neighbors -> d < dimension ->
      elem (views (mem st') (source_ref_target_of tb)) [i; j; d] =
      sub (elem (views (mem st) source_points) [i; j; d])
          (elem (views (mem st) target_points) [i; d]);
  as_radii : forall i,
      i < num_targets ->
      elem (views (mem st') (radii_of tb)) [i] =
      radius_formula
        (norms dimension num_neighbors
               (views (mem st') (source_ref_target_of tb)) i);
  as_phi : forall i j,
      i < num_targets -> j < num_neighbors ->
      elem (views (mem st') (phi_of tb)) [i; j] =
      CRBF_evaluate
        (normalized_distance dimension
           (views (mem st') (source_ref_target_of tb))
           (views (mem st') (radii_of tb)) i j);
  as_vandermonde : forall i j k,
      i < num_targets -> j < num_neighbors -> k < poly_size ->
      elem (views (mem st') (p_of tb)) [i; j; k] =
      evaluatePolynomialBasis degree
        (point_of dimension (views (mem st') (source_ref_target_of tb)) [i; j]) k;
  as_moment : forall i j k,
      i < num_targets -> j < poly_size -> k < poly_size ->
      elem (views (mem st') (a_of tb)) [i; j; k] =
      moment_formula num_neighbors
        (table3_of (views (mem st') (p_of tb)))
        (table2_of (views (mem st') (phi_of tb))) i j k
}.

(** The state [st'] and coefficient table [c] that [extract tb] reaches from
    [st]. *)
Record Extracted (tb : Tables) (st : State T) (c : handle) (st' : State T)
  : Prop := {
  ex_coeffs : c = allocated (mem st);
  ex_allocated : allocated (mem st') = Datatypes.S (allocated (mem st));
  ex_frame : forall h, h <> a_of tb -> h <> c ->
                       views (mem st') h = views (mem st) h;
  ex_dispatched : dispatched st' = dispatched st ++ extract_labels;
  ex_memory : memory (views (mem st') c) = MemorySpace;
  ex_extents : extents (views (mem st') c) = [num_targets; num_neighbors];
  ex_inverse : forall i r k,
      i < num_targets -> r < poly_size -> k < poly_size ->
      elem (views (mem st') (a_of tb)) [i; r; k] =
      pseudoInverse poly_size
        (fun r' k' => elem (views (mem st) (a_of tb)) [i; r'; k']) r k;
  ex_values : forall i j,
      i < num_targets -> j < num_neighbors ->
      elem (views (mem st') c) [i; j] =
      coefficient_formula poly_size
        (table3_of (views (mem st') (a_of tb)))
        (table3_of (views (mem st') (p_of tb)))
        (table2_of (views (mem st') (phi_of tb))) i j
}.

End Facts.

(** * What the further properties are stated with *)

(** ** The coefficients of one target as a function of its neighbourhood *)

(** What the seven stages compute for one target, written on the relative
    positions [relative j] of its neighbours with no table in between. *)
Section ClosedForm.

Context {T : Type} {SC : Scalar T} {EV : Environment T}.
Variables (dimension num_neighbors poly_size degree : nat).
Variable relative : nat -> list T.

Definition closed_distance (j : nat) : T :=
  distance (relative j) (origin dimension).

Definition closed_radius : T :=
  radius_formula (map closed_distance (seq 0 num_neighbors)).

Definition closed_weight (j : nat) : T :=
  CRBF_evaluate (div (closed_distance j) closed_radius).

Definition closed_basis (j k : nat) : T :=
  evaluatePolynomialBasis degree (relative j) k.

Definition closed_moment (r k : nat) : T :=
  sum_upto num_neighbors
    (fun l => mul (mul (closed_basis l r) (closed_basis l k)) (closed_weight l)).

Definition closed_coefficient (j : nat) : T :=
  sum_upto poly_size
    (fun k => mul (mul (pseudoInverse poly_size closed_moment 0 k)
                       (closed_basis j k))
                  (closed_weight j)).

End ClosedForm.

(** The position of neighbour [j] of target [i] relative to the target, read
    off the two inputs (lines 104-109). *)
Definition relative_position {T : Type} {SC : Scalar T} {PF : Platform}
           (dimension : nat) (source_points target_points : handle)
           (st : State T) (i j : nat) : list T :=
  map (fun d => sub (read (mem st) source_points [i; j; d])
                    (read (mem st) target_points [i; d]))
      (seq 0 dimension).

(** The same collaborators over other contents of uninitialised memory. *)
Definition with_uninitialized {T : Type} (garbage : handle -> index -> T)
           (EV : Environment T) : Environment T :=
  {| distance := distance;
     CRBF_evaluate := CRBF_evaluate;
     polynomialBasisSize := polynomialBasisSize;
     evaluatePolynomialBasis := evaluatePolynomialBasis;
     pseudoInverse := pseudoInverse;
     uninitialized := garbage |}.

(** [symmetricPseudoInverseSVD] reads the [n] by [n] entries of the matrix it
    is given and nothing else. *)
Definition reads_matrix_entries_only {T : Type} {EV : Environment T} : Prop :=
  forall (n : nat) (m m' : nat -> nat -> T),
    (forall r c, r < n -> c < n -> m r c = m' r c) ->
    forall r c, r < n -> c < n ->
      pseudoInverse n m r c = pseudoInverse n m' r c.

(** ** The cells of a table *)

(** [ix] is a cell of a view of extents [ext]: one index per extent, each
    below its extent. *)
Fixpoint within (ext : list nat) (ix : index) : bool :=
  match ext, ix with
  | [], [] => true
  | n :: ext', i :: ix' => (i <? n) && within ext' ix'
  | _, _ => false
  end.

(** View [h] of memory [m] lives in [ms], has extents [ext] and, outside its
    cells, still holds what it was allocated with. *)
Definition Fresh_table {T : Type} {PF : Platform} {EV : Environment T}
           (m : Memory T) (h : handle) (ms : memory_space) (ext : list nat)
  : Prop :=
  memory (views m h) = ms /\
  extents (views m h) = ext /\
  forall ix, within ext ix = false -> elem (views m h) ix = uninitialized h ix.

(** The extents of the [k]-th table a call allocates (lines 94-98, 120-123,
    146-149, 165-168, 185-188 and 214-218). *)
Definition table_extents (dimension num_targets num_neighbors poly_size k : nat)
  : list nat :=
  match k with
  | 0 => [num_targets; num_neighbors; dimension]
  | 1 => [num_targets]
  | 2 => [num_targets; num_neighbors]
  | 3 => [num_targets; num_neighbors; poly_size]
  | 4 => [num_targets; poly_size; poly_size]
  | _ => [num_targets; num_neighbors]
  end.

(** ** The iterations of a policy *)










(** ** Signs in double precision *)

(** A binary64 number above zero: a positive finite number or plus infinity. *)
Definition positive_SF (x : spec_float) : bool :=
  match x with
  | S754_finite false _ _ | S754_infinity false => true
  | _ => false
  end.

(** A binary64 number of sign [sx] whose magnitude is below one: a zero, or a
    mantissa [m] and an exponent [e] with [m * 2^e < 1]. *)
Definition below_one (sx : bool) (x : spec_float) : Prop :=
  x = S754_zero sx \/
  exists m e, x = S754_finite sx m e /\ (Zpos (digits2_pos m) + e <= 0)%Z.

(** ** More inputs to run the function on *)

Module Binary64Inputs.

(** Scenario A moved by 5: one target at 5 with neighbours at 4 and 6. *)
Definition scenario_A_shifted : @State float sample_platform :=
  @sample_state float Binary64.scalar 1 [[[4%float]; [6%float]]] [[5%float]].

(** One target and a neighbourhood table with one row and no column. *)
Definition no_neighbour : @State float sample_platform :=
  @sample_state float Binary64.scalar 1 [[]] [[0%float]].

(** One target at 0 with a neighbour at [2^700], whose squared distance
    overflows, and a neighbour at 1. *)
Definition far_neighbour : @State float sample_platform :=
  @sample_state float Binary64.scalar 1 [[[0x1p+700%float]; [1%float]]]
                [[0%float]].

(** One target at 0 with a neighbour whose coordinate is NaN and a neighbour
    at 1. *)
Definition nan_neighbour : @State float sample_platform :=
  @sample_state float Binary64.scalar 1 [[[nan]; [1%float]]] [[0%float]].

(** One target at 0.1 with neighbours at 0.3, 0.7 and 1.9, each the nearest
    binary64 number. *)
Definition scenario_T : @State float sample_platform :=
  @sample_state float Binary64.scalar 1
    [[[0x1.3333333333333p-2%float]; [0x1.6666666666666p-1%float];
      [0x1.e666666666666p+0%float]]]
    [[0x1.999999999999ap-4%float]].

(** Scenario T moved by 1: one target at 1.1 with neighbours at 1.3, 1.7 and
    2.9, each the nearest binary64 number. *)
Definition scenario_T_moved : @State float sample_platform :=
  @sample_state float Binary64.scalar 1
    [[[0x1.4cccccccccccdp+0%float]; [0x1.b333333333333p+0%float];
      [0x1.7333333333333p+1%float]]]
    [[0x1.199999999999ap+0%float]].

End Binary64Inputs.

Module ExactInputs.

(** Scenario A with its two neighbours exchanged: the target at 0, the
    neighbours at 1 and -1. *)
Definition scenario_A_swapped : @State R sample_platform :=
  @sample_state R Exact.scalar 1 [[[1%R]; [(-1)%R]]] [[0%R]].

End ExactInputs.

(** * Properties *)

(** ** Loops *)

Lemma for_range_last {S : Type} (body : nat -> S -> S) (n lo : nat) (s : S) :
  for_range lo (Datatypes.S n) body s = body (lo + n) (for_range lo n body s).
Proof.
  revert lo s. induction n as [|n IH]; intros lo s.
  - simpl. now rewrite Nat.add_0_r.
  - change (for_range lo (Datatypes.S (Datatypes.S n)) body s)
      with (for_range (Datatypes.S lo) (Datatypes.S n) body (body lo s)).
    rewrite IH. simpl. now rewrite Nat.add_succ_r.
Qed.

Lemma for_loop_0 {S : Type} (body : nat -> S -> S) (s : S) :
  for_loop 0 body s = s.
Proof. reflexivity. Qed.

Lemma for_loop_S {S : Type} (body : nat -> S -> S) (n : nat) (s : S) :
  for_loop (Datatypes.S n) body s = body n (for_loop n body s).
Proof. unfold for_loop. now rewrite for_range_last. Qed.

(** The invariant rule of a counted loop. *)
Lemma for_loop_inv {S : Type} (P : nat -> S -> Prop) (body : nat -> S -> S)
      (n : nat) (s : S) :
  P 0 s ->
  (forall k s', k < n -> P k s' -> P (Datatypes.S k) (body k s')) ->
  P n (for_loop n body s).
Proof.
  intros H0 Hstep. induction n as [|n IH].
  - exact H0.
  - rewrite for_loop_S. apply Hstep; [lia|]. apply IH.
    intros k s' Hk. apply Hstep. lia.
Qed.

(** A loop that only accumulates is a left fold. *)
Lemma for_loop_fold {A B : Type} (f : A -> B -> A) (g : nat -> B) (n : nat) (a : A) :
  for_loop n (fun k acc => f acc (g k)) a = fold_left f (map g (seq 0 n)) a.
Proof.
  induction n as [|n IH].
  - reflexivity.
  - rewrite for_loop_S, IH, seq_S, map_app, fold_left_app. reflexivity.
Qed.

Lemma for_loop_ext {S : Type} (body body' : nat -> S -> S) (n : nat) (s : S) :
  (forall k s', k < n -> body k s' = body' k s') ->
  for_loop n body s = for_loop n body' s.
Proof.
  intros H. induction n as [|n IH].
  - reflexivity.
  - rewrite !for_loop_S, IH by (intros; apply H; lia). apply H. lia.
Qed.

Lemma existsb_seq_true (f : nat -> bool) (n k : nat) :
  k < n -> f k = true -> existsb f (seq 0 n) = true.
Proof.
  intros Hk Hf. apply existsb_exists. exists k. split; [|exact Hf].
  apply in_seq. lia.
Qed.

Lemma index_eqb_refl (ix : index) : index_eqb ix ix = true.
Proof. unfold index_eqb. destruct (list_eq_dec Nat.eq_dec ix ix); congruence. Qed.

Lemma index_eqb_eq (a b : index) : index_eqb a b = true <-> a = b.
Proof.
  unfold index_eqb. destruct (list_eq_dec Nat.eq_dec a b); split; congruence.
Qed.

(** ** Memory *)

Section MemoryFacts.

Context {T : Type} {PF : Platform}.

Lemma read_write_same (h : handle) (ix : index) (x : T) (m : Memory T) :
  read (write h ix x m) h ix = x.
Proof.
  unfold read, write. simpl. rewrite Nat.eqb_refl. simpl.
  now rewrite index_eqb_refl.
Qed.

Lemma views_write_other (h h' : handle) (ix : index) (x : T) (m : Memory T) :
  h' <> h -> views (write h ix x m) h' = views m h'.
Proof.
  intros Hne. unfold write. simpl.
  destruct (Nat.eqb_spec h' h); [contradiction|reflexivity].
Qed.

Lemma views_alloc_other (v : View T) (m : Memory T) (h : handle) :
  h <> allocated m -> views (alloc v m) h = views m h.
Proof.
  intros Hne. unfold alloc. simpl.
  destruct (Nat.eqb_spec h (allocated m)); [contradiction|reflexivity].
Qed.

Lemma views_alloc_new (v : View T) (m : Memory T) :
  views (alloc v m) (allocated m) = v.
Proof. unfold alloc. simpl. now rewrite Nat.eqb_refl. Qed.

Lemma Tab_start (dst : handle) (m0 : Memory T) (val : index -> T) :
  Tab dst m0 (fun _ => false) val m0.
Proof. repeat split. Qed.

Lemma Tab_ext (dst : handle) (m0 m : Memory T) (W W' : index -> bool)
      (val : index -> T) :
  (forall ix, W ix = W' ix) -> Tab dst m0 W val m -> Tab dst m0 W' val m.
Proof.
  intros HW (Ha & Hv & Hm & He & Hr). repeat split; auto.
  intros ix. rewrite <- HW. apply Hr.
Qed.

Lemma Tab_write (dst : handle) (m0 m : Memory T) (W : index -> bool)
      (val : index -> T) (ix : index) (x : T) :
  Tab dst m0 W val m -> x = val ix ->
  Tab dst m0 (fun ix' => index_eqb ix' ix || W ix') val (write dst ix x m).
Proof.
  intros (Ha & Hv & Hm & He & Hr) Hx. repeat split.
  - exact Ha.
  - intros h Hne. rewrite views_write_other by exact Hne. now apply Hv.
  - unfold write. simpl. rewrite Nat.eqb_refl. exact Hm.
  - unfold write. simpl. rewrite Nat.eqb_refl. exact He.
  - intros ix'. unfold read, write. simpl. rewrite Nat.eqb_refl. simpl.
    destruct (index_eqb ix' ix) eqn:E.
    + apply index_eqb_eq in E. subst ix'. simpl. exact Hx.
    + simpl. apply Hr.
Qed.

(** Reading a view other than the one being filled. *)
Lemma Tab_read_other (dst : handle) (m0 m : Memory T) (W : index -> bool)
      (val : index -> T) (h : handle) (ix : index) :
  Tab dst m0 W val m -> h <> dst -> read m h ix = read m0 h ix.
Proof. intros (_ & Hv & _) Hne. unfold read. now rewrite Hv. Qed.

Lemma Tab_for_loop (dst : handle) (m0 : Memory T) (val : index -> T)
      (n : nat) (body : nat -> Memory T -> Memory T) (Wk : nat -> index -> bool) :
  (forall k m W, k < n -> Tab dst m0 W val m ->
                 Tab dst m0 (fun ix => Wk k ix || W ix) val (body k m)) ->
  forall m W, Tab dst m0 W val m ->
    Tab dst m0 (fun ix => existsb (fun k => Wk k ix) (seq 0 n) || W ix) val
        (for_loop n body m).
Proof.
  intros Hstep m W HT. induction n as [|n IH].
  - exact HT.
  - rewrite for_loop_S.
    eapply Tab_ext; [|apply Hstep; [lia|apply IH; intros; apply Hstep; [lia|assumption]]].
    intros ix. cbv beta. rewrite seq_S, existsb_app. simpl.
    rewrite orb_false_r.
    destruct (Wk n ix), (existsb (fun k => Wk k ix) (seq 0 n)), (W ix); reflexivity.
Qed.

Lemma Tab_MDRange2 (dst : handle) (m0 : Memory T) (val : index -> T)
      (n0 n1 : nat) (body : nat -> nat -> Memory T -> Memory T)
      (Wij : nat -> nat -> index -> bool) :
  (forall i j m W, i < n0 -> j < n1 -> Tab dst m0 W val m ->
                   Tab dst m0 (fun ix => Wij i j ix || W ix) val (body i j m)) ->
  forall m W, Tab dst m0 W val m ->
    Tab dst m0
        (fun ix => existsb (fun i => existsb (fun j => Wij i j ix) (seq 0 n1))
                           (seq 0 n0) || W ix)
        val (for_loop n0 (fun i => for_loop n1 (fun j => body i j)) m).
Proof.
  intros Hstep m W HT.
  apply (Tab_for_loop (fun i => for_loop n1 (fun j => body i j))
                      (fun i ix => existsb (fun j => Wij i j ix) (seq 0 n1)));
    [|exact HT].
  intros i m' W' Hi HT'.
  apply (Tab_for_loop (fun j => body i j) (fun j ix => Wij i j ix)); [|exact HT'].
  intros j m'' W'' Hj HT''. now apply Hstep.
Qed.

End MemoryFacts.

(** ** Kernels *)

Section KernelFacts.

Context {T : Type} {SC : Scalar T} {PF : Platform} {EV : Environment T}.

Lemma length_point_of (dimension : nat) (v : View T) (ix : index) :
  length (point_of dimension v ix) = dimension.
Proof. unfold point_of. now rewrite length_map, length_seq. Qed.

Lemma coord_point_of (dimension : nat) (v : View T) (ix : index) (k : nat) :
  k < dimension -> coord (point_of dimension v ix) k = elem v (ix ++ [k]).
Proof.
  intros Hk. unfold coord, point_of.
  rewrite (nth_indep _ zero (elem v (ix ++ [0])))
    by (now rewrite length_map, length_seq).
  rewrite (map_nth (fun k => elem v (ix ++ [k])) (seq 0 dimension) 0 k).
  now rewrite seq_nth.
Qed.

Lemma length_set_coord (p : list T) (k : nat) (x : T) :
  length (set_coord p k x) = length p.
Proof.
  revert k. induction p as [|y q IH]; intros [|k]; simpl; auto.
Qed.

Lemma coord_set_coord_same (p : list T) (k : nat) (x : T) :
  k < length p -> coord (set_coord p k x) k = x.
Proof.
  unfold coord. revert k. induction p as [|y q IH]; intros [|k] Hk; simpl in *;
    try lia; auto. apply IH. lia.
Qed.

Lemma coord_set_coord_other (p : list T) (k k' : nat) (x : T) :
  k' <> k -> coord (set_coord p k x) k' = coord p k'.
Proof.
  unfold coord. revert k k'.
  induction p as [|y q IH]; intros [|k] [|k'] Hne; simpl; auto; try congruence.
Qed.

(** The local point [t] of the first kernel once its loop has run. *)
Lemma local_point (dimension : nat) (f : nat -> T) :
  let t := for_loop dimension (fun k t => set_coord t k (f k)) (origin dimension) in
  length t = dimension /\ forall k, k < dimension -> coord t k = f k.
Proof.
  cbv zeta.
  assert (H : forall n, n <= dimension ->
            let t := for_loop n (fun k t => set_coord t k (f k)) (origin dimension) in
            length t = dimension /\ forall k, k < n -> coord t k = f k).
  { induction n as [|n IH]; intros Hn; cbv zeta.
    - split; [apply repeat_length|intros; lia].
    - rewrite for_loop_S. destruct (IH ltac:(lia)) as [Hl Hc]. split.
      + now rewrite length_set_coord.
      + intros k Hk. destruct (Nat.eq_dec k n) as [->|Hne].
        * apply coord_set_coord_same. lia.
        * rewrite coord_set_coord_other by exact Hne. apply Hc. lia. }
  apply H. lia.
Qed.

Variables (dimension num_neighbors poly_size degree : nat).

Lemma row_true (prefix : index) (n k : nat) :
  k < n -> row prefix n (prefix ++ [k]) = true.
Proof.
  intros Hk. unfold row.
  apply existsb_seq_true with (k := k); [exact Hk|apply index_eqb_refl].
Qed.

Lemma Tab_store_point (dst : handle) (m0 m : Memory T) (W : index -> bool)
      (val : index -> T) (prefix : index) (p : list T) :
  Tab dst m0 W val m ->
  (forall k, k < length p -> coord p k = val (prefix ++ [k])) ->
  Tab dst m0 (fun ix => row prefix (length p) ix || W ix) val
      (store_point dst prefix p m).
Proof.
  intros HT Hp. unfold store_point, row.
  apply (Tab_for_loop (fun k m' => write dst (prefix ++ [k]) (coord p k) m')
                      (fun k ix => index_eqb ix (prefix ++ [k]))); [|exact HT].
  intros k m' W' Hk HT'. apply Tab_write; [exact HT'|now apply Hp].
Qed.

Lemma source_ref_target_fill_Tab
      (source_points target_points dst : handle) (m0 m : Memory T)
      (W : index -> bool) (i j : nat) :
  source_points <> dst -> target_points <> dst ->
  Tab dst m0 W
      (relative_value (views m0 source_points) (views m0 target_points)) m ->
  Tab dst m0 (fun ix => row [i; j] dimension ix || W ix)
      (relative_value (views m0 source_points) (views m0 target_points))
      (source_ref_target_fill dimension source_points target_points dst i j m).
Proof.
  intros Hs Ht HT. unfold source_ref_target_fill.
  destruct (local_point dimension
              (fun k => sub (coord (load_point dimension m source_points [i; j]) k)
                            (coord (load_point dimension m target_points [i]) k)))
    as [Hlen Hcoord].
  set (t := for_loop dimension _ _) in *.
  assert (Hp : forall k, k < length t ->
             coord t k =
             relative_value (views m0 source_points) (views m0 target_points)
                            ([i; j] ++ [k])).
  { intros k Hk. rewrite Hlen in Hk. rewrite Hcoord by exact Hk.
    unfold load_point. rewrite !coord_point_of by exact Hk.
    destruct HT as (_ & Hv & _). rewrite (Hv _ Hs), (Hv _ Ht). reflexivity. }
  pose proof (Tab_store_point [i; j] t HT Hp) as H.
  rewrite Hlen in H. exact H.
Qed.

Lemma radii_computation_Tab
      (source_ref_target dst : handle) (m0 m : Memory T)
      (W : index -> bool) (i : nat) :
  source_ref_target <> dst ->
  Tab dst m0 W
      (radius_value dimension num_neighbors (views m0 source_ref_target)) m ->
  Tab dst m0 (fun ix => cell [i] ix || W ix)
      (radius_value dimension num_neighbors (views m0 source_ref_target))
      (radii_computation dimension num_neighbors source_ref_target dst i m).
Proof.
  intros Hs HT. unfold radii_computation. apply Tab_write; [exact HT|].
  unfold radius_value, radius_formula, max_floored, norms, load_point.
  destruct HT as (_ & Hv & _). rewrite (Hv _ Hs).
  now rewrite (for_loop_fold kmax
    (fun j => distance (point_of dimension (views m0 source_ref_target) [i; j])
                       (origin dimension))).
Qed.

Lemma phi_computation_Tab
      (source_ref_target radii dst : handle) (m0 m : Memory T)
      (W : index -> bool) (i j : nat) :
  source_ref_target <> dst -> radii <> dst ->
  Tab dst m0 W
      (weight_value dimension (views m0 source_ref_target) (views m0 radii)) m ->
  Tab dst m0 (fun ix => cell [i; j] ix || W ix)
      (weight_value dimension (views m0 source_ref_target) (views m0 radii))
      (phi_computation dimension source_ref_target radii dst i j m).
Proof.
  intros Hs Hr HT. unfold phi_computation. apply Tab_write; [exact HT|].
  unfold weight_value, normalized_distance, load_point, read.
  destruct HT as (_ & Hv & _). now rewrite (Hv _ Hs), (Hv _ Hr).
Qed.

Lemma vandermonde_computation_Tab
      (source_ref_target dst : handle) (m0 m : Memory T)
      (W : index -> bool) (i j : nat) :
  source_ref_target <> dst ->
  Tab dst m0 W (basis_value dimension degree (views m0 source_ref_target)) m ->
  Tab dst m0 (fun ix => row [i; j] poly_size ix || W ix)
      (basis_value dimension degree (views m0 source_ref_target))
      (vandermonde_computation dimension poly_size degree source_ref_target dst i j m).
Proof.
  intros Hs HT. unfold vandermonde_computation, row.
  apply (Tab_for_loop
           (fun k m' =>
              write dst [i; j; k]
                    (evaluatePolynomialBasis degree
                       (load_point dimension m source_ref_target [i; j]) k) m')
           (fun k ix => index_eqb ix ([i; j] ++ [k]))); [|exact HT].
  intros k m' W' Hk HT'. apply Tab_write; [exact HT'|].
  unfold basis_value, load_point. simpl.
  destruct HT as (_ & Hv & _). now rewrite (Hv _ Hs).
Qed.

Lemma moment_computation_Tab
      (p phi dst : handle) (m0 m : Memory T) (W : index -> bool) (i j k : nat) :
  p <> dst -> phi <> dst ->
  Tab dst m0 W (moment_value num_neighbors (views m0 p) (views m0 phi)) m ->
  Tab dst m0 (fun ix => cell [i; j; k] ix || W ix)
      (moment_value num_neighbors (views m0 p) (views m0 phi))
      (moment_computation num_neighbors p phi dst i j k m).
Proof.
  intros Hp Hphi HT. unfold moment_computation. apply Tab_write; [exact HT|].
  unfold moment_value, moment_formula, sum_upto, table3_of, table2_of, read.
  destruct HT as (_ & Hv & _). rewrite (Hv _ Hp), (Hv _ Hphi).
  now rewrite (for_loop_fold add
    (fun l => mul (mul (elem (views m0 p) [i; l; j]) (elem (views m0 p) [i; l; k]))
                  (elem (views m0 phi) [i; l]))).
Qed.

Lemma coefficients_computation_Tab
      (a p phi dst : handle) (m0 m : Memory T) (W : index -> bool) (i j : nat) :
  a <> dst -> p <> dst -> phi <> dst ->
  Tab dst m0 W (coefficient_value poly_size (views m0 a) (views m0 p) (views m0 phi)) m ->
  Tab dst m0 (fun ix => cell [i; j] ix || W ix)
      (coefficient_value poly_size (views m0 a) (views m0 p) (views m0 phi))
      (coefficients_computation poly_size a p phi dst i j m).
Proof.
  intros Ha Hp Hphi HT. unfold coefficients_computation.
  apply Tab_write; [exact HT|].
  unfold coefficient_value, coefficient_formula, sum_upto, table3_of, table2_of, read.
  destruct HT as (_ & Hv & _). rewrite (Hv _ Ha), (Hv _ Hp), (Hv _ Hphi).
  now rewrite (for_loop_fold add
    (fun k => mul (mul (elem (views m0 a) [i; 0; k]) (elem (views m0 p) [i; j; k]))
                  (elem (views m0 phi) [i; j]))).
Qed.

End KernelFacts.

(** ** Policies and stages *)

Section StageProofs.

Context {T : Type} {SC : Scalar T} {PF : Platform} {EV : Environment T}.

Lemma Tab_RangePolicy (dst : handle) (m0 : Memory T) (val : index -> T)
      (n0 : nat) (body : nat -> Memory T -> Memory T) (Wi : nat -> index -> bool) :
  (forall i m W, i < n0 -> Tab dst m0 W val m ->
                 Tab dst m0 (fun ix => Wi i ix || W ix) val (body i m)) ->
  forall m W, Tab dst m0 W val m ->
    Tab dst m0 (fun ix => range1 n0 Wi ix || W ix) val (RangePolicy n0 body m).
Proof. intros Hstep m W HT. exact (Tab_for_loop body Wi Hstep HT). Qed.

Lemma Tab_MDRangePolicy2 (dst : handle) (m0 : Memory T) (val : index -> T)
      (n0 n1 : nat) (body : nat -> nat -> Memory T -> Memory T)
      (Wij : nat -> nat -> index -> bool) :
  (forall i j m W, i < n0 -> j < n1 -> Tab dst m0 W val m ->
                   Tab dst m0 (fun ix => Wij i j ix || W ix) val (body i j m)) ->
  forall m W, Tab dst m0 W val m ->
    Tab dst m0 (fun ix => range2 n0 n1 Wij ix || W ix) val
        (MDRangePolicy2 n0 n1 body m).
Proof. intros Hstep m W HT. exact (Tab_MDRange2 body Wij Hstep HT). Qed.

Lemma Tab_MDRangePolicy3 (dst : handle) (m0 : Memory T) (val : index -> T)
      (n0 n1 n2 : nat) (body : nat -> nat -> nat -> Memory T -> Memory T)
      (Wijk : nat -> nat -> nat -> index -> bool) :
  (forall i j k m W, i < n0 -> j < n1 -> k < n2 -> Tab dst m0 W val m ->
                     Tab dst m0 (fun ix => Wijk i j k ix || W ix) val
                         (body i j k m)) ->
  forall m W, Tab dst m0 W val m ->
    Tab dst m0 (fun ix => range3 n0 n1 n2 Wijk ix || W ix) val
        (MDRangePolicy3 n0 n1 n2 body m).
Proof.
  intros Hstep m W HT. unfold MDRangePolicy3, range3.
  apply (Tab_RangePolicy
           (fun i => for_loop n1 (fun j => for_loop n2 (fun k => body i j k)))
           (fun i => range2 n1 n2 (Wijk i))); [|exact HT].
  intros i m' W' Hi HT'.
  apply (Tab_MDRangePolicy2 (fun j k => body i j k) (Wijk i)); [|exact HT'].
  intros j k m'' W'' Hj Hk HT''. now apply Hstep.
Qed.

Lemma range1_true (n0 : nat) (W : nat -> index -> bool) (ix : index) (i : nat) :
  i < n0 -> W i ix = true -> range1 n0 W ix = true.
Proof. intros Hi HW. unfold range1. now apply existsb_seq_true with (k := i). Qed.

Lemma range2_true (n0 n1 : nat) (W : nat -> nat -> index -> bool) (ix : index)
      (i j : nat) :
  i < n0 -> j < n1 -> W i j ix = true -> range2 n0 n1 W ix = true.
Proof.
  intros Hi Hj HW. unfold range2.
  apply range1_true with (i := i); [exact Hi|].
  now apply range1_true with (i := j).
Qed.

Lemma range3_true (n0 n1 n2 : nat) (W : nat -> nat -> nat -> index -> bool)
      (ix : index) (i j k : nat) :
  i < n0 -> j < n1 -> k < n2 -> W i j k ix = true -> range3 n0 n1 n2 W ix = true.
Proof.
  intros Hi Hj Hk HW. unfold range3.
  apply range1_true with (i := i); [exact Hi|].
  now apply range2_true with (i := j) (j := k).
Qed.

Lemma cell_true (ix : index) : cell ix ix = true.
Proof. apply index_eqb_refl. Qed.

(** Allocating a table and filling it with one kernel. *)
Lemma table_stage (ms : memory_space) (ext : list nat) (label : string)
      (kernel : handle -> Memory T -> Memory T)
      (W : index -> bool) (val : index -> T) (st : State T) :
  Tab (allocated (mem st))
      (alloc (mkView ms ext (uninitialized (allocated (mem st)))) (mem st))
      (fun ix => W ix || false) val
      (kernel (allocated (mem st))
              (alloc (mkView ms ext (uninitialized (allocated (mem st)))) (mem st))) ->
  let r := kbind (view_alloc ms ext)
                 (fun h => kbind (parallel_for label (kernel h)) (fun _ => kret h))
                 st in
  fst r = allocated (mem st) /\
  dispatched (snd r) = dispatched st ++ [label] /\
  StageFacts (mem st) ms ext W val (mem (snd r)).
Proof.
  intros (Ha & Hv & Hm & He & Hr). cbv zeta.
  unfold kbind, view_alloc, parallel_for, kret. simpl.
  split; [reflexivity|]. split; [reflexivity|].
  set (m1 := alloc _ _) in *. split.
  - rewrite Ha. reflexivity.
  - intros h Hne. rewrite (Hv _ Hne). unfold m1.
    now apply views_alloc_other.
  - rewrite Hm. unfold m1. now rewrite views_alloc_new.
  - rewrite He. unfold m1. now rewrite views_alloc_new.
  - intros ix HW. specialize (Hr ix). unfold read in Hr. rewrite Hr, HW.
    reflexivity.
Qed.

End StageProofs.

Section PipelineProofs.

Context {T : Type} {SC : Scalar T} {PF : Platform} {EV : Environment T}.
Variables (MemorySpace : memory_space).
Variables (dimension num_targets num_neighbors poly_size degree : nat).
Variables (source_points target_points : handle).

Lemma stage_source_ref_target_facts (st : State T) :
  source_points < allocated (mem st) -> target_points < allocated (mem st) ->
  let r := stage_source_ref_target MemorySpace dimension num_targets num_neighbors
                                   source_points target_points st in
  fst r = allocated (mem st) /\
  dispatched (snd r) =
    dispatched st
    ++ ["ArborX::MovingLeastSquaresCoefficients::source_ref_target_fill"%string] /\
  StageFacts (mem st) MemorySpace [num_targets; num_neighbors; dimension]
             (range2 num_targets num_neighbors (fun i j => row [i; j] dimension))
             (relative_value (views (mem st) source_points)
                             (views (mem st) target_points))
             (mem (snd r)).
Proof.
  intros Hs Ht. unfold stage_source_ref_target.
  apply table_stage with
           (kernel := (fun h => MDRangePolicy2 num_targets num_neighbors
                       (source_ref_target_fill dimension source_points
                                               target_points h))).
  set (v := mkView _ _ _).
  rewrite <- (views_alloc_other v (mem st) (h := source_points)) by lia.
  rewrite <- (views_alloc_other v (mem st) (h := target_points)) by lia.
  apply Tab_MDRangePolicy2; [|apply Tab_start].
  intros i j m W _ _ HT. apply source_ref_target_fill_Tab; [lia|lia|exact HT].
Qed.

Lemma stage_radii_facts (source_ref_target : handle) (st : State T) :
  source_ref_target < allocated (mem st) ->
  let r := stage_radii MemorySpace dimension num_targets num_neighbors
                       source_ref_target st in
  fst r = allocated (mem st) /\
  dispatched (snd r) =
    dispatched st
    ++ ["ArborX::MovingLeastSquaresCoefficients::radii_computation"%string] /\
  StageFacts (mem st) MemorySpace [num_targets]
             (range1 num_targets (fun i => cell [i]))
             (radius_value dimension num_neighbors
                           (views (mem st) source_ref_target))
             (mem (snd r)).
Proof.
  intros Hs. unfold stage_radii.
  apply table_stage with
           (kernel := (fun h => RangePolicy num_targets
                       (radii_computation dimension num_neighbors
                                          source_ref_target h))).
  set (v := mkView _ _ _).
  rewrite <- (views_alloc_other v (mem st) (h := source_ref_target)) by lia.
  apply Tab_RangePolicy; [|apply Tab_start].
  intros i m W _ HT. apply radii_computation_Tab; [lia|exact HT].
Qed.

Lemma stage_phi_facts (source_ref_target radii : handle) (st : State T) :
  source_ref_target < allocated (mem st) -> radii < allocated (mem st) ->
  let r := stage_phi MemorySpace dimension num_targets num_neighbors
                     source_ref_target radii st in
  fst r = allocated (mem st) /\
  dispatched (snd r) =
    dispatched st
    ++ ["ArborX::MovingLeastSquaresCoefficients::phi_computation"%string] /\
  StageFacts (mem st) MemorySpace [num_targets; num_neighbors]
             (range2 num_targets num_neighbors (fun i j => cell [i; j]))
             (weight_value dimension (views (mem st) source_ref_target)
                           (views (mem st) radii))
             (mem (snd r)).
Proof.
  intros Hs Hr. unfold stage_phi.
  apply table_stage with
           (kernel := (fun h => MDRangePolicy2 num_targets num_neighbors
                       (phi_computation dimension source_ref_target radii h))).
  set (v := mkView _ _ _).
  rewrite <- (views_alloc_other v (mem st) (h := source_ref_target)) by lia.
  rewrite <- (views_alloc_other v (mem st) (h := radii)) by lia.
  apply Tab_MDRangePolicy2; [|apply Tab_start].
  intros i j m W _ _ HT. apply phi_computation_Tab; [lia|lia|exact HT].
Qed.

Lemma stage_vandermonde_facts (source_ref_target : handle) (st : State T) :
  source_ref_target < allocated (mem st) ->
  let r := stage_vandermonde MemorySpace dimension num_targets num_neighbors
                             poly_size degree source_ref_target st in
  fst r = allocated (mem st) /\
  dispatched (snd r) =
    dispatched st
    ++ ["ArborX::MovingLeastSquaresCoefficients::vandermonde_computation"%string] /\
  StageFacts (mem st) MemorySpace [num_targets; num_neighbors; poly_size]
             (range2 num_targets num_neighbors (fun i j => row [i; j] poly_size))
             (basis_value dimension degree (views (mem st) source_ref_target))
             (mem (snd r)).
Proof.
  intros Hs. unfold stage_vandermonde.
  apply table_stage with
           (kernel := (fun h => MDRangePolicy2 num_targets num_neighbors
                       (vandermonde_computation dimension poly_size degree
                                                source_ref_target h))).
  set (v := mkView _ _ _).
  rewrite <- (views_alloc_other v (mem st) (h := source_ref_target)) by lia.
  apply Tab_MDRangePolicy2; [|apply Tab_start].
  intros i j m W _ _ HT. apply vandermonde_computation_Tab; [lia|exact HT].
Qed.

Lemma stage_moment_facts (p phi : handle) (st : State T) :
  p < allocated (mem st) -> phi < allocated (mem st) ->
  let r := stage_moment MemorySpace num_targets num_neighbors poly_size p phi st in
  fst r = allocated (mem st) /\
  dispatched (snd r) =
    dispatched st
    ++ ["ArborX::MovingLeastSquaresCoefficients::moment_computation"%string] /\
  StageFacts (mem st) MemorySpace [num_targets; poly_size; poly_size]
             (range3 num_targets poly_size poly_size (fun i j k => cell [i; j; k]))
             (moment_value num_neighbors (views (mem st) p) (views (mem st) phi))
             (mem (snd r)).
Proof.
  intros Hp Hphi. unfold stage_moment.
  apply table_stage with
           (kernel := (fun h => MDRangePolicy3 num_targets poly_size poly_size
                       (moment_computation num_neighbors p phi h))).
  set (v := mkView _ _ _).
  rewrite <- (views_alloc_other v (mem st) (h := p)) by lia.
  rewrite <- (views_alloc_other v (mem st) (h := phi)) by lia.
  apply Tab_MDRangePolicy3; [|apply Tab_start].
  intros i j k m W _ _ _ HT. apply moment_computation_Tab; [lia|lia|exact HT].
Qed.

Lemma stage_coefficients_facts (a p phi : handle) (st : State T) :
  a < allocated (mem st) -> p < allocated (mem st) -> phi < allocated (mem st) ->
  let r := stage_coefficients MemorySpace num_targets num_neighbors poly_size
                              a p phi st in
  fst r = allocated (mem st) /\
  dispatched (snd r) =
    dispatched st
    ++ ["ArborX::MovingLeastSquaresCoefficients::coefficients_computation"%string] /\
  StageFacts (mem st) MemorySpace [num_targets; num_neighbors]
             (range2 num_targets num_neighbors (fun i j => cell [i; j]))
             (coefficient_value poly_size (views (mem st) a) (views (mem st) p)
                                (views (mem st) phi))
             (mem (snd r)).
Proof.
  intros Ha Hp Hphi. unfold stage_coefficients.
  apply table_stage with
           (kernel := (fun h => MDRangePolicy2 num_targets num_neighbors
                       (coefficients_computation poly_size a p phi h))).
  set (v := mkView _ _ _).
  rewrite <- (views_alloc_other v (mem st) (h := a)) by lia.
  rewrite <- (views_alloc_other v (mem st) (h := p)) by lia.
  rewrite <- (views_alloc_other v (mem st) (h := phi)) by lia.
  apply Tab_MDRangePolicy2; [|apply Tab_start].
  intros i j m W _ _ HT.
  apply coefficients_computation_Tab; [lia|lia|lia|exact HT].
Qed.

(** The pseudo-inverse rewrites the moment matrices and nothing else. *)
Lemma symmetricPseudoInverseSVD_Tab (a : handle) (m : Memory T) :
  Tab a m
      (fun ix => range3 (extent (views m a) 0) (extent (views m a) 1)
                        (extent (views m a) 1) (fun i r c => cell [i; r; c]) ix
                 || false)
      (inverse_value (extent (views m a) 1) (views m a))
      (symmetricPseudoInverseSVD a m).
Proof.
  unfold symmetricPseudoInverseSVD.
  apply Tab_MDRangePolicy3; [|apply Tab_start].
  intros i r c m' W _ _ _ HT. apply Tab_write; [exact HT|reflexivity].
Qed.

End PipelineProofs.

Section AssembleProofs.

Context {T : Type} {SC : Scalar T} {PF : Platform} {EV : Environment T}.
Variables (MemorySpace : memory_space).
Variables (dimension num_targets num_neighbors poly_size degree : nat).
Variables (source_points target_points : handle).

Lemma row_cell (i j k n : nat) : k < n -> row [i; j] n [i; j; k] = true.
Proof. intros Hk. exact (row_true [i; j] Hk). Qed.

(** The five stages that lead to the moment matrix. *)
Lemma assemble_spec (st : State T) :
  source_points < allocated (mem st) -> target_points < allocated (mem st) ->
  Assembled MemorySpace dimension num_targets num_neighbors poly_size degree
            source_points target_points st
            (fst (assemble MemorySpace dimension num_targets num_neighbors
                           poly_size degree source_points target_points st))
            (snd (assemble MemorySpace dimension num_targets num_neighbors
                           poly_size degree source_points target_points st)).
Proof.
  intros Hs Ht. unfold assemble, kbind.
  pose proof (stage_source_ref_target_facts MemorySpace dimension num_targets
                num_neighbors st Hs Ht) as F1.
  destruct (stage_source_ref_target _ _ _ _ _ _ st) as [h0 st1].
  cbv zeta in F1. simpl fst in F1. simpl snd in F1.
  destruct F1 as (-> & D1 & [A1 V1 M1 E1 X1]).
  pose proof (stage_radii_facts MemorySpace dimension num_targets num_neighbors
                (source_ref_target := allocated (mem st)) st1 ltac:(lia)) as F2.
  destruct (stage_radii _ _ _ _ _ st1) as [h1 st2].
  cbv zeta in F2. simpl fst in F2. simpl snd in F2.
  destruct F2 as (-> & D2 & [A2 V2 M2 E2 X2]).
  pose proof (stage_phi_facts MemorySpace dimension num_targets num_neighbors
                (source_ref_target := allocated (mem st))
                (radii := allocated (mem st1)) st2 ltac:(lia) ltac:(lia)) as F3.
  destruct (stage_phi _ _ _ _ _ _ st2) as [h2 st3].
  cbv zeta in F3. simpl fst in F3. simpl snd in F3.
  destruct F3 as (-> & D3 & [A3 V3 M3 E3 X3]).
  pose proof (stage_vandermonde_facts MemorySpace dimension num_targets
                num_neighbors poly_size degree
                (source_ref_target := allocated (mem st)) st3 ltac:(lia)) as F4.
  destruct (stage_vandermonde _ _ _ _ _ _ _ st3) as [h3 st4].
  cbv zeta in F4. simpl fst in F4. simpl snd in F4.
  destruct F4 as (-> & D4 & [A4 V4 M4 E4 X4]).
  pose proof (stage_moment_facts MemorySpace num_targets num_neighbors poly_size
                (p := allocated (mem st3)) (phi := allocated (mem st2))
                st4 ltac:(lia) ltac:(lia)) as F5.
  destruct (stage_moment _ _ _ _ _ _ st4) as [h4 st5].
  cbv zeta in F5. simpl fst in F5. simpl snd in F5.
  destruct F5 as (-> & D5 & [A5 V5 M5 E5 X5]).
  unfold kret. simpl fst. simpl snd.
  assert (K1 : views (mem st5) (allocated (mem st)) = views (mem st1) (allocated (mem st))).
  { rewrite V5, V4, V3, V2 by lia. reflexivity. }
  assert (K2 : views (mem st5) (allocated (mem st1)) = views (mem st2) (allocated (mem st1))).
  { rewrite V5, V4, V3 by lia. reflexivity. }
  assert (K3 : views (mem st5) (allocated (mem st2)) = views (mem st3) (allocated (mem st2))).
  { rewrite V5, V4 by lia. reflexivity. }
  assert (K4 : views (mem st5) (allocated (mem st3)) = views (mem st4) (allocated (mem st3))).
  { rewrite V5 by lia. reflexivity. }
  split; simpl source_ref_target_of; simpl radii_of; simpl phi_of; simpl p_of;
    simpl a_of.
  - unfold tables_of. rewrite A4, A3, A2, A1. reflexivity.
  - lia.
  - intros h Hh. rewrite V5, V4, V3, V2, V1 by lia. reflexivity.
  - rewrite D5, D4, D3, D2, D1. unfold assemble_labels.
    rewrite <- !app_assoc. reflexivity.
  - exact M5.
  - exact E5.
  - intros i j d Hi Hj Hd. rewrite K1, X1.
    + reflexivity.
    + apply range2_true with (i := i) (j := j); auto. now apply row_cell.
  - intros i Hi. rewrite K2, X2.
    + unfold radius_value. rewrite K1. reflexivity.
    + apply range1_true with (i := i); auto. apply cell_true.
  - intros i j Hi Hj. rewrite K3, X3.
    + unfold weight_value. rewrite K1, K2.
      rewrite (V2 (allocated (mem st))) by lia. reflexivity.
    + apply range2_true with (i := i) (j := j); auto. apply cell_true.
  - intros i j k Hi Hj Hk. rewrite K4, X4.
    + unfold basis_value. rewrite K1.
      rewrite (V3 (allocated (mem st))), (V2 (allocated (mem st))) by lia.
      reflexivity.
    + apply range2_true with (i := i) (j := j); auto. now apply row_cell.
  - intros i j k Hi Hj Hk. rewrite X5.
    + unfold moment_value. rewrite K4, K3.
      rewrite (V4 (allocated (mem st2))) by lia. reflexivity.
    + apply range3_true with (i := i) (j := j) (k := k); auto. apply cell_true.
Qed.

End AssembleProofs.

Section ExtractProofs.

Context {T : Type} {SC : Scalar T} {PF : Platform} {EV : Environment T}.
Variables (MemorySpace : memory_space).
Variables (num_targets num_neighbors poly_size : nat).

(** The pseudo-inverse and the coefficient stage. *)
Lemma extract_spec (tb : Tables) (st : State T) :
  a_of tb < allocated (mem st) ->
  p_of tb < allocated (mem st) ->
  phi_of tb < allocated (mem st) ->
  extents (views (mem st) (a_of tb)) = [num_targets; poly_size; poly_size] ->
  Extracted MemorySpace num_targets num_neighbors poly_size tb st
            (fst (extract MemorySpace num_targets num_neighbors poly_size tb st))
            (snd (extract MemorySpace num_targets num_neighbors poly_size tb st)).
Proof.
  intros Ha Hp Hphi Hext. unfold extract, kbind, stage_pseudo_inverse, parallel_for.
  pose proof (symmetricPseudoInverseSVD_Tab (a_of tb) (mem st)) as HT.
  unfold extent in HT. rewrite Hext in HT. simpl nth in HT.
  set (m6 := symmetricPseudoInverseSVD (a_of tb) (mem st)) in *.
  destruct HT as (A6 & V6 & M6 & E6 & R6).
  set (st6 := mkState m6 _).
  assert (A6' : allocated (mem st6) = allocated (mem st)) by exact A6.
  assert (V6' : forall h, h <> a_of tb -> views (mem st6) h = views (mem st) h)
    by exact V6.
  assert (R6' : forall ix, elem (views (mem st6) (a_of tb)) ix =
                           if range3 num_targets poly_size poly_size
                                     (fun i r c => cell [i; r; c]) ix || false
                           then inverse_value poly_size (views (mem st) (a_of tb)) ix
                           else read (mem st) (a_of tb) ix) by exact R6.
  assert (D6 : dispatched st6 = dispatched st ++
               ["ArborX::MovingLeastSquaresCoefficients::pseudo_inverse_svd"%string])
    by reflexivity.
  clearbody st6. clear R6 V6 A6 M6 E6. clearbody m6.
  pose proof (stage_coefficients_facts MemorySpace num_targets num_neighbors
                poly_size (a := a_of tb) (p := p_of tb) (phi := phi_of tb) st6
                ltac:(lia) ltac:(lia) ltac:(lia)) as F7.
  destruct (stage_coefficients _ _ _ _ _ _ _ st6) as [c st7].
  cbv zeta in F7. simpl fst in F7. simpl snd in F7. simpl fst. simpl snd.
  destruct F7 as (-> & D7 & [A7 V7 M7 E7 X7]).
  rewrite A6' in *.
  split.
  - reflexivity.
  - exact A7.
  - intros h Hh Hc. rewrite V7 by exact Hc. now apply V6'.
  - rewrite D7, D6. unfold extract_labels.
    rewrite <- app_assoc. reflexivity.
  - exact M7.
  - exact E7.
  - intros i r k Hi Hr Hk. rewrite V7 by lia.
    rewrite R6'.
    rewrite orb_false_r.
    rewrite (range3_true (fun i r c => cell [i; r; c]) [i; r; k] Hi Hr Hk
                         (cell_true [i; r; k])).
    reflexivity.
  - intros i j Hi Hj. rewrite X7.
    + unfold coefficient_value.
      rewrite (V7 (a_of tb)), (V7 (p_of tb)), (V7 (phi_of tb)) by lia.
      reflexivity.
    + apply range2_true with (i := i) (j := j); auto. apply cell_true.
Qed.

End ExtractProofs.

(** ** The call *)

Section CallProofs.

Context {T : Type} {SC : Scalar T} {PF : Platform} {EV : Environment T}.
Variables (degree : nat) (MemorySpace : memory_space) (space : execution_space).
Variables (source_points target_points : handle) (st : State T).

(** A call whose checks pass runs the seven stages and returns. *)
Lemma call_returns :
  preconditions MemorySpace space source_points target_points st = true ->
  movingLeastSquaresCoefficients degree MemorySpace space
                                 source_points target_points st
  = Done (fst (at_return degree MemorySpace source_points target_points st))
         (snd (at_return degree MemorySpace source_points target_points st)).
Proof.
  unfold preconditions. intros H.
  repeat (apply andb_prop in H; destruct H as [H ?]).
  unfold movingLeastSquaresCoefficients, bind, static_assert, get_view,
    KOKKOS_ASSERT, lift, at_return, at_pseudo_inverse, stages, kbind.
  unfold call_num_targets, call_num_neighbors, call_poly_size, call_dimension.
  cbv zeta.
  repeat match goal with
         | Hb : ?b = true |- context [if ?b then _ else _] => rewrite Hb
         end.
  destruct (assemble _ _ _ _ _ _ _ _ st) as [tb st5]. reflexivity.
Qed.

(** A call one of whose checks fails does not return, and stops where it
    started. *)
Lemma call_stopped :
  preconditions MemorySpace space source_points target_points st = false ->
  match movingLeastSquaresCoefficients degree MemorySpace space
                                       source_points target_points st with
  | Done _ _ => False
  | IllFormed _ _ => True
  | Aborted _ _ st' => st' = st
  end.
Proof.
  unfold preconditions, movingLeastSquaresCoefficients, bind, static_assert,
    get_view, KOKKOS_ASSERT, lift.
  intros H.
  destruct (is_accessible_from MemorySpace space); [|exact I].
  destruct (point_rank (views (mem st) source_points) =? 2); [|exact I].
  destruct (is_accessible_from (memory (views (mem st) source_points)) space);
    [|exact I].
  destruct (is_accessible_from (memory (views (mem st) target_points)) space);
    [|exact I].
  destruct (point_dimension (views (mem st) source_points)
            =? point_dimension (views (mem st) target_points)); [|exact I].
  destruct (extent (views (mem st) target_points) 0
            =? extent (views (mem st) source_points) 0); [discriminate|].
  reflexivity.
Qed.

(** What the tables hold when the call returns. *)
Lemma call_spec :
  source_points < allocated (mem st) -> target_points < allocated (mem st) ->
  let nt := call_num_targets target_points st in
  let nn := call_num_neighbors source_points st in
  let ps := call_poly_size degree source_points st in
  let mid := at_pseudo_inverse degree MemorySpace source_points target_points st in
  let fin := at_return degree MemorySpace source_points target_points st in
  Assembled MemorySpace (call_dimension source_points st) nt nn ps degree
            source_points target_points st (fst mid) (snd mid) /\
  Extracted MemorySpace nt nn ps (fst mid) (snd mid) (fst fin) (snd fin) /\
  fst fin = coeffs_of st.
Proof.
  intros Hs Ht. cbv zeta.
  pose proof (assemble_spec MemorySpace (call_dimension source_points st)
                (call_num_targets target_points st)
                (call_num_neighbors source_points st)
                (call_poly_size degree source_points st) degree st Hs Ht) as HA.
  fold (at_pseudo_inverse degree MemorySpace source_points target_points st) in HA.
  set (mid := at_pseudo_inverse _ _ _ _ _) in *.
  assert (HE : Extracted MemorySpace (call_num_targets target_points st)
                 (call_num_neighbors source_points st)
                 (call_poly_size degree source_points st)
                 (fst mid) (snd mid)
                 (fst (at_return degree MemorySpace source_points target_points st))
                 (snd (at_return degree MemorySpace source_points target_points st))).
  { unfold at_return. fold mid.
    destruct HA as [Htb Hal _ _ _ Hext _ _ _ _ _].
    apply extract_spec.
    - rewrite Htb, Hal. unfold tables_of. cbn [a_of]. lia.
    - rewrite Htb, Hal. unfold tables_of. cbn [p_of]. lia.
    - rewrite Htb, Hal. unfold tables_of. cbn [phi_of]. lia.
    - exact Hext. }
  split; [exact HA|]. split; [exact HE|].
  rewrite (ex_coeffs HE), (as_allocated HA). reflexivity.
Qed.

End CallProofs.

(** * The claims of the specification *)

Section Claims.

Context {T : Type} {SC : Scalar T} {PF : Platform} {EV : Environment T}.
Variables (degree : nat) (MemorySpace : memory_space) (space : execution_space).
Variables (source_points target_points : handle) (st : State T).

Let dimension := call_dimension source_points st.
Let num_targets := call_num_targets target_points st.
Let num_neighbors := call_num_neighbors source_points st.
Let poly_size := call_poly_size degree source_points st.
Let tb := tables_of st.
Let mid := snd (at_pseudo_inverse degree MemorySpace source_points target_points st).
Let fin := snd (at_return degree MemorySpace source_points target_points st).

(** The tables that the pseudo-inverse and the last stage do not write are,
    when the call returns, the views they were at the pseudo-inverse. *)
Lemma kept_until_return (h : handle) :
  source_points < allocated (mem st) -> target_points < allocated (mem st) ->
  h <> a_of tb -> h <> coeffs_of st ->
  views (mem fin) h = views (mem mid) h.
Proof.
  intros Hs Ht Ha Hc.
  destruct (call_spec degree MemorySpace st Hs Ht) as (HA & HE & Hco).
  apply (ex_frame HE).
  - rewrite (as_tables HA). exact Ha.
  - rewrite Hco. exact Hc.
Qed.

(** C7.  When the call returns, the table of relative coordinates holds
    [source[i][j][d] - target[i][d]] and the weight of neighbour [j] of target
    [i] is the kernel evaluated at the distance of [relative[i][j]] to the
    origin divided by [radius[i]]; the stage that computes the weights cannot
    fail (it runs in the monad [K], which has no failure) and each weight
    depends on [relative[i][j]] and [radius[i]] only. *)
Theorem weight_is_kernel_of_normalized_distance :
  preconditions MemorySpace space source_points target_points st = true ->
  source_points < allocated (mem st) -> target_points < allocated (mem st) ->
  movingLeastSquaresCoefficients degree MemorySpace space
                                 source_points target_points st
  = Done (coeffs_of st) fin /\
  forall i j, i < num_targets -> j < num_neighbors ->
    (forall d, d < dimension ->
       read (mem fin) (source_ref_target_of tb) [i; j; d] =
       sub (read (mem st) source_points [i; j; d])
           (read (mem st) target_points [i; d])) /\
    read (mem fin) (phi_of tb) [i; j] =
    CRBF_evaluate
      (div (distance (load_point dimension (mem fin) (source_ref_target_of tb) [i; j])
                     (origin dimension))
           (read (mem fin) (radii_of tb) [i])).
Proof.
  intros Hpre Hs Ht.
  destruct (call_spec degree MemorySpace st Hs Ht) as (HA & HE & Hco).
  split.
  - rewrite (call_returns degree _ _ _ _ _ Hpre). now rewrite Hco.
  - intros i j Hi Hj. unfold read, load_point.
    rewrite !(kept_until_return Hs Ht)
      by (unfold tb, tables_of, coeffs_of; simpl; lia).
    unfold tb. rewrite <- (as_tables HA). split.
    + intros d Hd. now apply (as_relative HA).
    + now apply (as_phi HA).
Qed.

(** C4.  When the call reaches the pseudo-inverse (the state
    [at_pseudo_inverse], from which [at_return] runs the last two stages),
    entry [(j, k)] of the moment matrix of target [i] is the sum over the
    neighbours [l], taken in order from [0] in the working scalar type, of
    [P[i][l][j] * P[i][l][k] * weight[i][l]]. *)
Theorem moment_is_weighted_sum :
  source_points < allocated (mem st) -> target_points < allocated (mem st) ->
  forall i j k, i < num_targets -> j < poly_size -> k < poly_size ->
    read (mem mid) (a_of tb) [i; j; k] =
    fold_left add
      (map (fun l => mul (mul (read (mem mid) (p_of tb) [i; l; j])
                              (read (mem mid) (p_of tb) [i; l; k]))
                         (read (mem mid) (phi_of tb) [i; l]))
           (seq 0 num_neighbors))
      zero.
Proof.
  intros Hs Ht i j k Hi Hj Hk.
  destruct (call_spec degree MemorySpace st Hs Ht) as (HA & _ & _).
  unfold read, tb. rewrite <- (as_tables HA).
  now apply (as_moment HA).
Qed.

(** C3.  The coefficient returned for neighbour [j] of target [i] is the sum
    over the basis indices [k], taken in order from [0], of
    [Ainv[i][0][k] * P[i][j][k] * weight[i][j]]: the row used is row 0, and the
    weight is a factor of every term.  [Ainv] is what the pseudo-inverse left
    in place of the moment matrix, [P] and [weight] are the tables the moment
    matrix was assembled from. *)
Theorem coefficient_is_row_zero_sum :
  preconditions MemorySpace space source_points target_points st = true ->
  source_points < allocated (mem st) -> target_points < allocated (mem st) ->
  movingLeastSquaresCoefficients degree MemorySpace space
                                 source_points target_points st
  = Done (coeffs_of st) fin /\
  views (mem fin) (p_of tb) = views (mem mid) (p_of tb) /\
  views (mem fin) (phi_of tb) = views (mem mid) (phi_of tb) /\
  forall i j, i < num_targets -> j < num_neighbors ->
    read (mem fin) (coeffs_of st) [i; j] =
    fold_left add
      (map (fun k => mul (mul (read (mem fin) (a_of tb) [i; 0; k])
                              (read (mem fin) (p_of tb) [i; j; k]))
                         (read (mem fin) (phi_of tb) [i; j]))
           (seq 0 poly_size))
      zero /\
    forall r k, r < poly_size -> k < poly_size ->
      read (mem fin) (a_of tb) [i; r; k] =
      pseudoInverse poly_size
        (fun r' k' => read (mem mid) (a_of tb) [i; r'; k']) r k.
Proof.
  intros Hpre Hs Ht.
  destruct (call_spec degree MemorySpace st Hs Ht) as (HA & HE & Hco).
  split; [|split; [|split]].
  - rewrite (call_returns degree _ _ _ _ _ Hpre). now rewrite Hco.
  - apply (kept_until_return Hs Ht); unfold tb, tables_of, coeffs_of; simpl; lia.
  - apply (kept_until_return Hs Ht); unfold tb, tables_of, coeffs_of; simpl; lia.
  - intros i j Hi Hj. unfold read, tb. rewrite <- (as_tables HA), <- Hco. split.
    + now apply (ex_values HE).
    + intros r k Hr Hk. now apply (ex_inverse HE).
Qed.

(** C10.  A call leaves every view that existed when it started as it was, the
    neighbourhood table and the target sequence among them: it writes to the
    tables it allocates only.  The table it returns is newly allocated, in
    the memory space asked for, with extents [num_targets] by
    [num_neighbors].  A call stopped by a check has changed nothing. *)
Theorem inputs_are_left_unchanged :
  source_points < allocated (mem st) -> target_points < allocated (mem st) ->
  match movingLeastSquaresCoefficients degree MemorySpace space
                                       source_points target_points st with
  | Done coeffs st' =>
      (forall h, h < allocated (mem st) -> views (mem st') h = views (mem st) h) /\
      views (mem st') source_points = views (mem st) source_points /\
      views (mem st') target_points = views (mem st) target_points /\
      allocated (mem st) <= coeffs < allocated (mem st') /\
      memory (views (mem st') coeffs) = MemorySpace /\
      extents (views (mem st') coeffs) = [num_targets; num_neighbors]
  | IllFormed _ _ => True
  | Aborted _ _ st' => st' = st
  end.
Proof.
  intros Hs Ht.
  destruct (preconditions MemorySpace space source_points target_points st) eqn:Hpre.
  - rewrite (call_returns degree _ _ _ _ _ Hpre).
    destruct (call_spec degree MemorySpace st Hs Ht) as (HA & HE & Hco).
    assert (Hframe : forall h, h < allocated (mem st) ->
              views (mem (snd (at_return degree MemorySpace source_points
                                         target_points st))) h
              = views (mem st) h).
    { intros h Hh. rewrite (ex_frame HE).
      - now apply (as_frame HA).
      - rewrite (as_tables HA). unfold tables_of. simpl. lia.
      - rewrite (ex_coeffs HE), (as_allocated HA). lia. }
    repeat split; auto.
    + rewrite (ex_coeffs HE), (as_allocated HA). lia.
    + rewrite (ex_allocated HE), (ex_coeffs HE). lia.
    + apply (ex_memory HE).
    + apply (ex_extents HE).
  - pose proof (call_stopped degree _ _ _ _ _ Hpre) as H.
    destruct (movingLeastSquaresCoefficients _ _ _ _ _ _); auto. contradiction.
Qed.


End Claims.

(** C5.  Where the multiplication of the scalar type is commutative, the
    moment matrix assembled for each target, as it stands when the call
    reaches the pseudo-inverse, equals its transpose entry for entry: both
    entries are the same left-to-right sum, term by term. *)
Theorem moment_is_symmetric
        {T : Type} {SC : Scalar T} {PF : Platform} {EV : Environment T}
        (mul_comm : forall x y : T, mul x y = mul y x)
        (degree : nat) (MemorySpace : memory_space)
        (source_points target_points : handle) (st : State T) :
  source_points < allocated (mem st) -> target_points < allocated (mem st) ->
  let r := at_pseudo_inverse degree MemorySpace source_points target_points st in
  forall i j k,
    i < call_num_targets target_points st ->
    j < call_poly_size degree source_points st ->
    k < call_poly_size degree source_points st ->
    read (mem (snd r)) (a_of (fst r)) [i; j; k]
    = read (mem (snd r)) (a_of (fst r)) [i; k; j].
Proof.
  intros Hs Ht r i j k Hi Hj Hk.
  destruct (call_spec degree MemorySpace st Hs Ht) as (HA & _ & _).
  fold r in HA. unfold read.
  rewrite (as_moment HA) by assumption.
  rewrite (as_moment HA) by assumption.
  unfold moment_formula, sum_upto. f_equal.
  apply map_ext. intros l. f_equal. apply mul_comm.
Qed.

(** ** The radius *)

Section RadiusAtReturn.

Context {T : Type} {SC : Scalar T} {PF : Platform} {EV : Environment T}.
Variables (degree : nat) (MemorySpace : memory_space) (space : execution_space).
Variables (source_points target_points : handle) (st : State T).

(** When the call returns, the radius of target [i] is 1.1 times the running
    maximum, started at epsilon, of the distances of its neighbours. *)
Lemma radius_at_return (i : nat) :
  source_points < allocated (mem st) -> target_points < allocated (mem st) ->
  i < call_num_targets target_points st ->
  let fin := snd (at_return degree MemorySpace source_points target_points st) in
  read (mem fin) (radii_of (tables_of st)) [i] =
  mul c1_1
      (max_floored epsilon
         (map (fun j =>
                 distance (load_point (call_dimension source_points st) (mem fin)
                                      (source_ref_target_of (tables_of st)) [i; j])
                          (origin (call_dimension source_points st)))
              (seq 0 (call_num_neighbors source_points st)))).
Proof.
  intros Hs Ht Hi fin.
  destruct (call_spec degree MemorySpace st Hs Ht) as (HA & HE & Hco).
  unfold read, load_point, fin.
  rewrite !(kept_until_return degree MemorySpace Hs Ht)
    by (unfold tables_of, coeffs_of; simpl; lia).
  rewrite <- (as_tables HA). now apply (as_radii HA).
Qed.

End RadiusAtReturn.

Section FlooredMaximum.

Context {T : Type} {SC : Scalar T}.
Hypothesis ltb_irrefl : forall x : T, ltb x x = false.
Hypothesis ltb_trans :
  forall x y z : T, ltb x y = true -> ltb y z = true -> ltb x z = true.

Lemma max_floored_not_below (x floor : T) (values : list T) :
  ltb floor x = false -> ltb (max_floored floor values) x = false.
Proof.
  unfold max_floored. revert floor.
  induction values as [|v vs IH]; intros floor H; simpl; [exact H|].
  apply IH. unfold kmax. destruct (ltb floor v) eqn:E; [|exact H].
  destruct (ltb v x) eqn:E'; [|reflexivity].
  rewrite (ltb_trans _ _ _ E E') in H. discriminate.
Qed.

Lemma max_floored_floor (floor : T) (values : list T) :
  ltb (max_floored floor values) floor = false.
Proof. apply max_floored_not_below, ltb_irrefl. Qed.

Lemma max_floored_upper_bound (floor : T) (values : list T) (d : T) :
  In d values -> ltb (max_floored floor values) d = false.
Proof.
  unfold max_floored. revert floor.
  induction values as [|v vs IH]; intros floor H; simpl in *; [contradiction|].
  destruct H as [->|H]; [|now apply IH].
  apply max_floored_not_below. unfold kmax.
  destruct (ltb floor d) eqn:E; [apply ltb_irrefl|exact E].
Qed.

Lemma max_floored_attained (floor : T) (values : list T) :
  max_floored floor values = floor \/ In (max_floored floor values) values.
Proof.
  unfold max_floored. revert floor.
  induction values as [|v vs IH]; intros floor; simpl; [now left|].
  destruct (IH (kmax floor v)) as [H|H]; [|now right; right].
  rewrite H. unfold kmax. destruct (ltb floor v); [right; now left|now left].
Qed.

Lemma max_floored_above (x floor : T) (values : list T) :
  ltb x floor = true -> ltb x (max_floored floor values) = true.
Proof.
  unfold max_floored. revert floor.
  induction values as [|v vs IH]; intros floor H; simpl; [exact H|].
  apply IH. unfold kmax. destruct (ltb floor v) eqn:E; [|exact H].
  exact (ltb_trans _ _ _ H E).
Qed.

End FlooredMaximum.

Section RadiusClaims.

Context {T : Type} {SC : Scalar T} {PF : Platform} {EV : Environment T}.
Hypothesis ltb_irrefl : forall x : T, ltb x x = false.
Hypothesis ltb_trans :
  forall x y z : T, ltb x y = true -> ltb y z = true -> ltb x z = true.
Hypothesis epsilon_positive : ltb zero epsilon = true.
Hypothesis scaling_keeps_positive :
  forall x : T, ltb zero x = true -> ltb zero (mul c1_1 x) = true.

Variables (degree : nat) (MemorySpace : memory_space) (space : execution_space).
Variables (source_points target_points : handle) (st : State T).

(** C2.  In a scalar type where [<] is irreflexive and transitive, epsilon is
    positive and 1.1 times a positive value is positive: the radius returned
    for target [i] is 1.1 times [M], where [M] is the running maximum, started
    at epsilon, of the distances to the origin of the neighbours of [i]; [M]
    is not below epsilon, not below any of these distances, and is epsilon or
    one of them; and the radius is positive, hence not zero. *)
Theorem radius_is_scaled_floored_maximum :
  preconditions MemorySpace space source_points target_points st = true ->
  source_points < allocated (mem st) -> target_points < allocated (mem st) ->
  let fin := snd (at_return degree MemorySpace source_points target_points st) in
  let tb := tables_of st in
  let dimension := call_dimension source_points st in
  movingLeastSquaresCoefficients degree MemorySpace space
                                 source_points target_points st
  = Done (coeffs_of st) fin /\
  forall i, i < call_num_targets target_points st ->
    let distances :=
      map (fun j => distance (load_point dimension (mem fin)
                                         (source_ref_target_of tb) [i; j])
                             (origin dimension))
          (seq 0 (call_num_neighbors source_points st)) in
    let M := max_floored epsilon distances in
    read (mem fin) (radii_of tb) [i] = mul c1_1 M /\
    ltb M epsilon = false /\
    (forall d, In d distances -> ltb M d = false) /\
    (M = epsilon \/ In M distances) /\
    ltb zero (read (mem fin) (radii_of tb) [i]) = true /\
    read (mem fin) (radii_of tb) [i] <> zero.
Proof.
  intros Hpre Hs Ht fin tb dimension. split.
  - destruct (call_spec degree MemorySpace st Hs Ht) as (_ & _ & Hco).
    rewrite (call_returns degree _ _ _ _ _ Hpre). now rewrite Hco.
  - intros i Hi distances M.
    pose proof (radius_at_return degree MemorySpace st Hs Ht Hi) as HR.
    cbv zeta in HR. fold fin tb dimension distances M in HR.
    assert (Hpos : ltb zero (read (mem fin) (radii_of tb) [i]) = true).
    { rewrite HR. apply scaling_keeps_positive.
      now apply max_floored_above. }
    repeat split.
    + exact HR.
    + now apply max_floored_floor.
    + intros d Hd. now apply max_floored_upper_bound.
    + apply max_floored_attained.
    + exact Hpos.
    + intros Hz. rewrite Hz, ltb_irrefl in Hpos. discriminate.
Qed.

End RadiusClaims.

Section NormalizedDistance.

Context {T : Type} {SC : Scalar T} {PF : Platform} {EV : Environment T}.
Hypothesis ltb_irrefl : forall x : T, ltb x x = false.
Hypothesis ltb_trans :
  forall x y z : T, ltb x y = true -> ltb y z = true -> ltb x z = true.
Hypothesis ltb_le_lt :
  forall x y z : T, ltb y x = false -> ltb y z = true -> ltb x z = true.
Hypothesis epsilon_positive : ltb zero epsilon = true.
Hypothesis scaling_grows :
  forall x : T, ltb zero x = true -> ltb x (mul c1_1 x) = true.
Hypothesis quotient_below_one :
  forall x y : T, ltb zero y = true -> ltb x y = true -> ltb (div x y) one = true.

Variables (degree : nat) (MemorySpace : memory_space) (space : execution_space).
Variables (source_points target_points : handle) (st : State T).

(** In exact arithmetic (a total order [<] on the scalars, epsilon
    positive, [x < 1.1 * x] for positive [x], and [x / y < 1] when [x < y] and
    [y] is positive): for every target [i] and neighbour [j], the distance of
    [relative[i][j]] to the origin divided by [radius[i]] is less than 1.
    Double precision does not satisfy these laws (an infinity is not below
    1.1 times itself, and the quotient of two infinities is NaN); what holds
    there is proved in [Binary64Quotient]. *)
Theorem normalized_distance_is_below_one :
  preconditions MemorySpace space source_points target_points st = true ->
  source_points < allocated (mem st) -> target_points < allocated (mem st) ->
  let fin := snd (at_return degree MemorySpace source_points target_points st) in
  let tb := tables_of st in
  let dimension := call_dimension source_points st in
  movingLeastSquaresCoefficients degree MemorySpace space
                                 source_points target_points st
  = Done (coeffs_of st) fin /\
  forall i j,
    i < call_num_targets target_points st ->
    j < call_num_neighbors source_points st ->
    ltb (div (distance (load_point dimension (mem fin)
                                   (source_ref_target_of tb) [i; j])
                       (origin dimension))
             (read (mem fin) (radii_of tb) [i]))
        one = true.
Proof.
  intros Hpre Hs Ht fin tb dimension. split.
  - destruct (call_spec degree MemorySpace st Hs Ht) as (_ & _ & Hco).
    rewrite (call_returns degree _ _ _ _ _ Hpre). now rewrite Hco.
  - intros i j Hi Hj.
    pose proof (radius_at_return degree MemorySpace st Hs Ht Hi) as HR.
    cbv zeta in HR. fold fin tb dimension in HR. rewrite HR.
    set (f := fun j => distance (load_point dimension (mem fin)
                                            (source_ref_target_of tb) [i; j])
                                (origin dimension)).
    set (M := max_floored epsilon _).
    assert (HM : ltb zero M = true)
      by (apply max_floored_above; assumption).
    assert (Hd : ltb M (f j) = false).
    { apply max_floored_upper_bound; try assumption.
      apply in_map. apply in_seq. lia. }
    apply quotient_below_one.
    + exact (ltb_trans _ _ _ HM (scaling_grows _ HM)).
    + exact (ltb_le_lt _ _ _ Hd (scaling_grows _ HM)).
Qed.

End NormalizedDistance.

(** * The claims on the two instances *)

(** ** Double precision *)

Module Binary64Facts.

Import Binary64.

(** *** Facts of binary64 arithmetic, from its specification *)

Lemma is_finite_Prim2SF (x : float) :
  is_finite x = true -> finite_SF (Prim2SF x) = true.
Proof.
  unfold is_finite, Prim2SF. intros H.
  apply negb_true_iff, orb_false_iff in H. destruct H as [Hn Hi].
  rewrite Hn, Hi. destruct (is_zero x); [reflexivity|].
  destruct (Z.frexp x) as [r e].
  destruct (shr_fexp prec emax _ _ _) as [s e'].
  destruct (shr_m s); reflexivity.
Qed.

Lemma Prim2SF_infinity : Prim2SF infinity = S754_infinity false.
Proof. reflexivity. Qed.

Lemma SFcompare_refl_finite (x : spec_float) :
  finite_SF x = true -> SFcompare x x = Some Eq.
Proof.
  destruct x as [s|s| |s m e]; try discriminate; intros _; simpl; [reflexivity|].
  rewrite Z.compare_refl.
  assert (Pos.compare_cont Eq m m = Eq) by (apply Pos.compare_cont_refl).
  rewrite H. destruct s; reflexivity.
Qed.

Lemma Prim2SF_is_finite (x : float) :
  finite_SF (Prim2SF x) = true -> is_finite x = true.
Proof.
  intros H. unfold is_finite, is_nan, is_infinity.
  rewrite !FloatAxioms.eqb_spec, abs_spec, Prim2SF_infinity. unfold SFeqb.
  rewrite (SFcompare_refl_finite _ H).
  destruct (Prim2SF x) as [s|s| |s m e]; try discriminate; reflexivity.
Qed.

Lemma Prim2SF_one : Prim2SF 1 = S754_finite false 4503599627370496 (-52).
Proof. reflexivity. Qed.

Lemma Prim2SF_zero : Prim2SF 0 = S754_zero false.
Proof. reflexivity. Qed.

Lemma iter_pos_iter {A : Type} (f : A -> A) (n : positive) (x : A) :
  SpecFloat.iter_pos f n x = Pos.iter f x n.
Proof.
  revert x. induction n as [n IH|n IH|]; intros x; simpl.
  - rewrite !IH. now rewrite !Pos.iter_swap.
  - now rewrite !IH.
  - reflexivity.
Qed.

Lemma digits2_iter_xO (p a : positive) :
  digits2_pos (Pos.iter xO p a) = (digits2_pos p + a)%positive.
Proof.
  induction a as [|a IH] using Pos.peano_ind.
  - simpl. now rewrite Pos.add_1_r.
  - rewrite Pos.iter_succ. simpl. rewrite IH. now rewrite Pos.add_succ_r.
Qed.

Lemma shr_iter_xO (q a : positive) :
  SpecFloat.iter_pos shr_1 a
    {| shr_m := Zpos (Pos.iter xO q a); shr_r := false; shr_s := false |}
  = {| shr_m := Zpos q; shr_r := false; shr_s := false |}.
Proof.
  rewrite iter_pos_iter.
  induction a as [|a IH] using Pos.peano_ind.
  - reflexivity.
  - rewrite Pos.iter_succ_r. rewrite Pos.iter_succ. simpl. exact IH.
Qed.

Lemma add_iter_xO (p q a : positive) :
  (Pos.iter xO p a + Pos.iter xO q a)%positive = Pos.iter xO (p + q)%positive a.
Proof.
  induction a as [|a IH] using Pos.peano_ind.
  - reflexivity.
  - rewrite !Pos.iter_succ. simpl. now rewrite IH.
Qed.

(** Rounding a mantissa that carries [a] spare zero bits is exact. *)
Lemma binary_round_aux_shift (sx : bool) (q a : positive) (e : Z) :
  fexp prec emax (Zpos (digits2_pos q) + (e + Zpos a)) = (e + Zpos a)%Z ->
  (e + Zpos a <= emax - prec)%Z ->
  binary_round_aux prec emax sx (Zpos (Pos.iter xO q a)) e loc_Exact
  = S754_finite sx q (e + Zpos a).
Proof.
  intros Hc Hb. unfold binary_round_aux, shr_fexp.
  cbn [Zdigits2 shr_record_of_loc]. rewrite digits2_iter_xO.
  replace (fexp prec emax (Zpos (digits2_pos q + a) + e) - e)%Z with (Zpos a)
    by (rewrite Pos2Z.inj_add;
        replace (Zpos (digits2_pos q) + Zpos a + e)%Z
          with (Zpos (digits2_pos q) + (e + Zpos a))%Z by lia;
        rewrite Hc; lia).
  cbn [shr]. rewrite shr_iter_xO. cbn [shr_m loc_of_shr_record round_nearest_even].
  cbn [Zdigits2 shr_record_of_loc]. rewrite Hc, Z.sub_diag. cbn [shr shr_m].
  apply Z.leb_le in Hb. now rewrite Hb.
Qed.

Lemma binary_round_aux_canonical (sx : bool) (q : positive) (e : Z) :
  fexp prec emax (Zpos (digits2_pos q) + e) = e ->
  (e <= emax - prec)%Z ->
  binary_round_aux prec emax sx (Zpos q) e loc_Exact = S754_finite sx q e.
Proof.
  intros Hc Hb. unfold binary_round_aux, shr_fexp.
  cbn [Zdigits2 shr_record_of_loc]. rewrite Hc, Z.sub_diag.
  cbn [shr shr_m loc_of_shr_record round_nearest_even Zdigits2 shr_record_of_loc].
  rewrite Hc, Z.sub_diag. cbn [shr shr_m].
  apply Z.leb_le in Hb. now rewrite Hb.
Qed.

Lemma mul_2p52 (m : positive) :
  (m * 4503599627370496)%positive = Pos.iter xO m 52%positive.
Proof. rewrite Pos.mul_comm. reflexivity. Qed.

(** Multiplying by one changes nothing. *)
Lemma mul_one_r (x : float) : (x * 1)%float = x.
Proof.
  apply Prim2SF_inj. rewrite mul_spec, Prim2SF_one.
  pose proof (Prim2SF_valid x) as Hv.
  destruct (Prim2SF x) as [s|s| |s m e]; unfold SF64mul, SFmul;
    try reflexivity; try (now rewrite xorb_false_r).
  rewrite xorb_false_r, mul_2p52.
  cbn [SpecFloat.valid_binary] in Hv. unfold bounded, canonical_mantissa in Hv.
  apply andb_prop in Hv. destruct Hv as [Hc Hb].
  apply Z.eqb_eq in Hc. apply Z.leb_le in Hb.
  rewrite (binary_round_aux_shift s m 52%positive (e + -52)).
  - f_equal. lia.
  - replace (e + -52 + 52)%Z with e by lia. exact Hc.
  - lia.
Qed.

Lemma digits2_succ_le (p : positive) :
  (Zpos (digits2_pos p) <= Zpos (digits2_pos (Pos.succ p)))%Z.
Proof.
  induction p as [p IH|p IH|]; simpl; lia.
Qed.

Lemma digits2_succ_ge_2 (p : positive) :
  (2 <= Zpos (digits2_pos (Pos.succ p)))%Z.
Proof. destruct p; simpl; rewrite ?Pos2Z.inj_succ; lia. Qed.

Lemma digits2_bound (p : positive) (k : nat) :
  (Zpos p < 2 ^ Z.of_nat k)%Z -> (Zpos (digits2_pos p) <= Z.of_nat k)%Z.
Proof.
  revert k. induction p as [p IH|p IH|]; intros k H.
  - destruct k as [|k]; [simpl in H; lia|].
    rewrite Nat2Z.inj_succ, Z.pow_succ_r in H by lia.
    simpl. rewrite Pos2Z.inj_succ. specialize (IH k). lia.
  - destruct k as [|k]; [simpl in H; lia|].
    rewrite Nat2Z.inj_succ, Z.pow_succ_r in H by lia.
    simpl. rewrite Pos2Z.inj_succ. specialize (IH k). lia.
  - destruct k as [|k]; [simpl in H; lia|]. simpl. lia.
Qed.

Lemma fexp_small (d : Z) : (-1021 <= d)%Z -> fexp prec emax d = (d - 53)%Z.
Proof. intros H. unfold fexp, SpecFloat.emin, prec, emax. lia. Qed.

Lemma shl_align_rep (p : positive) :
  (Zpos (digits2_pos p) <= 52)%Z ->
  fst (shl_align (Pos.iter xO p (Z.to_pos (53 - Zpos (digits2_pos p))))
                 (Zpos (digits2_pos p) - 53) (-52))
  = Pos.iter xO p 52%positive.
Proof.
  intros Hd. unfold shl_align.
  destruct (-52 - (Zpos (digits2_pos p) - 53))%Z as [|q|q] eqn:E.
  - cbn [fst]. f_equal. lia.
  - lia.
  - cbn [fst]. rewrite <- Pos.iter_add. f_equal. lia.
Qed.

Lemma SFadd_rep_one (p : positive) :
  (Zpos (digits2_pos (Pos.succ p)) <= 52)%Z ->
  SFadd prec emax (rep p) (S754_finite false 4503599627370496 (-52))
  = rep (Pos.succ p).
Proof.
  intros Hd'. pose proof (digits2_succ_le p) as Hle.
  pose proof (digits2_succ_ge_2 p) as Hge.
  unfold rep at 1. unfold SFadd.
  rewrite Z.min_r by lia.
  rewrite shl_align_rep by lia.
  change (fst (shl_align 4503599627370496 (-52) (-52)))
    with (Pos.iter xO 1%positive 52%positive).
  cbn [cond_Zopp]. rewrite <- Pos2Z.inj_add, add_iter_xO, Pos.add_1_r.
  cbn [binary_normalize]. unfold binary_round.
  rewrite digits2_iter_xO, Pos2Z.inj_add.
  replace (Zpos (digits2_pos (Pos.succ p)) + 52 + -52)%Z
    with (Zpos (digits2_pos (Pos.succ p))) by lia.
  rewrite fexp_small by lia.
  assert (Hsh : shl_align (Pos.iter xO (Pos.succ p) 52%positive) (-52)
                          (Zpos (digits2_pos (Pos.succ p)) - 53)
                = (Pos.iter xO (Pos.succ p) 52%positive, (-52)%Z)).
  { unfold shl_align.
    destruct (Zpos (digits2_pos (Pos.succ p)) - 53 - -52)%Z eqn:E;
      try reflexivity. lia. }
  rewrite Hsh.
  set (d' := digits2_pos (Pos.succ p)) in *.
  set (s' := Z.to_pos (53 - Zpos d')).
  set (a := Z.to_pos (Zpos d' - 1)).
  replace (Pos.iter xO (Pos.succ p) 52%positive)
    with (Pos.iter xO (Pos.iter xO (Pos.succ p) s') a)
    by (rewrite <- Pos.iter_add; f_equal; unfold a, s'; lia).
  rewrite binary_round_aux_shift.
  - unfold rep. fold d'. fold s'. f_equal. unfold a. lia.
  - rewrite digits2_iter_xO, Pos2Z.inj_add. fold d'.
    replace (Zpos d' + Zpos s' + (-52 + Zpos a))%Z with (Zpos d')
      by (unfold a, s'; lia).
    rewrite fexp_small by lia. unfold a. lia.
  - unfold a, prec, emax. lia.
Qed.

Lemma zero_SF_finite (x : spec_float) : zero_SF x = true -> finite_SF x = true.
Proof. destruct x; simpl; congruence. Qed.

Lemma mul_finite_zero (x : float) :
  finite_SF (Prim2SF x) = true -> zero_SF (Prim2SF (x * 0)) = true.
Proof.
  rewrite mul_spec, Prim2SF_zero.
  destruct (Prim2SF x); simpl; congruence.
Qed.

Lemma add_finite_zero (y z : float) :
  finite_SF (Prim2SF y) = true -> zero_SF (Prim2SF z) = true ->
  finite_SF (Prim2SF (y + z)) = true.
Proof.
  rewrite add_spec.
  destruct (Prim2SF y) as [sy|sy| |sy my ey], (Prim2SF z) as [sz|sz| |sz mz ez];
    simpl; try congruence.
  destruct sy, sz; reflexivity.
Qed.

Lemma add_zero_finite (x : float) :
  finite_SF (Prim2SF x) = true -> finite_SF (Prim2SF (0 + x)) = true.
Proof.
  rewrite add_spec, Prim2SF_zero.
  destruct (Prim2SF x) as [s|s| |s m e]; simpl; try congruence.
  destruct s; reflexivity.
Qed.

(** A difference of a finite number with itself is zero. *)
Lemma sub_diag (x : float) : is_finite x = true -> (x - x)%float = 0%float.
Proof.
  intros H. apply is_finite_Prim2SF in H.
  apply Prim2SF_inj. rewrite sub_spec, Prim2SF_zero.
  destruct (Prim2SF x) as [s|s| |s m e]; try discriminate.
  - destruct s; reflexivity.
  - unfold SF64sub, SFsub. rewrite Z.min_id, Z.sub_diag. reflexivity.
Qed.

Lemma ones_S (n : nat) : ones (S n) = (ones n + 1)%float.
Proof.
  unfold ones. cbn [repeat]. rewrite repeat_cons, fold_left_app. reflexivity.
Qed.

Lemma Prim2SF_ones (n : nat) :
  (Z.of_nat (S n) < 2 ^ 52)%Z ->
  Prim2SF (ones (S n)) = rep (Pos.of_succ_nat n).
Proof.
  induction n as [|n IH]; intros Hn.
  - reflexivity.
  - rewrite ones_S, add_spec, IH, Prim2SF_one by lia.
    unfold SF64add. cbn [Pos.of_succ_nat].
    apply SFadd_rep_one.
    change 52%Z with (Z.of_nat 52). apply digits2_bound.
    change (2 ^ Z.of_nat 52)%Z with 4503599627370496%Z.
    change (2 ^ 52)%Z with 4503599627370496%Z in Hn.
    rewrite Pos2Z.inj_succ, Zpos_P_of_succ_nat. lia.
Qed.

Lemma ones_finite (n : nat) :
  (Z.of_nat n < 2 ^ 52)%Z -> is_finite (ones n) = true.
Proof.
  intros Hn. apply Prim2SF_is_finite. destruct n as [|n]; [reflexivity|].
  rewrite Prim2SF_ones by lia. reflexivity.
Qed.

Lemma zeros_sum (n : nat) : fold_left PrimFloat.add (repeat 0%float n) 0%float = 0%float.
Proof.
  induction n as [|n IH]; [reflexivity|].
  cbn [repeat]. rewrite repeat_cons, fold_left_app, IH. reflexivity.
Qed.

Lemma map_seq_const {A : Type} (f : nat -> A) (c : A) (n start : nat) :
  (forall k, start <= k < start + n -> f k = c) ->
  map f (seq start n) = repeat c n.
Proof.
  revert start. induction n as [|n IH]; intros start H; [reflexivity|].
  simpl. rewrite H by lia. f_equal. apply IH. intros k Hk. apply H. lia.
Qed.

(** The running maximum of distances that are all zero stays at epsilon. *)
Lemma max_floored_zeros (n : nat) :
  @max_floored float scalar (@epsilon float scalar) (repeat 0%float n)
  = @epsilon float scalar.
Proof.
  unfold max_floored. induction n as [|n IH]; [reflexivity|].
  cbn [repeat fold_left]. exact IH.
Qed.

(** A finite accumulator stays finite when zeros are added to it. *)
Lemma sum_with_zeros (terms : list float) (acc : float) :
  finite_SF (Prim2SF acc) = true ->
  (forall z, In z terms -> zero_SF (Prim2SF z) = true) ->
  finite_SF (Prim2SF (fold_left PrimFloat.add terms acc)) = true.
Proof.
  revert acc. induction terms as [|z terms IH]; intros acc Hacc Hz; [exact Hacc|].
  simpl. apply IH.
  - apply add_finite_zero; [exact Hacc|]. apply Hz. now left.
  - intros z' Hz'. apply Hz. now right.
Qed.

(** *** Degenerate collapse *)

Section DegenerateCollapse.

Context {PF : Platform} {EV : Environment float}.
Local Existing Instance scalar.

Variables (degree : nat) (MemorySpace : memory_space) (space : execution_space).
Variables (source_points target_points : handle) (st : State float).
Variable (i : nat).

Let dimension := call_dimension source_points st.
Let num_targets := call_num_targets target_points st.
Let num_neighbors := call_num_neighbors source_points st.
Let poly_size := call_poly_size degree source_points st.
Let tb := tables_of st.
Let mid := snd (at_pseudo_inverse degree MemorySpace source_points target_points st).
Let fin := snd (at_return degree MemorySpace source_points target_points st).

(** What the specification and the comments of the function say of the
    collaborators: the origin is at distance zero of itself, the kernel is 1 at
    0, and the basis at the origin is [1, 0, ..., 0]. *)
Hypothesis distance_at_origin :
  distance (origin dimension) (origin dimension) = 0%float.
Hypothesis kernel_at_zero : CRBF_evaluate 0%float = 1%float.
Hypothesis basis_at_origin :
  forall k, k < poly_size ->
    evaluatePolynomialBasis degree (origin dimension) k
    = if k =? 0 then 1%float else 0%float.

(** C9.  In double precision: when every neighbour of target [i] has the
    coordinates of the target, these being finite, and the number of
    neighbours fits in an [int], the relative coordinates of the target are
    zero, the running maximum of the distances stays at the machine epsilon so
    that the radius is 1.1 times epsilon, the weights are 1, the Vandermonde
    rows are [1, 0, ..., 0], and relative coordinates, radius, weights,
    Vandermonde entries and moment entries are finite; the coefficients are
    finite as soon as the pseudo-inverse, whose code is elsewhere, returns
    finite entries for that moment matrix. *)
Theorem degenerate_collapse_stays_finite :
  preconditions MemorySpace space source_points target_points st = true ->
  source_points < allocated (mem st) -> target_points < allocated (mem st) ->
  i < num_targets ->
  (Z.of_nat num_neighbors < 2 ^ 31)%Z ->
  (forall j d, j < num_neighbors -> d < dimension ->
     read (mem st) source_points [i; j; d] = read (mem st) target_points [i; d] /\
     is_finite (read (mem st) target_points [i; d]) = true) ->
  (forall r k, r < poly_size -> k < poly_size ->
     is_finite (pseudoInverse poly_size
                  (fun r' k' => read (mem mid) (a_of tb) [i; r'; k']) r k) = true) ->
  movingLeastSquaresCoefficients degree MemorySpace space
                                 source_points target_points st
  = Done (coeffs_of st) fin /\
  (forall j d, j < num_neighbors -> d < dimension ->
     read (mem fin) (source_ref_target_of tb) [i; j; d] = 0%float) /\
  max_floored epsilon
    (map (fun j => distance (load_point dimension (mem fin)
                                        (source_ref_target_of tb) [i; j])
                            (origin dimension))
         (seq 0 num_neighbors)) = epsilon /\
  read (mem fin) (radii_of tb) [i] = mul c1_1 epsilon /\
  is_finite (read (mem fin) (radii_of tb) [i]) = true /\
  (forall j, j < num_neighbors -> read (mem fin) (phi_of tb) [i; j] = 1%float) /\
  (forall j k, j < num_neighbors -> k < poly_size ->
     read (mem fin) (p_of tb) [i; j; k] = if k =? 0 then 1%float else 0%float) /\
  (forall r k, r < poly_size -> k < poly_size ->
     is_finite (read (mem mid) (a_of tb) [i; r; k]) = true) /\
  (forall j, j < num_neighbors ->
     is_finite (read (mem fin) (coeffs_of st) [i; j]) = true).
Proof.
  intros Hpre Hs Ht Hi Hnn Hsame Hpinv.
  destruct (call_spec degree MemorySpace st Hs Ht) as (HA & HE & Hco).
  fold dimension num_targets num_neighbors poly_size in HA, HE.
  fold mid fin in HA, HE, Hco.
  assert (Htb : fst (at_pseudo_inverse degree MemorySpace source_points
                                       target_points st) = tb)
    by (apply (as_tables HA)).
  rewrite Htb in HA, HE.
  assert (Kv : forall h, h <> a_of tb -> h <> coeffs_of st ->
                         views (mem fin) h = views (mem mid) h).
  { intros h H1 H2. apply (ex_frame HE); [exact H1|]. now rewrite Hco. }
  assert (Ksrt : views (mem fin) (source_ref_target_of tb)
                 = views (mem mid) (source_ref_target_of tb))
    by (apply Kv; unfold tb, tables_of, coeffs_of; simpl; lia).
  assert (Krad : views (mem fin) (radii_of tb) = views (mem mid) (radii_of tb))
    by (apply Kv; unfold tb, tables_of, coeffs_of; simpl; lia).
  assert (Kphi : views (mem fin) (phi_of tb) = views (mem mid) (phi_of tb))
    by (apply Kv; unfold tb, tables_of, coeffs_of; simpl; lia).
  assert (Kp : views (mem fin) (p_of tb) = views (mem mid) (p_of tb))
    by (apply Kv; unfold tb, tables_of, coeffs_of; simpl; lia).
  (* relative coordinates *)
  assert (Hrel : forall j d, j < num_neighbors -> d < dimension ->
             elem (views (mem mid) (source_ref_target_of tb)) [i; j; d] = 0%float).
  { intros j d Hj Hd. rewrite (as_relative HA) by assumption.
    destruct (Hsame j d Hj Hd) as [E F]. unfold read in E, F. rewrite E.
    now apply sub_diag. }
  assert (Hpt : forall j, j < num_neighbors ->
             point_of dimension (views (mem mid) (source_ref_target_of tb)) [i; j]
             = origin dimension).
  { intros j Hj. unfold point_of, origin. apply map_seq_const.
    intros k Hk. apply Hrel; [exact Hj|lia]. }
  assert (Hnorms : norms dimension num_neighbors
                     (views (mem mid) (source_ref_target_of tb)) i
                   = repeat 0%float num_neighbors).
  { unfold norms. apply map_seq_const. intros j Hj.
    rewrite Hpt by lia. exact distance_at_origin. }
  assert (Hrad : elem (views (mem mid) (radii_of tb)) [i] = mul c1_1 epsilon).
  { rewrite (as_radii HA) by assumption. unfold radius_formula.
    now rewrite Hnorms, max_floored_zeros. }
  assert (Hphi : forall j, j < num_neighbors ->
             elem (views (mem mid) (phi_of tb)) [i; j] = 1%float).
  { intros j Hj. rewrite (as_phi HA) by assumption.
    unfold normalized_distance. rewrite Hpt, Hrad, distance_at_origin by assumption.
    exact kernel_at_zero. }
  assert (Hp : forall j k, j < num_neighbors -> k < poly_size ->
             elem (views (mem mid) (p_of tb)) [i; j; k]
             = if k =? 0 then 1%float else 0%float).
  { intros j k Hj Hk. rewrite (as_vandermonde HA) by assumption.
    rewrite Hpt by assumption. now apply basis_at_origin. }
  assert (Hmom : forall r k, r < poly_size -> k < poly_size ->
             is_finite (elem (views (mem mid) (a_of tb)) [i; r; k]) = true).
  { intros r k Hr Hk. rewrite (as_moment HA) by assumption.
    unfold moment_formula, sum_upto, table3_of, table2_of.
    rewrite map_seq_const
      with (c := PrimFloat.mul
                   (PrimFloat.mul (if r =? 0 then 1%float else 0%float)
                                  (if k =? 0 then 1%float else 0%float))
                   1%float).
    - destruct (r =? 0), (k =? 0);
        [ apply ones_finite;
          change (2 ^ 31)%Z with 2147483648%Z in Hnn;
          change (2 ^ 52)%Z with 4503599627370496%Z; lia
        | change (PrimFloat.mul (PrimFloat.mul 1 0) 1) with 0%float;
          change (@zero float scalar) with 0%float;
          change (@add float scalar) with PrimFloat.add;
          rewrite zeros_sum; reflexivity .. ].
    - intros l Hl. rewrite !Hp, Hphi by lia. reflexivity. }
  split; [|split; [|split; [|split; [|split; [|split; [|split; [|split]]]]]]].
  - rewrite (call_returns degree _ _ _ _ _ Hpre). now rewrite Hco.
  - intros j d Hj Hd. unfold read. rewrite Ksrt. now apply Hrel.
  - unfold load_point. rewrite Ksrt.
    change (map _ (seq 0 num_neighbors))
      with (norms dimension num_neighbors
                  (views (mem mid) (source_ref_target_of tb)) i).
    rewrite Hnorms. apply max_floored_zeros.
  - unfold read. rewrite Krad. exact Hrad.
  - unfold read. rewrite Krad, Hrad. reflexivity.
  - intros j Hj. unfold read. rewrite Kphi. now apply Hphi.
  - intros j k Hj Hk. unfold read. rewrite Kp. now apply Hp.
  - exact Hmom.
  - intros j Hj. unfold read. rewrite <- Hco.
    rewrite (ex_values HE) by assumption.
    unfold coefficient_formula, sum_upto, table3_of, table2_of.
    rewrite Kp, Kphi. apply Prim2SF_is_finite.
    destruct poly_size as [|ps'] eqn:Eps; [reflexivity|].
    cbn [seq map fold_left].
    apply sum_with_zeros.
    + rewrite Hp, Hphi by lia. cbn [Nat.eqb].
      change (@mul float scalar) with PrimFloat.mul.
      rewrite !mul_one_r. apply add_zero_finite, is_finite_Prim2SF.
      rewrite (ex_inverse HE) by lia. apply Hpinv; lia.
    + intros z Hz. apply in_map_iff in Hz. destruct Hz as (k & <- & Hk).
      apply in_seq in Hk. rewrite Hp, Hphi by lia.
      destruct k as [|k]; [lia|]. cbn [Nat.eqb].
      change (@mul float scalar) with PrimFloat.mul.
      rewrite mul_one_r. apply mul_finite_zero, is_finite_Prim2SF.
      rewrite (ex_inverse HE) by lia. apply Hpinv; lia.
Qed.

End DegenerateCollapse.

(** The multiplication of binary64 is commutative. *)
Lemma mul_comm (x y : float) : PrimFloat.mul x y = PrimFloat.mul y x.
Proof.
  apply Prim2SF_inj. rewrite !mul_spec.
  destruct (Prim2SF x) as [sx|sx| |sx mx ex], (Prim2SF y) as [sy|sy| |sy my ey];
    unfold SF64mul, SFmul; try reflexivity; try (now rewrite xorb_comm).
  now rewrite xorb_comm, Pos.mul_comm, Z.add_comm.
Qed.

(** Scenario A of the specification, degree 1: both coefficients are one
    half, so their sum is 1 and their difference 0. *)
Example scenario_A_coefficients :
  match run 1 scenario_A with
  | Done c st' => [read (mem st') c [0; 0]; read (mem st') c [0; 1]]
  | _ => []
  end = [0.5%float; 0.5%float].
Proof. vm_compute. reflexivity. Qed.

(** The same call with degree 0. *)
Example scenario_A_degree_0 :
  match run 0 scenario_A with
  | Done c st' => [read (mem st') c [0; 0]; read (mem st') c [0; 1]]
  | _ => []
  end = [0.5%float; 0.5%float].
Proof. vm_compute. reflexivity. Qed.

(** On scenario A the radius is 1.1 and both neighbours sit at normalized
    distance [1 / 1.1]. *)
Example scenario_A_radius :
  match run 1 scenario_A with
  | Done c st' =>
      (read (mem st') 3 [0],
       map (fun j => PrimFloat.div
                       (@distance float environment
                          (load_point 1 (mem st') 2 [0; j]) [0%float])
                       (read (mem st') 3 [0]))
           [0; 1])
  | _ => (0%float, [])
  end = (0x1.199999999999ap+0%float,
         [0x1.d1745d1745d17p-1%float; 0x1.d1745d1745d17p-1%float]).
Proof. vm_compute. reflexivity. Qed.

(** Two neighbours on the target: the radius is 1.1 times epsilon, the
    weights are 1 and the coefficients one half. *)
Example collapsed_values :
  match run 1 collapsed with
  | Done c st' =>
      (read (mem st') 3 [0],
       [read (mem st') 4 [0; 0]; read (mem st') 4 [0; 1]],
       [read (mem st') c [0; 0]; read (mem st') c [0; 1]])
  | _ => (0%float, [], [])
  end = (0x1.199999999999ap-52%float, [1%float; 1%float], [0.5%float; 0.5%float]).
Proof. vm_compute. reflexivity. Qed.

Local Existing Instances scalar environment sample_platform.

Local Abbreviation mid := (snd (at_pseudo_inverse 1 Host 0 1 scenario_A)).
Local Abbreviation fin := (snd (at_return 1 Host 0 1 scenario_A)).

Lemma weight_witness :
  read (mem fin) 4 [0; 1] =
  CRBF_evaluate
    (div (distance (load_point 1 (mem fin) 2 [0; 1]) (origin 1))
         (read (mem fin) 3 [0])).
Proof.
  destruct (@weight_is_kernel_of_normalized_distance
              float scalar sample_platform environment 1 Host Host 0 1
              scenario_A ltac:(vm_compute; reflexivity)
              ltac:(vm_compute; lia) ltac:(vm_compute; lia)) as [_ H].
  exact (proj2 (H 0 1 ltac:(vm_compute; lia) ltac:(vm_compute; lia))).
Defined.

Lemma moment_witness :
  read (mem mid) 6 [0; 0; 1] =
  fold_left add
    (map (fun l => mul (mul (read (mem mid) 5 [0; l; 0])
                            (read (mem mid) 5 [0; l; 1]))
                       (read (mem mid) 4 [0; l]))
         (seq 0 2))
    zero.
Proof.
  exact (@moment_is_weighted_sum
           float scalar sample_platform environment 1 Host 0 1 scenario_A
           ltac:(vm_compute; lia) ltac:(vm_compute; lia)
           0 0 1 ltac:(vm_compute; lia) ltac:(vm_compute; lia)
           ltac:(vm_compute; lia)).
Defined.

Lemma symmetry_witness :
  read (mem mid) 6 [0; 0; 1] = read (mem mid) 6 [0; 1; 0].
Proof.
  exact (@moment_is_symmetric
           float scalar sample_platform environment mul_comm 1 Host 0 1
           scenario_A ltac:(vm_compute; lia) ltac:(vm_compute; lia)
           0 0 1 ltac:(vm_compute; lia) ltac:(vm_compute; lia)
           ltac:(vm_compute; lia)).
Defined.

Lemma coefficient_witness :
  read (mem fin) 7 [0; 1] =
  fold_left add
    (map (fun k => mul (mul (read (mem fin) 6 [0; 0; k])
                            (read (mem fin) 5 [0; 1; k]))
                       (read (mem fin) 4 [0; 1]))
         (seq 0 2))
    zero.
Proof.
  destruct (@coefficient_is_row_zero_sum
              float scalar sample_platform environment 1 Host Host 0 1
              scenario_A ltac:(vm_compute; reflexivity)
              ltac:(vm_compute; lia) ltac:(vm_compute; lia)) as (_ & _ & _ & H).
  exact (proj1 (H 0 1 ltac:(vm_compute; lia) ltac:(vm_compute; lia))).
Defined.

Lemma frame_witness :
  match run 1 scenario_A with
  | Done coeffs st' =>
      (forall h, h < 2 -> views (mem st') h = views (mem scenario_A) h) /\
      views (mem st') 0 = views (mem scenario_A) 0 /\
      views (mem st') 1 = views (mem scenario_A) 1 /\
      2 <= coeffs < allocated (mem st') /\
      memory (views (mem st') coeffs) = Host /\
      extents (views (mem st') coeffs) = [1; 2]
  | IllFormed _ _ => True
  | Aborted _ _ st' => st' = scenario_A
  end.
Proof.
  exact (@inputs_are_left_unchanged
           float scalar sample_platform environment 1 Host Host 0 1 scenario_A
           ltac:(vm_compute; lia) ltac:(vm_compute; lia)).
Defined.

Lemma collapse_witness :
  is_finite (read (mem (snd (at_return 1 Host 0 1 collapsed)))
                  (coeffs_of collapsed) [0; 1]) = true.
Proof.
  refine (proj2 (proj2 (proj2 (proj2 (proj2 (proj2 (proj2 (proj2
            (@degenerate_collapse_stays_finite
               sample_platform environment 1 Host Host 0 1 collapsed 0
               _ _ _ _ _ _ _ _ _ _)))))))) 1 _).
  - vm_compute. reflexivity.
  - vm_compute. reflexivity.
  - intros k Hk. vm_compute in Hk.
    destruct k as [|[|k]]; [reflexivity|reflexivity|lia].
  - vm_compute. reflexivity.
  - vm_compute. lia.
  - vm_compute. lia.
  - vm_compute. lia.
  - vm_compute. reflexivity.
  - intros j d Hj Hd. vm_compute in Hj, Hd.
    destruct j as [|[|j]], d as [|d]; try lia; split; vm_compute; reflexivity.
  - intros r k Hr Hk. vm_compute in Hr, Hk.
    destruct r as [|[|r]], k as [|[|k]]; try lia; vm_compute; reflexivity.
  - vm_compute. lia.
Defined.


End Binary64Facts.

(** ** Exact arithmetic *)

Module ExactFacts.

Import Exact.

Local Existing Instances scalar environment sample_platform.

Local Abbreviation fin := (snd (at_return 1 Host 0 1 scenario_A)).

Lemma Rltb_true (x y : R) : Rltb x y = true <-> (x < y)%R.
Proof. unfold Rltb. destruct (Rlt_dec x y); split; intros; try discriminate; tauto. Qed.

Lemma Rltb_false (x y : R) : Rltb x y = false <-> (y <= x)%R.
Proof.
  unfold Rltb. destruct (Rlt_dec x y); split; intros; try discriminate;
    try reflexivity; lra.
Qed.

(** The laws of the ordered field of the reals that the claims on the radius
    rest on. *)
Lemma ltb_irrefl (x : R) : ltb x x = false.
Proof. apply Rltb_false. lra. Qed.

Lemma ltb_trans (x y z : R) : ltb x y = true -> ltb y z = true -> ltb x z = true.
Proof. simpl. rewrite !Rltb_true. lra. Qed.

Lemma ltb_le_lt (x y z : R) : ltb y x = false -> ltb y z = true -> ltb x z = true.
Proof. simpl. rewrite Rltb_false, !Rltb_true. lra. Qed.

Lemma epsilon_positive : ltb zero epsilon = true.
Proof. simpl. apply Rltb_true. apply Rinv_0_lt_compat. lra. Qed.

Lemma scaling_keeps_positive (x : R) :
  ltb zero x = true -> ltb zero (mul c1_1 x) = true.
Proof. simpl. rewrite !Rltb_true. lra. Qed.

Lemma scaling_grows (x : R) : ltb zero x = true -> ltb x (mul c1_1 x) = true.
Proof. simpl. rewrite !Rltb_true. lra. Qed.

Lemma quotient_below_one (x y : R) :
  ltb zero y = true -> ltb x y = true -> ltb (div x y) one = true.
Proof.
  simpl. rewrite !Rltb_true. intros Hy Hxy.
  apply (Rmult_lt_reg_r y); [exact Hy|].
  unfold Rdiv. rewrite Rmult_assoc, Rinv_l by lra. lra.
Qed.

(** *** Finite sums of reals *)

Lemma sum_upto_S (n : nat) (f : nat -> R) :
  sum_upto (Datatypes.S n) f = (sum_upto n f + f n)%R.
Proof.
  unfold sum_upto. rewrite seq_S, map_app, fold_left_app. reflexivity.
Qed.

Lemma sum_upto_ext (n : nat) (f g : nat -> R) :
  (forall k, k < n -> f k = g k) -> sum_upto n f = sum_upto n g.
Proof.
  intros H. induction n as [|n IH]; [reflexivity|].
  rewrite !sum_upto_S, IH, H by (intros; try apply H; lia). reflexivity.
Qed.

Lemma sum_upto_scal (n : nat) (a : R) (f : nat -> R) :
  sum_upto n (fun k => a * f k)%R = (a * sum_upto n f)%R.
Proof.
  induction n as [|n IH]; [unfold sum_upto; simpl; lra|].
  rewrite !sum_upto_S, IH. lra.
Qed.

Lemma sum_upto_scal_r (n : nat) (a : R) (f : nat -> R) :
  sum_upto n (fun k => f k * a)%R = (sum_upto n f * a)%R.
Proof.
  induction n as [|n IH]; [unfold sum_upto; simpl; lra|].
  rewrite !sum_upto_S, IH. lra.
Qed.

Lemma sum_upto_plus (n : nat) (f g : nat -> R) :
  sum_upto n (fun k => f k + g k)%R = (sum_upto n f + sum_upto n g)%R.
Proof.
  induction n as [|n IH]; [unfold sum_upto; simpl; lra|].
  rewrite !sum_upto_S, IH. lra.
Qed.

Lemma sum_upto_zero (n : nat) : sum_upto n (fun _ => 0%R) = 0%R.
Proof.
  induction n as [|n IH]; [reflexivity|]. rewrite sum_upto_S, IH. lra.
Qed.

Lemma sum_upto_exchange (n m : nat) (f : nat -> nat -> R) :
  sum_upto n (fun j => sum_upto m (fun k => f j k))
  = sum_upto m (fun k => sum_upto n (fun j => f j k)).
Proof.
  induction n as [|n IH].
  - unfold sum_upto at 1. simpl. symmetry. apply sum_upto_zero.
  - rewrite sum_upto_S, IH, <- sum_upto_plus.
    apply sum_upto_ext. intros k _. now rewrite sum_upto_S.
Qed.

Lemma sum_upto_delta (n : nat) (c : nat -> R) :
  0 < n ->
  sum_upto n (fun m => c m * (if (m =? 0)%nat then 1 else 0))%R = c 0%nat.
Proof.
  intros Hn. destruct n as [|n]; [lia|]. clear Hn.
  induction n as [|n IH].
  - unfold sum_upto. simpl. lra.
  - rewrite sum_upto_S, IH. simpl. lra.
Qed.

(** In exact arithmetic the weight can be taken out of the sum that makes a
    coefficient. *)
Lemma coefficient_factored (poly_size : nat)
      (Ainv P : nat -> nat -> nat -> R) (weight : nat -> nat -> R) (i j : nat) :
  coefficient_formula poly_size Ainv P weight i j
  = (sum_upto poly_size (fun k => Ainv i 0%nat k * P i j k) * weight i j)%R.
Proof.
  unfold coefficient_formula. simpl.
  now rewrite (sum_upto_scal_r poly_size (weight i j)
                               (fun k => Ainv i 0%nat k * P i j k)%R).
Qed.

(** The algebra behind polynomial reproduction, in exact arithmetic: when row
    0 of [Ainv] times the moment matrix is the first unit vector, as it is when
    [Ainv] inverts the moment matrix, the coefficients applied to the values
    at the neighbours of a combination of the basis functions return the
    weight [c 0] of the constant term. *)
Lemma reproduction_in_exact_arithmetic
      (num_neighbors poly_size : nat)
      (Ainv P : nat -> nat -> nat -> R) (weight : nat -> nat -> R)
      (c : nat -> R) (i : nat) :
  0 < poly_size ->
  (forall m, m < poly_size ->
     sum_upto poly_size
       (fun k => Ainv i 0%nat k * moment_formula num_neighbors P weight i k m)%R
     = if (m =? 0)%nat then 1%R else 0%R) ->
  sum_upto num_neighbors
    (fun j => coefficient_formula poly_size Ainv P weight i j
              * sum_upto poly_size (fun m => c m * P i j m))%R
  = c 0%nat.
Proof.
  intros Hps Hinv.
  set (term := fun j m k =>
         (c m * (Ainv i 0%nat k * (P i j k * P i j m * weight i j)))%R).
  transitivity
    (sum_upto num_neighbors
       (fun j => sum_upto poly_size (fun m => sum_upto poly_size (term j m)))).
  { apply sum_upto_ext. intros j _.
    rewrite coefficient_factored, <- sum_upto_scal.
    apply sum_upto_ext. intros m _.
    rewrite <- (sum_upto_scal_r poly_size (weight i j)).
    rewrite <- sum_upto_scal_r.
    apply sum_upto_ext. intros k _. unfold term. simpl. ring. }
  rewrite sum_upto_exchange.
  rewrite <- (sum_upto_delta c Hps).
  apply sum_upto_ext. intros m Hm.
  rewrite <- (Hinv m Hm), <- sum_upto_scal.
  rewrite sum_upto_exchange.
  apply sum_upto_ext. intros k _.
  unfold moment_formula. rewrite <- !sum_upto_scal.
  apply sum_upto_ext. intros j _. unfold term. simpl. ring.
Qed.

Section ExactReproduction.

Context {PF : Platform} {EV : Environment R}.

Variables (degree : nat) (MemorySpace : memory_space) (space : execution_space).
Variables (source_points target_points : handle) (st : State R) (i : nat).

(** The same on the tables of a call run in exact arithmetic: if the
    pseudo-inverse returns, for target [i], a matrix whose row 0 times the
    moment matrix is the first unit vector, then the coefficients of target
    [i] reproduce every combination of the basis functions at the relative
    positions of its neighbours. *)
Lemma reproduction_at_return (c : nat -> R) :
  let mid := snd (at_pseudo_inverse degree MemorySpace source_points
                                    target_points st) in
  let last := snd (at_return degree MemorySpace source_points target_points st) in
  let tb := tables_of st in
  let poly_size := call_poly_size degree source_points st in
  source_points < allocated (mem st) -> target_points < allocated (mem st) ->
  i < call_num_targets target_points st ->
  0 < poly_size ->
  (forall m, m < poly_size ->
     sum_upto poly_size
       (fun k => pseudoInverse poly_size
                   (fun r' k' => read (mem mid) (a_of tb) [i; r'; k']) 0 k
                 * read (mem mid) (a_of tb) [i; k; m])%R
     = if (m =? 0)%nat then 1%R else 0%R) ->
  sum_upto (call_num_neighbors source_points st)
    (fun j => read (mem last) (coeffs_of st) [i; j]
              * sum_upto poly_size
                  (fun m => c m * read (mem last) (p_of tb) [i; j; m]))%R
  = c 0%nat.
Proof.
  intros mid last tb poly_size Hs Ht Hi Hps Hinv.
  destruct (call_spec degree MemorySpace st Hs Ht) as (HA & HE & Hco).
  fold mid last poly_size in HA, HE, Hco.
  assert (Htb : fst (at_pseudo_inverse degree MemorySpace source_points
                                       target_points st) = tb)
    by (apply (as_tables HA)).
  rewrite Htb in HA, HE.
  assert (Kp : views (mem last) (p_of tb) = views (mem mid) (p_of tb)).
  { apply (ex_frame HE); [|rewrite Hco];
      unfold tb, tables_of, coeffs_of; simpl; lia. }
  assert (Kphi : views (mem last) (phi_of tb) = views (mem mid) (phi_of tb)).
  { apply (ex_frame HE); [|rewrite Hco];
      unfold tb, tables_of, coeffs_of; simpl; lia. }
  rewrite <- (reproduction_in_exact_arithmetic
                (call_num_neighbors source_points st)
                (table3_of (views (mem last) (a_of tb)))
                (table3_of (views (mem last) (p_of tb)))
                (table2_of (views (mem last) (phi_of tb))) c i Hps).
  - apply sum_upto_ext. intros j Hj. unfold read.
    rewrite <- Hco. rewrite (ex_values HE) by assumption. reflexivity.
  - intros m Hm. rewrite <- (Hinv m Hm).
    apply sum_upto_ext. intros k Hk. unfold read, table3_of at 1.
    rewrite (ex_inverse HE) by lia.
    rewrite (as_moment HA) by assumption.
    rewrite Kp, Kphi. reflexivity.
Qed.

End ExactReproduction.

Lemma radius_witness : ltb zero (read (mem fin) 3 [0]) = true.
Proof.
  destruct (@radius_is_scaled_floored_maximum
              R scalar sample_platform environment
              ltb_irrefl ltb_trans epsilon_positive scaling_keeps_positive
              1 Host Host 0 1 scenario_A ltac:(vm_compute; reflexivity)
              ltac:(vm_compute; lia) ltac:(vm_compute; lia)) as [_ H].
  destruct (H 0 ltac:(vm_compute; lia)) as (_ & _ & _ & _ & Hpos & _).
  exact Hpos.
Defined.

Lemma normalized_distance_witness :
  ltb (div (distance (load_point 1 (mem fin) 2 [0; 1]) (origin 1))
           (read (mem fin) 3 [0]))
      one = true.
Proof.
  destruct (@normalized_distance_is_below_one
              R scalar sample_platform environment
              ltb_irrefl ltb_trans ltb_le_lt epsilon_positive scaling_grows
              quotient_below_one
              1 Host Host 0 1 scenario_A ltac:(vm_compute; reflexivity)
              ltac:(vm_compute; lia) ltac:(vm_compute; lia)) as [_ H].
  exact (H 0 1 ltac:(vm_compute; lia) ltac:(vm_compute; lia)).
Defined.

End ExactFacts.

(** * Further properties of the function *)

(** ** Closed form of the coefficients *)

Section Sums.

Context {T : Type} {SC : Scalar T}.

Lemma sum_upto_agree (n : nat) (f g : nat -> T) :
  (forall k, k < n -> f k = g k) -> sum_upto n f = sum_upto n g.
Proof.
  intros H. unfold sum_upto. f_equal. apply map_ext_in.
  intros k Hk. apply in_seq in Hk. apply H. lia.
Qed.

End Sums.

Section ClosedFormProofs.

Context {T : Type} {SC : Scalar T} {PF : Platform} {EV : Environment T}.
Variables (degree : nat) (MemorySpace : memory_space) (space : execution_space).
Variables (source_points target_points : handle) (st : State T).

Let dimension := call_dimension source_points st.
Let num_targets := call_num_targets target_points st.
Let num_neighbors := call_num_neighbors source_points st.
Let poly_size := call_poly_size degree source_points st.
Let tb := tables_of st.
Let mid := snd (at_pseudo_inverse degree MemorySpace source_points target_points st).
Let fin := snd (at_return degree MemorySpace source_points target_points st).

Hypothesis Hs : source_points < allocated (mem st).
Hypothesis Ht : target_points < allocated (mem st).

Lemma relative_at_pseudo_inverse (i j : nat) :
  i < num_targets -> j < num_neighbors ->
  point_of dimension (views (mem mid) (source_ref_target_of tb)) [i; j]
  = relative_position dimension source_points target_points st i j.
Proof.
  intros Hi Hj.
  destruct (call_spec degree MemorySpace st Hs Ht) as (HA & _ & _).
  unfold point_of, relative_position. apply map_ext_in.
  intros d Hd. apply in_seq in Hd. simpl app. unfold read, mid, tb.
  rewrite <- (as_tables HA). apply (as_relative HA); [exact Hi|exact Hj|lia].
Qed.

Lemma radius_at_pseudo_inverse (i : nat) :
  i < num_targets ->
  elem (views (mem mid) (radii_of tb)) [i]
  = closed_radius dimension num_neighbors
      (relative_position dimension source_points target_points st i).
Proof.
  intros Hi.
  destruct (call_spec degree MemorySpace st Hs Ht) as (HA & _ & _).
  unfold mid, tb. rewrite <- (as_tables HA), (as_radii HA) by exact Hi.
  unfold closed_radius, norms. f_equal. apply map_ext_in.
  intros j Hj. apply in_seq in Hj. unfold closed_distance.
  rewrite (as_tables HA). fold tb mid dimension.
  rewrite relative_at_pseudo_inverse; [reflexivity|exact Hi|].
  unfold num_neighbors. lia.
Qed.

Lemma weight_at_pseudo_inverse (i j : nat) :
  i < num_targets -> j < num_neighbors ->
  elem (views (mem mid) (phi_of tb)) [i; j]
  = closed_weight dimension num_neighbors
      (relative_position dimension source_points target_points st i) j.
Proof.
  intros Hi Hj.
  destruct (call_spec degree MemorySpace st Hs Ht) as (HA & _ & _).
  unfold mid, tb. rewrite <- (as_tables HA), (as_phi HA) by assumption.
  unfold normalized_distance, closed_weight, closed_distance.
  rewrite (as_tables HA). fold tb mid dimension.
  rewrite relative_at_pseudo_inverse, radius_at_pseudo_inverse by assumption.
  reflexivity.
Qed.

Lemma basis_at_pseudo_inverse (i j k : nat) :
  i < num_targets -> j < num_neighbors -> k < poly_size ->
  elem (views (mem mid) (p_of tb)) [i; j; k]
  = closed_basis degree
      (relative_position dimension source_points target_points st i) j k.
Proof.
  intros Hi Hj Hk.
  destruct (call_spec degree MemorySpace st Hs Ht) as (HA & _ & _).
  unfold mid, tb. rewrite <- (as_tables HA), (as_vandermonde HA) by assumption.
  unfold closed_basis.
  rewrite (as_tables HA). fold tb mid dimension.
  rewrite relative_at_pseudo_inverse by assumption. reflexivity.
Qed.

Lemma moment_at_pseudo_inverse (i r k : nat) :
  i < num_targets -> r < poly_size -> k < poly_size ->
  elem (views (mem mid) (a_of tb)) [i; r; k]
  = closed_moment dimension num_neighbors degree
      (relative_position dimension source_points target_points st i) r k.
Proof.
  intros Hi Hr Hk.
  destruct (call_spec degree MemorySpace st Hs Ht) as (HA & _ & _).
  unfold mid, tb. rewrite <- (as_tables HA), (as_moment HA) by assumption.
  unfold moment_formula, closed_moment. apply sum_upto_agree.
  intros l Hl. unfold table3_of, table2_of.
  rewrite (as_tables HA). fold tb mid dimension.
  rewrite !basis_at_pseudo_inverse, weight_at_pseudo_inverse by assumption.
  reflexivity.
Qed.

Lemma coefficient_at_return (i j : nat) :
  reads_matrix_entries_only ->
  i < num_targets -> j < num_neighbors ->
  read (mem fin) (coeffs_of st) [i; j]
  = closed_coefficient dimension num_neighbors poly_size degree
      (relative_position dimension source_points target_points st i) j.
Proof.
  intros Hpinv Hi Hj.
  destruct (call_spec degree MemorySpace st Hs Ht) as (HA & HE & Hco).
  unfold read, fin. rewrite <- Hco, (ex_values HE) by assumption.
  unfold coefficient_formula, closed_coefficient. apply sum_upto_agree.
  intros k Hk. unfold table3_of, table2_of.
  assert (H0 : 0 < call_poly_size degree source_points st) by lia.
  rewrite (ex_inverse HE) by assumption.
  rewrite !(ex_frame HE)
    by (rewrite ?Hco, (as_tables HA); unfold tables_of, coeffs_of; simpl; lia).
  rewrite (as_tables HA). fold tb mid dimension poly_size num_neighbors.
  rewrite basis_at_pseudo_inverse, weight_at_pseudo_inverse by assumption.
  f_equal. f_equal. apply Hpinv; [|exact H0|exact Hk].
  intros r c Hr Hc. now apply moment_at_pseudo_inverse.
Qed.

End ClosedFormProofs.

Section ClosedFormFacts.

Context {T : Type} {SC : Scalar T} {EV : Environment T}.
Variables (dimension num_neighbors poly_size degree : nat).
Variables (relative relative' : nat -> list T).
Hypothesis same_neighbourhood :
  forall j, j < num_neighbors -> relative j = relative' j.

Lemma closed_radius_agree :
  closed_radius dimension num_neighbors relative
  = closed_radius dimension num_neighbors relative'.
Proof.
  unfold closed_radius. f_equal. apply map_ext_in.
  intros j Hj. apply in_seq in Hj. unfold closed_distance.
  rewrite same_neighbourhood by lia. reflexivity.
Qed.

Lemma closed_weight_agree (j : nat) :
  j < num_neighbors ->
  closed_weight dimension num_neighbors relative j
  = closed_weight dimension num_neighbors relative' j.
Proof.
  intros Hj. unfold closed_weight, closed_distance.
  now rewrite closed_radius_agree, same_neighbourhood.
Qed.

Lemma closed_moment_agree (r k : nat) :
  closed_moment dimension num_neighbors degree relative r k
  = closed_moment dimension num_neighbors degree relative' r k.
Proof.
  unfold closed_moment. apply sum_upto_agree. intros l Hl.
  unfold closed_basis. now rewrite closed_weight_agree, same_neighbourhood.
Qed.

Lemma closed_coefficient_agree (j : nat) :
  reads_matrix_entries_only -> j < num_neighbors ->
  closed_coefficient dimension num_neighbors poly_size degree relative j
  = closed_coefficient dimension num_neighbors poly_size degree relative' j.
Proof.
  intros Hpinv Hj. unfold closed_coefficient. apply sum_upto_agree.
  intros k Hk. unfold closed_basis.
  rewrite closed_weight_agree, same_neighbourhood by exact Hj.
  f_equal. f_equal. apply Hpinv; [|lia|exact Hk].
  intros r c _ _. apply closed_moment_agree.
Qed.

End ClosedFormFacts.

Section EndToEnd.

Context {T : Type} {SC : Scalar T} {PF : Platform} {EV : Environment T}.
Variables (degree : nat) (MemorySpace : memory_space) (space : execution_space).
Variables (source_points target_points : handle) (st : State T).

(** X1.  End to end: when the pseudo-inverse reads only the entries of the
    matrix it is given, the coefficient the call returns for neighbour [j] of
    target [i] is the closed form [closed_coefficient] evaluated on the
    positions of the neighbours of [i] relative to [i]: the radius is 1.1
    times the floored maximum of their distances to the origin, the weights
    are the kernel at distance over radius, the moment matrix is the weighted
    sum of the products of basis values, and the coefficient is the sum over
    [k] of row 0 of its pseudo-inverse times the basis value times the
    weight.  No other input and no table content enters the result. *)
Theorem coefficients_are_the_closed_form :
  reads_matrix_entries_only ->
  preconditions MemorySpace space source_points target_points st = true ->
  source_points < allocated (mem st) -> target_points < allocated (mem st) ->
  let fin := snd (at_return degree MemorySpace source_points target_points st) in
  let dimension := call_dimension source_points st in
  movingLeastSquaresCoefficients degree MemorySpace space
                                 source_points target_points st
  = Done (coeffs_of st) fin /\
  forall i j,
    i < call_num_targets target_points st ->
    j < call_num_neighbors source_points st ->
    read (mem fin) (coeffs_of st) [i; j]
    = closed_coefficient dimension (call_num_neighbors source_points st)
        (call_poly_size degree source_points st) degree
        (relative_position dimension source_points target_points st i) j.
Proof.
  intros Hpinv Hpre Hs Ht fin dimension. split.
  - destruct (call_spec degree MemorySpace st Hs Ht) as (_ & _ & Hco).
    rewrite (call_returns degree _ _ _ _ _ Hpre). now rewrite Hco.
  - intros i j Hi Hj. now apply coefficient_at_return.
Qed.

End EndToEnd.

Section Invariance.

Context {T : Type} {SC : Scalar T} {PF : Platform} {EV : Environment T}.
Variables (degree : nat) (MemorySpace MemorySpace' : memory_space).
Variables (source_points target_points : handle) (st : State T).
Variables (source_points' target_points' : handle) (st' : State T).

(** X2.  The coefficients of a target are a function of the differences
    [source - target] as the working type computes them, and of nothing else
    in the inputs: if two calls work in the same dimension with as many
    neighbours per target, and for every neighbour [j] and coordinate [d] the
    subtraction [sub source target] gives the same value for target [i] of
    the first as for target [i'] of the second, then the coefficients of the
    two targets are equal, whatever the other targets hold.  This is not
    invariance under translation in a floating-point type: moving a target
    and its neighbours by the same vector and rounding the moved coordinates
    changes the computed differences. *)
Theorem coefficients_follow_relative_positions (i i' : nat) :
  reads_matrix_entries_only ->
  source_points < allocated (mem st) -> target_points < allocated (mem st) ->
  source_points' < allocated (mem st') -> target_points' < allocated (mem st') ->
  call_dimension source_points st = call_dimension source_points' st' ->
  call_num_neighbors source_points st = call_num_neighbors source_points' st' ->
  i < call_num_targets target_points st ->
  i' < call_num_targets target_points' st' ->
  (forall j d,
      j < call_num_neighbors source_points st ->
      d < call_dimension source_points st ->
      sub (read (mem st) source_points [i; j; d])
          (read (mem st) target_points [i; d])
      = sub (read (mem st') source_points' [i'; j; d])
            (read (mem st') target_points' [i'; d])) ->
  forall j, j < call_num_neighbors source_points st ->
    read (mem (snd (at_return degree MemorySpace source_points target_points st)))
         (coeffs_of st) [i; j]
    = read (mem (snd (at_return degree MemorySpace' source_points'
                                target_points' st')))
           (coeffs_of st') [i'; j].
Proof.
  intros Hpinv Hs Ht Hs' Ht' Hdim Hnn Hi Hi' Hrel j Hj.
  rewrite (coefficient_at_return degree MemorySpace st Hs Ht Hpinv Hi Hj).
  rewrite (coefficient_at_return degree MemorySpace' st' Hs' Ht' Hpinv Hi')
    by (rewrite <- Hnn; exact Hj).
  unfold call_poly_size. rewrite <- Hdim, <- Hnn.
  apply closed_coefficient_agree; [|exact Hpinv|exact Hj].
  intros l Hl. unfold relative_position. apply map_ext_in.
  intros d Hd. apply in_seq in Hd. apply Hrel; [exact Hl|lia].
Qed.

End Invariance.

Section Uninitialised.

Context {T : Type} {SC : Scalar T} {PF : Platform} {EV : Environment T}.
Variables (degree : nat) (MemorySpace : memory_space).
Variables (source_points target_points : handle) (st : State T).

(** X3.  The tables are allocated without being initialised, and the result
    does not depend on what they held: whatever the contents [garbage] of
    uninitialised memory, the call returns the same coefficients.  Every
    cell a kernel reads has been written by an earlier kernel. *)
Theorem coefficients_do_not_depend_on_uninitialised_memory
        (garbage : handle -> index -> T) :
  reads_matrix_entries_only ->
  source_points < allocated (mem st) -> target_points < allocated (mem st) ->
  forall i j,
    i < call_num_targets target_points st ->
    j < call_num_neighbors source_points st ->
    read (mem (snd (at_return (EV := with_uninitialized garbage EV)
                              degree MemorySpace source_points target_points st)))
         (coeffs_of st) [i; j]
    = read (mem (snd (at_return degree MemorySpace source_points target_points st)))
           (coeffs_of st) [i; j].
Proof.
  intros Hpinv Hs Ht i j Hi Hj.
  rewrite (coefficient_at_return degree MemorySpace st Hs Ht Hpinv Hi Hj).
  rewrite (coefficient_at_return (EV := with_uninitialized garbage EV)
             degree MemorySpace st Hs Ht); [reflexivity| |exact Hi|exact Hj].
  intros n m m' H r c Hr Hc. exact (Hpinv n m m' H r c Hr Hc).
Qed.

End Uninitialised.

(** ** The shapes of the tables and the cells the kernels write *)

Section Regions.

Lemma range1_inv (n0 : nat) (W : nat -> index -> bool) (ix : index) :
  range1 n0 W ix = true -> exists i, i < n0 /\ W i ix = true.
Proof.
  unfold range1. intros H. apply existsb_exists in H.
  destruct H as (i & Hi & HW). apply in_seq in Hi. exists i. split; [lia|exact HW].
Qed.

Lemma cell_inv (target ix : index) : cell target ix = true -> ix = target.
Proof. apply index_eqb_eq. Qed.

Lemma row_inv (prefix : index) (n : nat) (ix : index) :
  row prefix n ix = true -> exists k, k < n /\ ix = prefix ++ [k].
Proof.
  unfold row. intros H. apply existsb_exists in H.
  destruct H as (k & Hk & HW). apply in_seq in Hk. apply index_eqb_eq in HW.
  exists k. split; [lia|exact HW].
Qed.

Lemma within1 (n0 i : nat) : i < n0 -> within [n0] [i] = true.
Proof. intros Hi. simpl. apply Nat.ltb_lt in Hi. now rewrite Hi. Qed.

Lemma within2 (n0 n1 i j : nat) :
  i < n0 -> j < n1 -> within [n0; n1] [i; j] = true.
Proof.
  intros Hi Hj. simpl. apply Nat.ltb_lt in Hi, Hj. now rewrite Hi, Hj.
Qed.

Lemma within3 (n0 n1 n2 i j k : nat) :
  i < n0 -> j < n1 -> k < n2 -> within [n0; n1; n2] [i; j; k] = true.
Proof.
  intros Hi Hj Hk. simpl. apply Nat.ltb_lt in Hi, Hj, Hk.
  now rewrite Hi, Hj, Hk.
Qed.

Lemma cells1_within (n0 : nat) (ix : index) :
  range1 n0 (fun i => cell [i]) ix = true -> within [n0] ix = true.
Proof.
  intros H. apply range1_inv in H. destruct H as (i & Hi & H).
  apply cell_inv in H. subst ix. now apply within1.
Qed.

Lemma cells2_within (n0 n1 : nat) (ix : index) :
  range2 n0 n1 (fun i j => cell [i; j]) ix = true -> within [n0; n1] ix = true.
Proof.
  intros H. apply range1_inv in H. destruct H as (i & Hi & H).
  apply range1_inv in H. destruct H as (j & Hj & H).
  apply cell_inv in H. subst ix. now apply within2.
Qed.

Lemma rows2_within (n0 n1 n2 : nat) (ix : index) :
  range2 n0 n1 (fun i j => row [i; j] n2) ix = true ->
  within [n0; n1; n2] ix = true.
Proof.
  intros H. apply range1_inv in H. destruct H as (i & Hi & H).
  apply range1_inv in H. destruct H as (j & Hj & H).
  apply row_inv in H. destruct H as (k & Hk & ->). now apply within3.
Qed.

Lemma cells3_within (n0 n1 n2 : nat) (ix : index) :
  range3 n0 n1 n2 (fun i j k => cell [i; j; k]) ix = true ->
  within [n0; n1; n2] ix = true.
Proof.
  intros H. apply range1_inv in H. destruct H as (i & Hi & H).
  apply range1_inv in H. destruct H as (j & Hj & H).
  apply range1_inv in H. destruct H as (k & Hk & H).
  apply cell_inv in H. subst ix. now apply within3.
Qed.

Lemma outside (W : index -> bool) (ext : list nat) (ix : index) :
  (W ix = true -> within ext ix = true) -> within ext ix = false -> W ix = false.
Proof.
  intros H Hw. destruct (W ix); [|reflexivity].
  rewrite H in Hw by reflexivity. discriminate.
Qed.

End Regions.

Section ShapeProofs.

Context {T : Type} {SC : Scalar T} {PF : Platform} {EV : Environment T}.

Lemma Fresh_table_kept (m m' : Memory T) (h : handle) (ms : memory_space)
      (ext : list nat) :
  views m' h = views m h -> Fresh_table m h ms ext -> Fresh_table m' h ms ext.
Proof. intros E. unfold Fresh_table. now rewrite E. Qed.

(** Allocating a table and filling it with a kernel that writes cells of the
    table only. *)
Lemma table_stage_shape (ms : memory_space) (ext : list nat) (label : string)
      (kernel : handle -> Memory T -> Memory T)
      (W : index -> bool) (val : index -> T) (st : State T) :
  Tab (allocated (mem st))
      (alloc (mkView ms ext (uninitialized (allocated (mem st)))) (mem st))
      (fun ix => W ix || false) val
      (kernel (allocated (mem st))
              (alloc (mkView ms ext (uninitialized (allocated (mem st)))) (mem st))) ->
  (forall ix, W ix = true -> within ext ix = true) ->
  Fresh_table
    (mem (snd (kbind (view_alloc ms ext)
                     (fun h => kbind (parallel_for label (kernel h))
                                     (fun _ => kret h))
                     st)))
    (allocated (mem st)) ms ext.
Proof.
  intros (Ha & Hv & Hm & He & Hr) HW.
  unfold kbind, view_alloc, parallel_for, kret. simpl.
  set (m1 := alloc _ _) in *. split; [|split].
  - rewrite Hm. unfold m1. now rewrite views_alloc_new.
  - rewrite He. unfold m1. now rewrite views_alloc_new.
  - intros ix Hix. specialize (Hr ix). unfold read in Hr. rewrite Hr.
    rewrite (outside W ext ix (HW ix) Hix). cbn [orb].
    unfold read, m1. now rewrite views_alloc_new.
Qed.

Variables (MemorySpace : memory_space).
Variables (dimension num_targets num_neighbors poly_size degree : nat).
Variables (source_points target_points : handle).

Lemma stage_source_ref_target_shape (st : State T) :
  source_points < allocated (mem st) -> target_points < allocated (mem st) ->
  Fresh_table
    (mem (snd (stage_source_ref_target MemorySpace dimension num_targets
                 num_neighbors source_points target_points st)))
    (allocated (mem st)) MemorySpace [num_targets; num_neighbors; dimension].
Proof.
  intros Hs Ht. unfold stage_source_ref_target.
  apply table_stage_shape with
    (kernel := (fun h => MDRangePolicy2 num_targets num_neighbors
                  (source_ref_target_fill dimension source_points target_points h)))
    (W := range2 num_targets num_neighbors (fun i j => row [i; j] dimension))
    (val := relative_value (views (mem st) source_points)
                           (views (mem st) target_points));
    [|apply rows2_within].
  set (v := mkView _ _ _).
  rewrite <- (views_alloc_other v (mem st) (h := source_points)) by lia.
  rewrite <- (views_alloc_other v (mem st) (h := target_points)) by lia.
  apply Tab_MDRangePolicy2; [|apply Tab_start].
  intros i j m W _ _ HT. apply source_ref_target_fill_Tab; [lia|lia|exact HT].
Qed.

Lemma stage_radii_shape (source_ref_target : handle) (st : State T) :
  source_ref_target < allocated (mem st) ->
  Fresh_table
    (mem (snd (stage_radii MemorySpace dimension num_targets num_neighbors
                           source_ref_target st)))
    (allocated (mem st)) MemorySpace [num_targets].
Proof.
  intros Hs. unfold stage_radii.
  apply table_stage_shape with
    (kernel := (fun h => RangePolicy num_targets
                  (radii_computation dimension num_neighbors source_ref_target h)))
    (W := range1 num_targets (fun i => cell [i]))
    (val := radius_value dimension num_neighbors (views (mem st) source_ref_target));
    [|apply cells1_within].
  set (v := mkView _ _ _).
  rewrite <- (views_alloc_other v (mem st) (h := source_ref_target)) by lia.
  apply Tab_RangePolicy; [|apply Tab_start].
  intros i m W _ HT. apply radii_computation_Tab; [lia|exact HT].
Qed.

Lemma stage_phi_shape (source_ref_target radii : handle) (st : State T) :
  source_ref_target < allocated (mem st) -> radii < allocated (mem st) ->
  Fresh_table
    (mem (snd (stage_phi MemorySpace dimension num_targets num_neighbors
                         source_ref_target radii st)))
    (allocated (mem st)) MemorySpace [num_targets; num_neighbors].
Proof.
  intros Hs Hr. unfold stage_phi.
  apply table_stage_shape with
    (kernel := (fun h => MDRangePolicy2 num_targets num_neighbors
                  (phi_computation dimension source_ref_target radii h)))
    (W := range2 num_targets num_neighbors (fun i j => cell [i; j]))
    (val := weight_value dimension (views (mem st) source_ref_target)
                         (views (mem st) radii));
    [|apply cells2_within].
  set (v := mkView _ _ _).
  rewrite <- (views_alloc_other v (mem st) (h := source_ref_target)) by lia.
  rewrite <- (views_alloc_other v (mem st) (h := radii)) by lia.
  apply Tab_MDRangePolicy2; [|apply Tab_start].
  intros i j m W _ _ HT. apply phi_computation_Tab; [lia|lia|exact HT].
Qed.

Lemma stage_vandermonde_shape (source_ref_target : handle) (st : State T) :
  source_ref_target < allocated (mem st) ->
  Fresh_table
    (mem (snd (stage_vandermonde MemorySpace dimension num_targets num_neighbors
                                 poly_size degree source_ref_target st)))
    (allocated (mem st)) MemorySpace [num_targets; num_neighbors; poly_size].
Proof.
  intros Hs. unfold stage_vandermonde.
  apply table_stage_shape with
    (kernel := (fun h => MDRangePolicy2 num_targets num_neighbors
                  (vandermonde_computation dimension poly_size degree
                                           source_ref_target h)))
    (W := range2 num_targets num_neighbors (fun i j => row [i; j] poly_size))
    (val := basis_value dimension degree (views (mem st) source_ref_target));
    [|apply rows2_within].
  set (v := mkView _ _ _).
  rewrite <- (views_alloc_other v (mem st) (h := source_ref_target)) by lia.
  apply Tab_MDRangePolicy2; [|apply Tab_start].
  intros i j m W _ _ HT. apply vandermonde_computation_Tab; [lia|exact HT].
Qed.

Lemma stage_moment_shape (p phi : handle) (st : State T) :
  p < allocated (mem st) -> phi < allocated (mem st) ->
  Fresh_table
    (mem (snd (stage_moment MemorySpace num_targets num_neighbors poly_size
                            p phi st)))
    (allocated (mem st)) MemorySpace [num_targets; poly_size; poly_size].
Proof.
  intros Hp Hphi. unfold stage_moment.
  apply table_stage_shape with
    (kernel := (fun h => MDRangePolicy3 num_targets poly_size poly_size
                  (moment_computation num_neighbors p phi h)))
    (W := range3 num_targets poly_size poly_size (fun i j k => cell [i; j; k]))
    (val := moment_value num_neighbors (views (mem st) p) (views (mem st) phi));
    [|apply cells3_within].
  set (v := mkView _ _ _).
  rewrite <- (views_alloc_other v (mem st) (h := p)) by lia.
  rewrite <- (views_alloc_other v (mem st) (h := phi)) by lia.
  apply Tab_MDRangePolicy3; [|apply Tab_start].
  intros i j k m W _ _ _ HT. apply moment_computation_Tab; [lia|lia|exact HT].
Qed.

Lemma stage_coefficients_shape (a p phi : handle) (st : State T) :
  a < allocated (mem st) -> p < allocated (mem st) -> phi < allocated (mem st) ->
  Fresh_table
    (mem (snd (stage_coefficients MemorySpace num_targets num_neighbors poly_size
                                  a p phi st)))
    (allocated (mem st)) MemorySpace [num_targets; num_neighbors].
Proof.
  intros Ha Hp Hphi. unfold stage_coefficients.
  apply table_stage_shape with
    (kernel := (fun h => MDRangePolicy2 num_targets num_neighbors
                  (coefficients_computation poly_size a p phi h)))
    (W := range2 num_targets num_neighbors (fun i j => cell [i; j]))
    (val := coefficient_value poly_size (views (mem st) a) (views (mem st) p)
                              (views (mem st) phi));
    [|apply cells2_within].
  set (v := mkView _ _ _).
  rewrite <- (views_alloc_other v (mem st) (h := a)) by lia.
  rewrite <- (views_alloc_other v (mem st) (h := p)) by lia.
  rewrite <- (views_alloc_other v (mem st) (h := phi)) by lia.
  apply Tab_MDRangePolicy2; [|apply Tab_start].
  intros i j m W _ _ HT.
  apply coefficients_computation_Tab; [lia|lia|lia|exact HT].
Qed.

(** The five tables of [assemble]. *)
Lemma assemble_shapes (st : State T) :
  source_points < allocated (mem st) -> target_points < allocated (mem st) ->
  let m := mem (snd (assemble MemorySpace dimension num_targets num_neighbors
                              poly_size degree source_points target_points st)) in
  let tb := tables_of st in
  Fresh_table m (source_ref_target_of tb) MemorySpace
              [num_targets; num_neighbors; dimension] /\
  Fresh_table m (radii_of tb) MemorySpace [num_targets] /\
  Fresh_table m (phi_of tb) MemorySpace [num_targets; num_neighbors] /\
  Fresh_table m (p_of tb) MemorySpace [num_targets; num_neighbors; poly_size] /\
  Fresh_table m (a_of tb) MemorySpace [num_targets; poly_size; poly_size].
Proof.
  intros Hs Ht. cbv zeta. unfold assemble, kbind, tables_of.
  cbn [source_ref_target_of radii_of phi_of p_of a_of].
  pose proof (stage_source_ref_target_facts MemorySpace dimension num_targets
                num_neighbors st Hs Ht) as F1.
  pose proof (stage_source_ref_target_shape st Hs Ht) as S1.
  destruct (stage_source_ref_target _ _ _ _ _ _ st) as [h0 st1].
  cbv zeta in F1. simpl fst in F1. simpl snd in F1, S1.
  destruct F1 as (-> & _ & [A1 V1 _ _ _]).
  pose proof (stage_radii_facts MemorySpace dimension num_targets num_neighbors
                (source_ref_target := allocated (mem st)) st1 ltac:(lia)) as F2.
  pose proof (stage_radii_shape (source_ref_target := allocated (mem st)) st1
                ltac:(lia)) as S2.
  destruct (stage_radii _ _ _ _ _ st1) as [h1 st2].
  cbv zeta in F2. simpl fst in F2. simpl snd in F2, S2.
  destruct F2 as (-> & _ & [A2 V2 _ _ _]).
  pose proof (stage_phi_facts MemorySpace dimension num_targets num_neighbors
                (source_ref_target := allocated (mem st))
                (radii := allocated (mem st1)) st2 ltac:(lia) ltac:(lia)) as F3.
  pose proof (stage_phi_shape (source_ref_target := allocated (mem st))
                (radii := allocated (mem st1)) st2 ltac:(lia) ltac:(lia)) as S3.
  destruct (stage_phi _ _ _ _ _ _ st2) as [h2 st3].
  cbv zeta in F3. simpl fst in F3. simpl snd in F3, S3.
  destruct F3 as (-> & _ & [A3 V3 _ _ _]).
  pose proof (stage_vandermonde_facts MemorySpace dimension num_targets
                num_neighbors poly_size degree
                (source_ref_target := allocated (mem st)) st3 ltac:(lia)) as F4.
  pose proof (stage_vandermonde_shape (source_ref_target := allocated (mem st))
                st3 ltac:(lia)) as S4.
  destruct (stage_vandermonde _ _ _ _ _ _ _ st3) as [h3 st4].
  cbv zeta in F4. simpl fst in F4. simpl snd in F4, S4.
  destruct F4 as (-> & _ & [A4 V4 _ _ _]).
  pose proof (stage_moment_facts MemorySpace num_targets num_neighbors poly_size
                (p := allocated (mem st3)) (phi := allocated (mem st2))
                st4 ltac:(lia) ltac:(lia)) as F5.
  pose proof (stage_moment_shape (p := allocated (mem st3))
                (phi := allocated (mem st2)) st4 ltac:(lia) ltac:(lia)) as S5.
  destruct (stage_moment _ _ _ _ _ _ st4) as [h4 st5].
  cbv zeta in F5. simpl fst in F5. simpl snd in F5, S5.
  destruct F5 as (-> & _ & [A5 V5 _ _ _]).
  unfold kret. simpl snd.
  replace (1 + allocated (mem st)) with (allocated (mem st1)) by lia.
  replace (2 + allocated (mem st)) with (allocated (mem st2)) by lia.
  replace (3 + allocated (mem st)) with (allocated (mem st3)) by lia.
  replace (4 + allocated (mem st)) with (allocated (mem st4)) by lia.
  split; [|split; [|split; [|split]]].
  - apply Fresh_table_kept with (m := mem st1); [|exact S1].
    rewrite V5, V4, V3, V2 by lia. reflexivity.
  - apply Fresh_table_kept with (m := mem st2); [|exact S2].
    rewrite V5, V4, V3 by lia. reflexivity.
  - apply Fresh_table_kept with (m := mem st3); [|exact S3].
    rewrite V5, V4 by lia. reflexivity.
  - apply Fresh_table_kept with (m := mem st4); [|exact S4].
    rewrite V5 by lia. reflexivity.
  - exact S5.
Qed.

End ShapeProofs.

Section ExtractShapes.

Context {T : Type} {SC : Scalar T} {PF : Platform} {EV : Environment T}.
Variables (MemorySpace : memory_space).
Variables (num_targets num_neighbors poly_size : nat).

(** The pseudo-inverse keeps the shape of the moment table and writes its
    cells only; the last stage adds the coefficient table. *)
Lemma extract_shapes (tb : Tables) (st : State T) :
  a_of tb < allocated (mem st) ->
  p_of tb < allocated (mem st) ->
  phi_of tb < allocated (mem st) ->
  Fresh_table (mem st) (a_of tb) MemorySpace [num_targets; poly_size; poly_size] ->
  let m := mem (snd (extract MemorySpace num_targets num_neighbors poly_size
                             tb st)) in
  Fresh_table m (a_of tb) MemorySpace [num_targets; poly_size; poly_size] /\
  Fresh_table m (allocated (mem st)) MemorySpace [num_targets; num_neighbors].
Proof.
  intros Ha Hp Hphi (Fm & Fe & Fo). cbv zeta.
  unfold extract, kbind, stage_pseudo_inverse, parallel_for.
  pose proof (symmetricPseudoInverseSVD_Tab (a_of tb) (mem st)) as HT.
  unfold extent in HT. rewrite Fe in HT. simpl nth in HT.
  set (m6 := symmetricPseudoInverseSVD (a_of tb) (mem st)) in *.
  destruct HT as (A6 & V6 & M6 & E6 & R6).
  set (st6 := mkState m6 _).
  assert (A6' : allocated (mem st6) = allocated (mem st)) by exact A6.
  assert (S6 : Fresh_table (mem st6) (a_of tb) MemorySpace
                           [num_targets; poly_size; poly_size]).
  { split; [|split].
    - change (mem st6) with m6. now rewrite M6.
    - change (mem st6) with m6. now rewrite E6.
    - intros ix Hix. change (mem st6) with m6.
      specialize (R6 ix). unfold read in R6. rewrite R6.
      rewrite (outside _ _ ix (@cells3_within num_targets poly_size poly_size ix) Hix).
      cbn [orb]. now apply Fo. }
  clearbody st6. clear R6 V6 A6 M6 E6. clearbody m6.
  pose proof (stage_coefficients_facts MemorySpace num_targets num_neighbors
                poly_size (a := a_of tb) (p := p_of tb) (phi := phi_of tb) st6
                ltac:(lia) ltac:(lia) ltac:(lia)) as F7.
  pose proof (stage_coefficients_shape MemorySpace num_targets num_neighbors
                poly_size (a := a_of tb) (p := p_of tb) (phi := phi_of tb) st6
                ltac:(lia) ltac:(lia) ltac:(lia)) as S7.
  destruct (stage_coefficients _ _ _ _ _ _ _ st6) as [c st7].
  cbv zeta in F7. simpl fst in F7. simpl snd in F7, S7. simpl snd.
  destruct F7 as (-> & _ & [A7 V7 _ _ _]).
  rewrite A6' in *. split; [|exact S7].
  apply Fresh_table_kept with (m := mem st6); [|exact S6].
  apply V7. lia.
Qed.

End ExtractShapes.

Section CallShapes.

Context {T : Type} {SC : Scalar T} {PF : Platform} {EV : Environment T}.
Variables (degree : nat) (MemorySpace : memory_space) (space : execution_space).
Variables (source_points target_points : handle) (st : State T).

Let dimension := call_dimension source_points st.
Let num_targets := call_num_targets target_points st.
Let num_neighbors := call_num_neighbors source_points st.
Let poly_size := call_poly_size degree source_points st.
Let tb := tables_of st.
Let fin := snd (at_return degree MemorySpace source_points target_points st).

(** The six tables when the call returns. *)
Lemma call_shapes :
  source_points < allocated (mem st) -> target_points < allocated (mem st) ->
  forall h, allocated (mem st) <= h < 6 + allocated (mem st) ->
    Fresh_table (mem fin) h MemorySpace
                (table_extents dimension num_targets num_neighbors poly_size
                               (h - allocated (mem st))).
Proof.
  intros Hs Ht h Hh.
  destruct (call_spec degree MemorySpace st Hs Ht) as (HA & HE & Hco).
  pose proof (assemble_shapes MemorySpace dimension num_targets num_neighbors
                poly_size degree st Hs Ht) as HS.
  cbv zeta in HS.
  fold (at_pseudo_inverse degree MemorySpace source_points target_points st) in HS.
  destruct HS as (S1 & S2 & S3 & S4 & S5).
  pose proof (as_tables HA) as Htb. pose proof (as_allocated HA) as Hal.
  assert (HX : let m := mem fin in
               Fresh_table m (a_of tb) MemorySpace
                           [num_targets; poly_size; poly_size] /\
               Fresh_table m (5 + allocated (mem st)) MemorySpace
                           [num_targets; num_neighbors]).
  { unfold fin, at_return. rewrite <- Hal. unfold tb. rewrite <- Htb.
    apply extract_shapes.
    - rewrite Htb, Hal. unfold tables_of. cbn [a_of]. lia.
    - rewrite Htb, Hal. unfold tables_of. cbn [p_of]. lia.
    - rewrite Htb, Hal. unfold tables_of. cbn [phi_of]. lia.
    - rewrite Htb. exact S5. }
  cbv zeta in HX. destruct HX as (S5' & S6).
  assert (K : forall h', h' < 4 + allocated (mem st) ->
            views (mem fin) h'
            = views (mem (snd (at_pseudo_inverse degree MemorySpace source_points
                                                 target_points st))) h').
  { intros h' Hh'. apply (ex_frame HE).
    - rewrite Htb. unfold tables_of. cbn [a_of]. lia.
    - rewrite Hco. unfold coeffs_of. lia. }
  unfold table_extents.
  destruct (h - allocated (mem st)) as [|[|[|[|[|n]]]]] eqn:E.
  - replace h with (source_ref_target_of tb)
      by (unfold tb, tables_of; cbn [source_ref_target_of]; lia).
    apply Fresh_table_kept with (2 := S1). apply K.
    unfold tb, tables_of; cbn [source_ref_target_of]; lia.
  - replace h with (radii_of tb) by (unfold tb, tables_of; cbn [radii_of]; lia).
    apply Fresh_table_kept with (2 := S2). apply K.
    unfold tb, tables_of; cbn [radii_of]; lia.
  - replace h with (phi_of tb) by (unfold tb, tables_of; cbn [phi_of]; lia).
    apply Fresh_table_kept with (2 := S3). apply K.
    unfold tb, tables_of; cbn [phi_of]; lia.
  - replace h with (p_of tb) by (unfold tb, tables_of; cbn [p_of]; lia).
    apply Fresh_table_kept with (2 := S4). apply K.
    unfold tb, tables_of; cbn [p_of]; lia.
  - replace h with (a_of tb) by (unfold tb, tables_of; cbn [a_of]; lia).
    exact S5'.
  - replace h with (5 + allocated (mem st)) by lia. exact S6.
Qed.

End CallShapes.

Section Shapes.

Context {T : Type} {SC : Scalar T} {PF : Platform} {EV : Environment T}.
Variables (degree : nat) (MemorySpace : memory_space) (space : execution_space).
Variables (source_points target_points : handle) (st : State T).

Let dimension := call_dimension source_points st.
Let num_targets := call_num_targets target_points st.
Let num_neighbors := call_num_neighbors source_points st.
Let poly_size := call_poly_size degree source_points st.


(** X5.  No kernel writes outside its table: when the call returns, every
    table it has allocated still holds, at every index that is not one of its
    cells (an index count other than its rank, or an index at or past an
    extent), the contents it was allocated with.  With the views that existed
    being left as they were, every write of the call lands in a cell of a
    table of its own. *)
Theorem kernels_write_inside_their_tables :
  preconditions MemorySpace space source_points target_points st = true ->
  source_points < allocated (mem st) -> target_points < allocated (mem st) ->
  let fin := snd (at_return degree MemorySpace source_points target_points st) in
  movingLeastSquaresCoefficients degree MemorySpace space
                                 source_points target_points st
  = Done (coeffs_of st) fin /\
  forall h ix,
    allocated (mem st) <= h < allocated (mem fin) ->
    within (extents (views (mem fin) h)) ix = false ->
    read (mem fin) h ix = uninitialized h ix.
Proof.
  intros Hpre Hs Ht fin.
  destruct (call_spec degree MemorySpace st Hs Ht) as (HA & HE & Hco).
  split.
  - rewrite (call_returns degree _ _ _ _ _ Hpre). now rewrite Hco.
  - intros h ix Hh Hix. unfold fin in Hh.
    rewrite (ex_allocated HE), (as_allocated HA) in Hh.
    destruct (call_shapes degree MemorySpace st Hs Ht (h := h) ltac:(lia))
      as (_ & He & Ho).
    apply Ho. rewrite <- He. exact Hix.
Qed.

End Shapes.

Section EmptyNeighbourhood.

Context {T : Type} {SC : Scalar T} {PF : Platform} {EV : Environment T}.
Variables (degree : nat) (MemorySpace : memory_space) (space : execution_space).
Variables (source_points target_points : handle) (st : State T).

(** X6.  With no neighbour per target ([num_neighbors = 0]) the call still
    returns: the loops over the neighbours run no iteration, so every radius
    is 1.1 times epsilon, every entry of every moment matrix handed to the
    pseudo-inverse is zero, and the coefficient table has [num_targets] rows
    and no column. *)
Theorem no_neighbour_leaves_floor_radius_and_zero_moments :
  preconditions MemorySpace space source_points target_points st = true ->
  source_points < allocated (mem st) -> target_points < allocated (mem st) ->
  call_num_neighbors source_points st = 0 ->
  let mid := snd (at_pseudo_inverse degree MemorySpace source_points
                                    target_points st) in
  let fin := snd (at_return degree MemorySpace source_points target_points st) in
  let tb := tables_of st in
  movingLeastSquaresCoefficients degree MemorySpace space
                                 source_points target_points st
  = Done (coeffs_of st) fin /\
  extents (views (mem fin) (coeffs_of st))
    = [call_num_targets target_points st; 0] /\
  forall i, i < call_num_targets target_points st ->
    read (mem fin) (radii_of tb) [i] = mul c1_1 epsilon /\
    forall r k,
      r < call_poly_size degree source_points st ->
      k < call_poly_size degree source_points st ->
      read (mem mid) (a_of tb) [i; r; k] = zero.
Proof.
  intros Hpre Hs Ht Hnn mid fin tb.
  destruct (call_spec degree MemorySpace st Hs Ht) as (HA & HE & Hco).
  split; [|split].
  - rewrite (call_returns degree _ _ _ _ _ Hpre). now rewrite Hco.
  - unfold fin. rewrite <- Hco, (ex_extents HE), Hnn. reflexivity.
  - intros i Hi. split.
    + unfold read, fin.
      rewrite (kept_until_return degree MemorySpace Hs Ht)
        by (unfold tables_of, coeffs_of; simpl; lia).
      rewrite (radius_at_pseudo_inverse degree MemorySpace st Hs Ht Hi).
      unfold closed_radius. rewrite Hnn. reflexivity.
    + intros r k Hr Hk. unfold read, mid, tb.
      rewrite (moment_at_pseudo_inverse degree MemorySpace st Hs Ht Hi Hr Hk).
      unfold closed_moment. rewrite Hnn. reflexivity.
Qed.

End EmptyNeighbourhood.

(** ** The order of the iterations *)

Section Orders.

Context {T : Type} {SC : Scalar T} {PF : Platform} {EV : Environment T}.












Variables (dimension num_neighbors poly_size degree : nat).


End Orders.

(** ** The sample collaborators *)

Section SampleFacts.

Context {T : Type} {SC : Scalar T}.
Variables (sqrt_ abs_ : T -> T).

(** The closed forms of the sample pseudo-inverse read entries of the matrix
    only. *)
Lemma pinv_small_reads_entries :
  @reads_matrix_entries_only T (sample_environment sqrt_ abs_).
Proof.
  intros n m m' H r c Hr Hc. cbn [pseudoInverse sample_environment].
  unfold pinv_small.
  destruct n as [|[|[|n]]].
  - lia.
  - rewrite (H 0 0) by lia. reflexivity.
  - rewrite (H 0 0), (H 1 1), (H 0 1), (H 1 0), (H r c) by lia. reflexivity.
  - apply H; assumption.
Qed.

End SampleFacts.

(** ** Double precision: the sign of the radius *)

Module Binary64Radius.

Import Binary64 Binary64Facts.

Lemma ltb_zero_positive (x : float) :
  PrimFloat.ltb 0 x = positive_SF (Prim2SF x).
Proof.
  rewrite ltb_spec, Prim2SF_zero.
  destruct (Prim2SF x) as [s|s| |s m e]; try destruct s; reflexivity.
Qed.

Lemma positive_SF_lt (a b : spec_float) :
  positive_SF a = true -> SFltb a b = true -> positive_SF b = true.
Proof.
  destruct a as [sa|sa| |sa ma ea], b as [sb|sb| |sb mb eb];
    try destruct sa; try destruct sb; simpl; try discriminate; reflexivity.
Qed.

Lemma positive_SF_not_nan (x : float) :
  positive_SF (Prim2SF x) = true -> is_nan x = false.
Proof.
  intros H. unfold is_nan. rewrite FloatAxioms.eqb_spec. unfold SFeqb.
  destruct (Prim2SF x) as [s|s| |s m e] eqn:E; try discriminate;
    destruct s; try discriminate.
  - reflexivity.
  - rewrite (SFcompare_refl_finite (S754_finite false m e)); reflexivity.
Qed.

Lemma digits2_succ_upper (p : positive) :
  (Zpos (digits2_pos (Pos.succ p)) <= Zpos (digits2_pos p) + 1)%Z.
Proof.
  induction p as [p IH|p IH|]; simpl; lia.
Qed.

Lemma digits2_lt_pow (p : positive) :
  (Zpos p < 2 ^ Zpos (digits2_pos p))%Z.
Proof.
  induction p as [p IH|p IH|]; simpl digits2_pos.
  - rewrite Pos2Z.inj_succ, Z.pow_succ_r by lia. lia.
  - rewrite Pos2Z.inj_succ, Z.pow_succ_r by lia. lia.
  - reflexivity.
Qed.

Lemma digits2_le (p q : positive) :
  (p <= q)%positive -> (Zpos (digits2_pos p) <= Zpos (digits2_pos q))%Z.
Proof.
  intros H. rewrite <- (positive_nat_Z (digits2_pos q)).
  apply digits2_bound. rewrite positive_nat_Z.
  pose proof (digits2_lt_pow q). lia.
Qed.

Lemma shr_1_positive (q : positive) (r s : bool) :
  (2 <= Zpos (digits2_pos q))%Z ->
  exists q' r' s',
    shr_1 {| shr_m := Zpos q; shr_r := r; shr_s := s |}
    = {| shr_m := Zpos q'; shr_r := r'; shr_s := s' |} /\
    Zpos (digits2_pos q') = (Zpos (digits2_pos q) - 1)%Z.
Proof.
  intros H. destruct q as [q|q|]; cbn [digits2_pos] in *.
  - exists q, true, (r || s). split; [reflexivity|].
    rewrite Pos2Z.inj_succ. lia.
  - exists q, false, (r || s). split; [reflexivity|].
    rewrite Pos2Z.inj_succ. lia.
  - lia.
Qed.

(** Shifting out fewer bits than a mantissa has leaves a mantissa. *)
Lemma iter_shr_1_positive (p q : positive) (r s : bool) :
  (Zpos p < Zpos (digits2_pos q))%Z ->
  exists q' r' s',
    SpecFloat.iter_pos shr_1 p {| shr_m := Zpos q; shr_r := r; shr_s := s |}
    = {| shr_m := Zpos q'; shr_r := r'; shr_s := s' |} /\
    Zpos (digits2_pos q') = (Zpos (digits2_pos q) - Zpos p)%Z.
Proof.
  rewrite iter_pos_iter.
  induction p as [|p IH] using Pos.peano_ind; intros H.
  - simpl. apply shr_1_positive. lia.
  - rewrite Pos.iter_succ.
    destruct IH as (q1 & r1 & s1 & E1 & D1); [lia|]. rewrite E1.
    destruct (@shr_1_positive q1 r1 s1) as (q2 & r2 & s2 & E2 & D2); [lia|].
    exists q2, r2, s2. split; [exact E2|lia].
Qed.

Lemma round_nearest_even_positive (q : positive) (l : location) :
  exists q', round_nearest_even (Zpos q) l = Zpos q' /\
             (Zpos (digits2_pos q) <= Zpos (digits2_pos q')
              <= Zpos (digits2_pos q) + 1)%Z.
Proof.
  pose proof (digits2_succ_le q). pose proof (digits2_succ_upper q).
  assert (Hs : (Zpos q + 1)%Z = Zpos (Pos.succ q)) by lia.
  destruct l as [|[| |]]; unfold round_nearest_even;
    try (exists q; split; [reflexivity|lia]).
  - destruct (Z.even (Zpos q)).
    + exists q. split; [reflexivity|lia].
    + exists (Pos.succ q). split; [exact Hs|lia].
  - exists (Pos.succ q). split; [exact Hs|lia].
Qed.

(** Rounding a positive mantissa whose value is not below the smallest
    subnormal gives a number of the same sign: never zero, never NaN. *)
Lemma binary_round_aux_signed (sx : bool) (M : positive) (E : Z) :
  (-1074 < Zpos (digits2_pos M) + E)%Z ->
  (exists m e, binary_round_aux prec emax sx (Zpos M) E loc_Exact
               = S754_finite sx m e) \/
  binary_round_aux prec emax sx (Zpos M) E loc_Exact = S754_infinity sx.
Proof.
  intros Hlow. unfold binary_round_aux, shr_fexp.
  cbn [Zdigits2 shr_record_of_loc].
  assert (Hf : forall d, fexp prec emax d = Z.max (d - 53) (-1074))
    by reflexivity.
  assert (Hend : forall (q : positive) (e : Z),
             (-1074 <= e)%Z \/ (-1074 < Zpos (digits2_pos q) + e)%Z ->
             (exists m e0,
                 (let '(mrs'', e'') :=
                    shr {| shr_m := Zpos q; shr_r := false; shr_s := false |} e
                        (fexp prec emax (Zpos (digits2_pos q) + e) - e) in
                  match shr_m mrs'' with
                  | 0%Z => S754_zero sx
                  | Zpos m =>
                      if (e'' <=? emax - prec)%Z
                      then S754_finite sx m e'' else S754_infinity sx
                  | Zneg _ => S754_nan
                  end) = S754_finite sx m e0) \/
             (let '(mrs'', e'') :=
                shr {| shr_m := Zpos q; shr_r := false; shr_s := false |} e
                    (fexp prec emax (Zpos (digits2_pos q) + e) - e) in
              match shr_m mrs'' with
              | 0%Z => S754_zero sx
              | Zpos m =>
                  if (e'' <=? emax - prec)%Z
                  then S754_finite sx m e'' else S754_infinity sx
              | Zneg _ => S754_nan
              end) = S754_infinity sx).
  { intros q e He.
    destruct (fexp prec emax (Zpos (digits2_pos q) + e) - e)%Z as [|p|p] eqn:En;
      cbn [shr shr_m].
    - destruct (_ <=? _)%Z; eauto.
    - destruct (@iter_shr_1_positive p q false false) as (q' & r' & s' & Eq' & _).
      { rewrite Hf in En. lia. }
      rewrite Eq'. cbn [shr_m]. destruct (_ <=? _)%Z; eauto.
    - destruct (_ <=? _)%Z; eauto. }
  destruct (fexp prec emax (Zpos (digits2_pos M) + E) - E)%Z as [|p|p] eqn:En;
    cbn [shr].
  - cbn [shr_m loc_of_shr_record round_nearest_even Zdigits2 shr_record_of_loc].
    apply Hend. right. exact Hlow.
  - destruct (@iter_shr_1_positive p M false false) as (q & r & s & Eq1 & Dq).
    { rewrite Hf in En. lia. }
    rewrite Eq1. cbn [shr_m].
    destruct (round_nearest_even_positive q
                (loc_of_shr_record {| shr_m := Zpos q; shr_r := r; shr_s := s |}))
      as (q' & Eq2 & Dq').
    rewrite Eq2. cbn [Zdigits2 shr_record_of_loc].
    apply Hend. left. rewrite Hf in En. lia.
  - cbn [shr_m loc_of_shr_record round_nearest_even Zdigits2 shr_record_of_loc].
    apply Hend. right. exact Hlow.
Qed.

Lemma Prim2SF_c1_1 :
  Prim2SF (@c1_1 float scalar) = S754_finite false 4953959590107546 (-52).
Proof. reflexivity. Qed.

(** 1.1 times a number above zero is above zero: the product cannot round
    to zero, 1.1 being above one. *)
Lemma scaling_keeps_positive_SF (x : float) :
  positive_SF (Prim2SF x) = true ->
  positive_SF (Prim2SF (PrimFloat.mul (@c1_1 float scalar) x)) = true.
Proof.
  intros H. rewrite mul_spec, Prim2SF_c1_1.
  pose proof (Prim2SF_valid x) as Hv.
  destruct (Prim2SF x) as [s|s| |s m e]; try discriminate;
    destruct s; try discriminate; [reflexivity|].
  unfold SF64mul, SFmul. cbn [xorb].
  cbn [SpecFloat.valid_binary] in Hv. unfold bounded, canonical_mantissa in Hv.
  apply andb_prop in Hv. destruct Hv as [Hc _]. apply Z.eqb_eq in Hc.
  assert (Hf : forall d, fexp prec emax d = Z.max (d - 53) (-1074))
    by reflexivity.
  rewrite Hf in Hc.
  assert (Hd : (53 <= Zpos (digits2_pos (4953959590107546 * m)))%Z).
  { change 53%Z with (Zpos (digits2_pos 4953959590107546)).
    apply digits2_le. lia. }
  destruct (binary_round_aux_signed false (4953959590107546 * m) (-52 + e))
    as [(m' & e' & ->)| ->]; [lia|reflexivity|reflexivity].
Qed.

Section RadiusPositive.

Context {PF : Platform} {EV : Environment float}.
Local Existing Instance scalar.

Variables (degree : nat) (MemorySpace : memory_space) (space : execution_space).
Variables (source_points target_points : handle) (st : State float).

(** [Kokkos::max] keeps the running maximum above zero: a value that replaces
    it is greater, and a NaN never replaces it. *)
Lemma max_floored_positive (floor : float) (values : list float) :
  positive_SF (Prim2SF floor) = true ->
  positive_SF (Prim2SF (max_floored floor values)) = true.
Proof.
  unfold max_floored. revert floor.
  induction values as [|v vs IH]; intros floor H; [exact H|].
  cbn [fold_left]. apply IH. unfold kmax.
  destruct (ltb floor v) eqn:E; [|exact H].
  apply positive_SF_lt with (a := Prim2SF floor); [exact H|].
  cbn [ltb scalar] in E. now rewrite ltb_spec in E.
Qed.

(** X9.  In double precision, whatever the inputs and whatever the distance
    function returns for them (zero, an infinity or NaN included), the radius
    the call computes for every target is above zero: it is not NaN, and it
    compares unequal to zero, so that the division of a distance by the
    radius never divides by zero.  The running maximum starts at epsilon,
    [Kokkos::max] only replaces it by a greater value, and the multiplication
    by 1.1 cannot round a positive number to zero. *)
Theorem radius_is_positive_in_double_precision :
  preconditions MemorySpace space source_points target_points st = true ->
  source_points < allocated (mem st) -> target_points < allocated (mem st) ->
  let fin := snd (at_return degree MemorySpace source_points target_points st) in
  movingLeastSquaresCoefficients degree MemorySpace space
                                 source_points target_points st
  = Done (coeffs_of st) fin /\
  forall i, i < call_num_targets target_points st ->
    ltb zero (read (mem fin) (radii_of (tables_of st)) [i]) = true /\
    is_nan (read (mem fin) (radii_of (tables_of st)) [i]) = false /\
    PrimFloat.eqb (read (mem fin) (radii_of (tables_of st)) [i]) zero = false.
Proof.
  intros Hpre Hs Ht fin. split.
  - destruct (call_spec degree MemorySpace st Hs Ht) as (_ & _ & Hco).
    rewrite (call_returns degree _ _ _ _ _ Hpre). now rewrite Hco.
  - intros i Hi.
    pose proof (radius_at_return degree MemorySpace st Hs Ht Hi) as HR.
    cbv zeta in HR. fold fin in HR.
    assert (Hp : positive_SF (Prim2SF (read (mem fin) (radii_of (tables_of st)) [i]))
                 = true).
    { rewrite HR. apply scaling_keeps_positive_SF, max_floored_positive.
      reflexivity. }
    split; [|split].
    + cbn [ltb zero scalar]. now rewrite ltb_zero_positive.
    + now apply positive_SF_not_nan.
    + cbn [zero scalar]. rewrite FloatAxioms.eqb_spec, Prim2SF_zero.
      destruct (Prim2SF _) as [s|s| |s m e]; try discriminate;
        destruct s; try discriminate; reflexivity.
Qed.

(** A NaN never replaces the running maximum: [radius < NaN] is false. *)
Lemma max_floored_skips_nan (floor : float) (values : list float) :
  max_floored floor values
  = max_floored floor (filter (fun d => negb (is_nan d)) values).
Proof.
  unfold max_floored. revert floor.
  induction values as [|v vs IH]; intros floor; [reflexivity|].
  cbn [fold_left filter]. destruct (is_nan v) eqn:E; cbn [negb fold_left].
  - rewrite <- IH. f_equal. unfold kmax. cbn [ltb scalar].
    rewrite ltb_spec. unfold is_nan in E.
    rewrite FloatAxioms.eqb_spec in E. unfold SFeqb in E.
    destruct (Prim2SF v) as [s|s| |s m e].
    + destruct s; discriminate.
    + destruct s; discriminate.
    + destruct (Prim2SF floor) as [s'|s'| |s' m' e']; reflexivity.
    + rewrite (SFcompare_refl_finite (S754_finite s m e)) in E by reflexivity.
      discriminate.
  - apply IH.
Qed.

(** Once the running maximum is plus infinity it stays there. *)
Lemma max_floored_infinite (floor : float) (values : list float) :
  Prim2SF floor = S754_infinity false ->
  Prim2SF (max_floored floor values) = S754_infinity false.
Proof.
  unfold max_floored. revert floor.
  induction values as [|v vs IH]; intros floor H; [exact H|].
  cbn [fold_left]. apply IH. unfold kmax. cbn [ltb scalar].
  rewrite ltb_spec, H.
  destruct (Prim2SF v) as [s|s| |s m e]; try destruct s; exact H.
Qed.

Lemma max_floored_reaches_infinity (floor v : float) (values : list float) :
  positive_SF (Prim2SF floor) = true ->
  In v values -> Prim2SF v = S754_infinity false ->
  Prim2SF (max_floored floor values) = S754_infinity false.
Proof.
  intros Hp Hin Hv. revert floor Hp.
  induction values as [|x xs IH]; intros floor Hp; [contradiction|].
  change (max_floored floor (x :: xs)) with (max_floored (kmax floor x) xs).
  destruct Hin as [->|Hin].
  - apply max_floored_infinite. unfold kmax. cbn [ltb scalar].
    rewrite ltb_spec, Hv.
    destruct (Prim2SF floor) as [s|s| |s m e] eqn:E; try discriminate;
      destruct s; try discriminate; [exact E|exact Hv].
  - apply IH; [exact Hin|].
    change (kmax floor x) with (max_floored floor [x]).
    now apply max_floored_positive.
Qed.

(** X14.  In double precision a distance that is NaN is skipped by the
    radius: [Kokkos::max(radius, norm)] keeps [radius] when [norm] is NaN, so
    the radius of every target is 1.1 times the floored maximum of those
    distances of its neighbours that are not NaN. *)
Theorem nan_distances_are_skipped_by_the_radius :
  preconditions MemorySpace space source_points target_points st = true ->
  source_points < allocated (mem st) -> target_points < allocated (mem st) ->
  let fin := snd (at_return degree MemorySpace source_points target_points st) in
  let dimension := call_dimension source_points st in
  movingLeastSquaresCoefficients degree MemorySpace space
                                 source_points target_points st
  = Done (coeffs_of st) fin /\
  forall i, i < call_num_targets target_points st ->
    read (mem fin) (radii_of (tables_of st)) [i]
    = mul c1_1
        (max_floored epsilon
           (filter (fun d => negb (is_nan d))
              (map (fun j => distance (load_point dimension (mem fin)
                                         (source_ref_target_of (tables_of st))
                                         [i; j])
                                      (origin dimension))
                   (seq 0 (call_num_neighbors source_points st))))).
Proof.
  intros Hpre Hs Ht fin dimension. split.
  - destruct (call_spec degree MemorySpace st Hs Ht) as (_ & _ & Hco).
    rewrite (call_returns degree _ _ _ _ _ Hpre). now rewrite Hco.
  - intros i Hi.
    pose proof (radius_at_return degree MemorySpace st Hs Ht Hi) as HR.
    cbv zeta in HR. fold fin dimension in HR.
    rewrite HR. f_equal. apply max_floored_skips_nan.
Qed.

(** X15.  In double precision, when the distance of a neighbour of target
    [i] overflows to plus infinity, the radius of [i] is plus infinity and the
    normalized distance of that neighbour, infinity over infinity, is NaN. *)
Theorem infinite_distance_gives_infinite_radius (i j : nat) :
  preconditions MemorySpace space source_points target_points st = true ->
  source_points < allocated (mem st) -> target_points < allocated (mem st) ->
  i < call_num_targets target_points st ->
  j < call_num_neighbors source_points st ->
  let fin := snd (at_return degree MemorySpace source_points target_points st) in
  let dimension := call_dimension source_points st in
  let norm := distance (load_point dimension (mem fin)
                          (source_ref_target_of (tables_of st)) [i; j])
                       (origin dimension) in
  norm = infinity ->
  movingLeastSquaresCoefficients degree MemorySpace space
                                 source_points target_points st
  = Done (coeffs_of st) fin /\
  read (mem fin) (radii_of (tables_of st)) [i] = infinity /\
  is_nan (div norm (read (mem fin) (radii_of (tables_of st)) [i])) = true.
Proof.
  intros Hpre Hs Ht Hi Hj fin dimension norm Hinf. split.
  - destruct (call_spec degree MemorySpace st Hs Ht) as (_ & _ & Hco).
    rewrite (call_returns degree _ _ _ _ _ Hpre). now rewrite Hco.
  - pose proof (radius_at_return degree MemorySpace st Hs Ht Hi) as HR.
    cbv zeta in HR. fold fin dimension in HR.
    assert (HM : Prim2SF (read (mem fin) (radii_of (tables_of st)) [i])
                 = S754_infinity false).
    { rewrite HR. cbn [mul scalar]. rewrite mul_spec, Prim2SF_c1_1.
      rewrite max_floored_reaches_infinity with (v := norm).
      - reflexivity.
      - reflexivity.
      - apply (in_map (fun j => distance (load_point dimension (mem fin)
                                            (source_ref_target_of (tables_of st))
                                            [i; j])
                                         (origin dimension))).
        apply in_seq. lia.
      - rewrite Hinf. reflexivity. }
    split.
    + apply Prim2SF_inj. rewrite HM. reflexivity.
    + unfold is_nan. cbn [div scalar].
      rewrite FloatAxioms.eqb_spec, div_spec, HM, Hinf. reflexivity.
Qed.

End RadiusPositive.

End Binary64Radius.

(** ** Double precision: the normalized distance *)

Module Binary64Quotient.

Import Binary64 Binary64Facts Binary64Radius.

(** *** The order of binary64 *)

Lemma SFltb_positive_iff (m1 m2 : positive) (e1 e2 : Z) :
  SFltb (S754_finite false m1 e1) (S754_finite false m2 e2) = true <->
  (e1 < e2 \/ (e1 = e2 /\ Zpos m1 < Zpos m2))%Z.
Proof.
  unfold SFltb, SFcompare.
  change (Pos.compare_cont Eq m1 m2) with (Pos.compare m1 m2).
  destruct (Z.compare_spec e1 e2); destruct (Pos.compare_spec m1 m2);
    split; intros; try discriminate; try reflexivity; lia.
Qed.

Lemma SFltb_irrefl (x : spec_float) : SFltb x x = false.
Proof.
  unfold SFltb.
  destruct x as [s|s| |s m e]; try destruct s; try reflexivity;
    rewrite (SFcompare_refl_finite (S754_finite _ m e)); reflexivity.
Qed.

Lemma SFltb_trans (x y z : spec_float) :
  SFltb x y = true -> SFltb y z = true -> SFltb x z = true.
Proof.
  unfold SFltb, SFcompare.
  destruct x as [sx|sx| |sx mx ex], y as [sy|sy| |sy my ey],
           z as [sz|sz| |sz mz ez];
    try destruct sx; try destruct sy; try destruct sz;
    try discriminate; try reflexivity;
    change (Pos.compare_cont Eq mx my) with (Pos.compare mx my);
    change (Pos.compare_cont Eq my mz) with (Pos.compare my mz);
    change (Pos.compare_cont Eq mx mz) with (Pos.compare mx mz);
    destruct (Z.compare_spec ex ey); destruct (Z.compare_spec ey ez);
    destruct (Z.compare_spec ex ez);
    destruct (Pos.compare_spec mx my); destruct (Pos.compare_spec my mz);
    destruct (Pos.compare_spec mx mz);
    cbn [CompOpp]; intros; try discriminate; try reflexivity; lia.
Qed.

Lemma ltb_irrefl_binary64 (x : float) : @ltb float scalar x x = false.
Proof. cbn [ltb scalar]. rewrite ltb_spec. apply SFltb_irrefl. Qed.

Lemma ltb_trans_binary64 (x y z : float) :
  @ltb float scalar x y = true -> @ltb float scalar y z = true ->
  @ltb float scalar x z = true.
Proof. cbn [ltb scalar]. rewrite !ltb_spec. apply SFltb_trans. Qed.

(** *** Shifting and rounding a mantissa *)

Lemma Zdigits2_nonneg (m : Z) : (0 <= Zdigits2 m)%Z.
Proof. destruct m; simpl; lia. Qed.

Lemma Zdigits2_le (a b : Z) :
  (0 <= a <= b)%Z -> (Zdigits2 a <= Zdigits2 b)%Z.
Proof.
  intros [Ha Hab]. destruct a as [|a|a], b as [|b|b]; simpl; try lia.
  apply digits2_le. lia.
Qed.

Lemma Zdigits2_succ (m : Z) :
  (0 <= m)%Z -> (Zdigits2 (m + 1) <= Zdigits2 m + 1)%Z.
Proof.
  intros H. destruct m as [|m|m]; try lia; [reflexivity|].
  change (Zdigits2 (Zpos m + 1)) with (Zpos (digits2_pos (m + 1))).
  rewrite Pos.add_1_r. apply digits2_succ_upper.
Qed.

Lemma Zdigits2_double (m : Z) :
  (0 < m)%Z -> Zdigits2 (2 * m) = (Zdigits2 m + 1)%Z.
Proof.
  intros H. destruct m as [|m|m]; try lia.
  change (2 * Zpos m)%Z with (Zpos (xO m)). cbn [Zdigits2 digits2_pos]. lia.
Qed.

(** One step to the right loses one digit. *)
Lemma shr_1_digits (mrs : shr_record) :
  (0 <= shr_m mrs)%Z ->
  (0 <= shr_m (shr_1 mrs))%Z /\
  Zdigits2 (shr_m (shr_1 mrs)) = Z.max (Zdigits2 (shr_m mrs) - 1) 0.
Proof.
  destruct mrs as [m r s]. cbn [shr_m]. intros H.
  destruct m as [|[m|m|]|m]; try lia; cbn [shr_1 shr_m Zdigits2 digits2_pos];
    split; lia.
Qed.

Lemma iter_shr_1_digits (p : positive) (mrs : shr_record) :
  (0 <= shr_m mrs)%Z ->
  (0 <= shr_m (SpecFloat.iter_pos shr_1 p mrs))%Z /\
  Zdigits2 (shr_m (SpecFloat.iter_pos shr_1 p mrs))
  = Z.max (Zdigits2 (shr_m mrs) - Zpos p) 0.
Proof.
  intros H. rewrite iter_pos_iter.
  induction p as [|p IH] using Pos.peano_ind.
  - apply shr_1_digits. exact H.
  - rewrite Pos.iter_succ. destruct IH as [IH0 IHd].
    destruct (shr_1_digits _ IH0) as [H0 Hd]. split; [exact H0|].
    rewrite Hd, IHd. lia.
Qed.

Lemma shr_digits (mrs : shr_record) (e n : Z) :
  (0 <= shr_m mrs)%Z ->
  (0 <= shr_m (fst (shr mrs e n)))%Z /\
  snd (shr mrs e n) = (e + Z.max n 0)%Z /\
  Zdigits2 (shr_m (fst (shr mrs e n)))
  = Z.max (Zdigits2 (shr_m mrs) - Z.max n 0) 0.
Proof.
  intros H. pose proof (Zdigits2_nonneg (shr_m mrs)) as Hn.
  destruct n as [|p|p]; cbn [shr fst snd].
  - split; [|split]; lia.
  - destruct (iter_shr_1_digits p mrs H) as [H0 Hd].
    split; [exact H0|split; [lia|rewrite Hd; lia]].
  - split; [|split]; lia.
Qed.

Lemma shr_m_of_loc (m : Z) (l : location) : shr_m (shr_record_of_loc m l) = m.
Proof. destruct l as [|[| |]]; reflexivity. Qed.

Lemma loc_of_shr_record_of_loc (m : Z) (l : location) :
  loc_of_shr_record (shr_record_of_loc m l) = l.
Proof. destruct l as [|[| |]]; reflexivity. Qed.

(** Rounding to nearest keeps or adds one. *)
Lemma round_nearest_even_bounds (m : Z) (l : location) :
  (m <= round_nearest_even m l <= m + 1)%Z.
Proof.
  destruct l as [|[| |]]; unfold round_nearest_even; try lia.
  destruct (Z.even m); lia.
Qed.

(** The second half of [binary_round_aux]: a mantissa that is not negative
    and stands for a value below one gives zero or a number below one. *)
Lemma second_rounding_below_one (sx : bool) (m : Z) (e : Z) :
  (0 <= m)%Z -> (Zdigits2 m + e <= 0)%Z ->
  below_one sx
    (let '(mrs'', e'') := shr_fexp prec emax m e loc_Exact in
     match shr_m mrs'' with
     | Z0 => S754_zero sx
     | Zpos m' =>
         if (e'' <=? emax - prec)%Z
         then S754_finite sx m' e'' else S754_infinity sx
     | Zneg _ => S754_nan
     end).
Proof.
  intros Hm Hd. unfold shr_fexp.
  pose proof (@shr_digits (shr_record_of_loc m loc_Exact) e
                (fexp prec emax (Zdigits2 m + e) - e))
    as H.
  rewrite shr_m_of_loc in H. specialize (H Hm).
  destruct (shr _ _ _) as [mrs'' e''].
  cbn [fst snd] in H. destruct H as (H0 & He & Hdig).
  destruct (shr_m mrs'') as [|m'|m'] eqn:E.
  - left. reflexivity.
  - right. cbn [Zdigits2] in Hdig.
    assert (Hf : forall d, fexp prec emax d = Z.max (d - 53) (-1074))
      by reflexivity.
    rewrite Hf in He, Hdig.
    assert (Hle : (e'' <=? emax - prec)%Z = true).
    { apply Z.leb_le. unfold emax, prec. lia. }
    rewrite Hle. exists m', e''. split; [reflexivity|lia].
  - lia.
Qed.

(** Rounding a value below one half stays below one. *)
Lemma rounding_below_one_half (sx : bool) (m : Z) (e : Z) (l : location) :
  (0 <= m)%Z -> (Zdigits2 m + e <= -1)%Z ->
  below_one sx (binary_round_aux prec emax sx m e l).
Proof.
  intros Hm Hd. unfold binary_round_aux, shr_fexp at 1.
  pose proof (@shr_digits (shr_record_of_loc m l) e
                (fexp prec emax (Zdigits2 m + e) - e)) as H.
  rewrite shr_m_of_loc in H. specialize (H Hm).
  destruct (shr _ _ _) as [mrs' e1].
  cbn [fst snd] in H. destruct H as (H0 & He & Hdig).
  pose proof (round_nearest_even_bounds (shr_m mrs') (loc_of_shr_record mrs'))
    as Hr.
  set (qr := round_nearest_even _ _) in *.
  assert (Hf : forall d, fexp prec emax d = Z.max (d - 53) (-1074))
    by reflexivity.
  rewrite Hf in He, Hdig.
  apply second_rounding_below_one; [lia|].
  pose proof (Zdigits2_le (a := qr) (b := shr_m mrs' + 1) ltac:(lia)) as H1.
  pose proof (Zdigits2_succ H0) as H2.
  pose proof (Zdigits2_nonneg m) as Hn. lia.
Qed.

(** Rounding a mantissa that is not all ones, with at most one digit to drop,
    does not reach the next power of two. *)
Lemma rounding_below_one_tight (sx : bool) (q : positive) (e : Z) (l : location) :
  (fexp prec emax (Zpos (digits2_pos q) + e) - e <= 1)%Z ->
  (Zdigits2 (Zpos q + 1) + e <= 0)%Z ->
  below_one sx (binary_round_aux prec emax sx (Zpos q) e l).
Proof.
  intros Hn Hd. unfold binary_round_aux, shr_fexp at 1. cbn [Zdigits2].
  destruct (fexp prec emax (Zpos (digits2_pos q) + e) - e)%Z as [|p|p] eqn:En;
    cbn [shr].
  - rewrite loc_of_shr_record_of_loc, shr_m_of_loc.
    pose proof (round_nearest_even_bounds (Zpos q) l) as Hr.
    apply second_rounding_below_one; [lia|].
    pose proof (Zdigits2_le (a := round_nearest_even (Zpos q) l)
                            (b := Zpos q + 1) ltac:(lia)). lia.
  - assert (p = 1%positive) by lia. subst p. cbn [SpecFloat.iter_pos].
    assert (Hrec : exists r s, shr_record_of_loc (Zpos q) l
                               = {| shr_m := Zpos q; shr_r := r; shr_s := s |}).
    { destruct l as [|[| |]]; eexists; eexists; reflexivity. }
    destruct Hrec as (r & s & ->).
    destruct q as [q|q|].
    + cbn [shr_1 shr_m].
      pose proof (round_nearest_even_bounds (Zpos q)
                    (loc_of_shr_record
                       {| shr_m := Zpos q; shr_r := true; shr_s := r || s |}))
        as Hr.
      apply second_rounding_below_one; [lia|].
      set (qr := round_nearest_even _ _) in *.
      pose proof (Zdigits2_le (a := qr) (b := Zpos q + 1) ltac:(lia)) as H1.
      replace (Zpos q~1 + 1)%Z with (2 * (Zpos q + 1))%Z in Hd by lia.
      rewrite Zdigits2_double in Hd by lia. lia.
    + cbn [shr_1 shr_m].
      replace (round_nearest_even (Zpos q)
                 (loc_of_shr_record
                    {| shr_m := Zpos q; shr_r := false; shr_s := r || s |}))
        with (Zpos q) by (destruct (r || s); reflexivity).
      apply second_rounding_below_one; [lia|].
      pose proof (Zdigits2_le (a := Zpos q~0) (b := Zpos q~0 + 1) ltac:(lia))
        as H1.
      change (Zpos q~0) with (2 * Zpos q)%Z in H1 at 1.
      rewrite Zdigits2_double in H1 by lia. lia.
    + cbn [shr_1 shr_m].
      pose proof (round_nearest_even_bounds 0
                    (loc_of_shr_record
                       {| shr_m := 0; shr_r := true; shr_s := r || s |}))
        as Hr.
      apply second_rounding_below_one; [lia|].
      set (qr := round_nearest_even _ _) in *.
      pose proof (Zdigits2_le (a := qr) (b := 1) ltac:(lia)) as H1.
      change (Zdigits2 1) with 1%Z in H1.
      change (Zdigits2 (1 + 1)) with 2%Z in Hd. lia.
  - rewrite loc_of_shr_record_of_loc, shr_m_of_loc.
    pose proof (round_nearest_even_bounds (Zpos q) l) as Hr.
    apply second_rounding_below_one; [lia|].
    pose proof (Zdigits2_le (a := round_nearest_even (Zpos q) l)
                            (b := Zpos q + 1) ltac:(lia)). lia.
Qed.

(** *** Bounds of a mantissa by its number of digits *)

Lemma digits2_ge_pow (p : positive) :
  (2 ^ (Zpos (digits2_pos p) - 1) <= Zpos p)%Z.
Proof.
  induction p as [p IH|p IH|]; cbn [digits2_pos].
  - rewrite Pos2Z.inj_succ.
    replace (Z.succ (Zpos (digits2_pos p)) - 1)%Z
      with (Z.succ (Zpos (digits2_pos p) - 1)) by lia.
    rewrite Z.pow_succ_r by lia. lia.
  - rewrite Pos2Z.inj_succ.
    replace (Z.succ (Zpos (digits2_pos p)) - 1)%Z
      with (Z.succ (Zpos (digits2_pos p) - 1)) by lia.
    rewrite Z.pow_succ_r by lia. lia.
  - reflexivity.
Qed.

Lemma Zdigits2_bound (m k : Z) :
  (0 <= m < 2 ^ k)%Z -> (0 <= k)%Z -> (Zdigits2 m <= k)%Z.
Proof.
  intros [H0 H] Hk. destruct m as [|m|m]; try lia; [exact Hk|].
  rewrite <- (Z2Nat.id k) by exact Hk. apply digits2_bound.
  now rewrite Z2Nat.id.
Qed.

(** A mantissa of 53 digits. *)
Lemma mantissa_53 (m : positive) :
  Zpos (digits2_pos m) = 53%Z ->
  (4503599627370496 <= Zpos m < 9007199254740992)%Z.
Proof.
  intros H. pose proof (digits2_ge_pow m) as Hl.
  pose proof (digits2_lt_pow m) as Hu. rewrite H in Hl, Hu.
  change (2 ^ (53 - 1))%Z with 4503599627370496%Z in Hl.
  change (2 ^ 53)%Z with 9007199254740992%Z in Hu. lia.
Qed.

(** *** The quotient of a number by a greater one *)

(** In binary64, a positive finite number divided by a greater one that is
    not below [2^-52] rounds to a number below one: the quotient is at most
    [1 - 2^-53], which is a binary64 number. *)
Lemma SFdiv_below_one (md mr : positive) (ed er : Z) :
  valid_binary (S754_finite false md ed) = true ->
  valid_binary (S754_finite false mr er) = true ->
  (-104 <= er)%Z ->
  (ed < er \/ (ed = er /\ Zpos md < Zpos mr))%Z ->
  below_one false
    (SFdiv prec emax (S754_finite false md ed) (S754_finite false mr er)).
Proof.
  intros Hvd Hvr Her Hlt.
  unfold SpecFloat.valid_binary, bounded, canonical_mantissa in Hvd, Hvr.
  apply andb_prop in Hvd, Hvr.
  destruct Hvd as [Hcd _], Hvr as [Hcr _].
  apply Z.eqb_eq in Hcd, Hcr.
  assert (Hf : forall d, fexp prec emax d = Z.max (d - 53) (-1074))
    by reflexivity.
  rewrite Hf in Hcd, Hcr.
  assert (Hdr : Zpos (digits2_pos mr) = 53%Z) by lia.
  pose proof (mantissa_53 mr Hdr) as Hmr.
  pose proof (digits2_lt_pow md) as Hmd.
  pose proof (digits2_ge_pow md) as Hmd'.
  unfold SFdiv, SFdiv_core_binary. cbn [xorb Zdigits2].
  rewrite Hdr, Hf.
  set (dd := Zpos (digits2_pos md)) in *.
  assert (Hdd : (1 <= dd <= 53)%Z) by lia.
  set (e' := Z.min (Z.max (dd + ed - (53 + er) - 53) (-1074)) (ed - er)).
  set (s := (ed - er - e')%Z).
  assert (Ee' : e' = Z.min (Z.max (dd + ed - (53 + er) - 53) (-1074)) (ed - er))
    by reflexivity.
  assert (Es : s = (ed - er - e')%Z) by reflexivity.
  clearbody s e'.
  assert (Hs : (0 <= s)%Z) by lia.
  assert (Hm' : match s with
                | 0%Z => Zpos md
                | Zpos _ => Z.shiftl (Zpos md) s
                | Zneg _ => 0%Z
                end = (Zpos md * 2 ^ s)%Z).
  { destruct s as [|p|p]; [lia| |lia].
    apply Z.shiftl_mul_pow2. lia. }
  rewrite Hm'.
  assert (Hpow : (0 < 2 ^ s)%Z) by (apply Z.pow_pos_nonneg; lia).
  pose proof (Z_div_mod (Zpos md * 2 ^ s) (Zpos mr) eq_refl) as Hdiv.
  destruct (Z.div_eucl (Zpos md * 2 ^ s) (Zpos mr)) as [q rem].
  destruct Hdiv as [Hq Hrem].
  assert (Hq0 : (0 <= q)%Z) by nia.
  assert (Hqm : (q * Zpos mr <= Zpos md * 2 ^ s)%Z) by nia.
  destruct (Z_lt_le_dec (dd + ed) (53 + er - 1)) as [Hfar|Hnear].
  - (* the quotient is below one half *)
    apply rounding_below_one_half; [exact Hq0|].
    assert (He' : (e' <= -55)%Z) by lia.
    assert (Hk : (q < 2 ^ (-1 - e'))%Z).
    { destruct (Z_lt_le_dec q (2 ^ (-1 - e'))) as [H|H]; [exact H|exfalso].
      assert (H1 : (Zpos md * 2 ^ s < 2 ^ dd * 2 ^ s)%Z) by nia.
      rewrite <- Z.pow_add_r in H1 by lia.
      assert (H2 : (2 ^ (dd + s) <= 2 ^ (-1 - e' + 52))%Z)
        by (apply Z.pow_le_mono_r; lia).
      assert (H2' : (2 ^ (-1 - e' + 52) = 2 ^ (-1 - e') * 4503599627370496)%Z)
        by (rewrite Z.pow_add_r by lia; reflexivity).
      assert (H3 : (2 ^ (-1 - e') * 4503599627370496 <= q * Zpos mr)%Z).
      { apply Z.mul_le_mono_nonneg; lia. }
      lia. }
    pose proof (Zdigits2_bound (m := q) (k := -1 - e') ltac:(lia) ltac:(lia)).
    lia.
  - (* the two numbers are within a factor of two *)
    assert (Hdd53 : dd = 53%Z) by lia.
    assert (Hmd53 : (4503599627370496 <= Zpos md < 9007199254740992)%Z)
      by (apply mantissa_53; exact Hdd53).
    destruct Hlt as [Hlt|[Hee Hmm]].
    + (* one binade below *)
      assert (Hed : ed = (er - 1)%Z) by lia.
      assert (He' : e' = (-54)%Z) by lia.
      assert (Hs53 : s = 53%Z) by lia.
      rewrite Hs53 in *. rewrite He'.
      change (2 ^ 53)%Z with 9007199254740992%Z in *.
      assert (Hqpos : (0 < q)%Z) by nia.
      assert (Hqub : (q + 1 < 18014398509481984)%Z).
      { destruct (Z_lt_le_dec (q + 1) 18014398509481984) as [H|H];
          [exact H|exfalso].
        assert (H3 : (18014398509481983 * 4503599627370496 <= q * Zpos mr)%Z)
          by (apply Z.mul_le_mono_nonneg; lia).
        nia. }
      destruct q as [|q|q]; try lia.
      pose proof (Zdigits2_bound (m := Zpos q + 1) (k := 54)
                    ltac:(change (2 ^ 54)%Z with 18014398509481984%Z; lia)
                    ltac:(lia)) as Hd1.
      pose proof (Zdigits2_le (a := Zpos q) (b := Zpos q + 1) ltac:(lia)) as Hd0.
      cbn [Zdigits2] in Hd0.
      apply rounding_below_one_tight; [rewrite Hf|]; lia.
    + (* the same binade *)
      assert (He' : e' = (-53)%Z) by lia.
      assert (Hs53 : s = 53%Z) by lia.
      rewrite Hs53 in *. rewrite He'.
      change (2 ^ 53)%Z with 9007199254740992%Z in *.
      assert (Hqpos : (0 < q)%Z) by nia.
      assert (Hqub : (q + 1 < 9007199254740992)%Z).
      { destruct (Z_lt_le_dec (q + 1) 9007199254740992) as [H|H];
          [exact H|exfalso].
        assert (H3 : (9007199254740991 * Zpos mr <= q * Zpos mr)%Z)
          by (apply Z.mul_le_mono_nonneg_r; lia).
        nia. }
      destruct q as [|q|q]; try lia.
      pose proof (Zdigits2_bound (m := Zpos q + 1) (k := 53)
                    ltac:(change (2 ^ 53)%Z with 9007199254740992%Z; lia)
                    ltac:(lia)) as Hd1.
      pose proof (Zdigits2_le (a := Zpos q) (b := Zpos q + 1) ltac:(lia)) as Hd0.
      cbn [Zdigits2] in Hd0.
      apply rounding_below_one_tight; [rewrite Hf|]; lia.
Qed.

(** *** The value of a shifted mantissa *)

Lemma shr_1_value (mrs : shr_record) :
  (0 <= shr_m mrs)%Z -> shr_m (shr_1 mrs) = (shr_m mrs / 2)%Z.
Proof.
  destruct mrs as [m r s]. cbn [shr_m]. intros H.
  destruct m as [|[m|m|]|m]; try lia; cbn [shr_1 shr_m]; try reflexivity.
  - apply Z.div_unique with (r := 1%Z); lia.
  - apply Z.div_unique with (r := 0%Z); lia.
Qed.

Lemma iter_shr_1_value (p : positive) (mrs : shr_record) :
  (0 <= shr_m mrs)%Z ->
  shr_m (SpecFloat.iter_pos shr_1 p mrs) = (shr_m mrs / 2 ^ Zpos p)%Z.
Proof.
  intros H.
  induction p as [|p IH] using Pos.peano_ind.
  - rewrite iter_pos_iter. apply shr_1_value. exact H.
  - destruct (iter_shr_1_digits p mrs H) as [H0 _].
    rewrite iter_pos_iter, Pos.iter_succ, <- iter_pos_iter.
    rewrite shr_1_value by exact H0. rewrite IH.
    rewrite Z.div_div by lia.
    rewrite Pos2Z.inj_succ, Z.pow_succ_r by lia.
    f_equal. lia.
Qed.

Lemma shr_value (mrs : shr_record) (e n : Z) :
  (0 <= shr_m mrs)%Z ->
  shr_m (fst (shr mrs e n)) = (shr_m mrs / 2 ^ Z.max n 0)%Z.
Proof.
  intros H. destruct n as [|p|p]; cbn [shr fst].
  - now rewrite Z.div_1_r.
  - rewrite iter_shr_1_value by exact H. reflexivity.
  - now rewrite Z.div_1_r.
Qed.

Lemma Zdigits2_between (m a b : Z) :
  (0 <= a)%Z -> (2 ^ a <= m < 2 ^ b)%Z ->
  (a + 1 <= Zdigits2 m <= b)%Z.
Proof.
  intros Ha [Hl Hu].
  assert (H1 : (0 < 2 ^ a)%Z) by (apply Z.pow_pos_nonneg; lia).
  destruct (Z_lt_le_dec b 0) as [Hb|Hb].
  { rewrite Z.pow_neg_r in Hu by exact Hb. lia. }
  split.
  - destruct m as [|m|m]; try lia. cbn [Zdigits2].
    pose proof (digits2_lt_pow m) as H.
    assert (H2 : (2 ^ a < 2 ^ Zpos (digits2_pos m))%Z) by lia.
    apply Z.pow_lt_mono_r_iff in H2; lia.
  - apply Zdigits2_bound; lia.
Qed.

(** *** 1.1 times a number is greater than the number *)

(** In binary64, 1.1 times a positive finite number that is not below
    [2^-52] is plus infinity or a greater finite number. *)
Lemma scaled_is_greater (mM : positive) (eM : Z) :
  valid_binary (S754_finite false mM eM) = true ->
  (-104 <= eM)%Z ->
  SFmul prec emax (S754_finite false 4953959590107546 (-52))
        (S754_finite false mM eM) = S754_infinity false \/
  exists mr er,
    SFmul prec emax (S754_finite false 4953959590107546 (-52))
          (S754_finite false mM eM) = S754_finite false mr er /\
    (eM < er \/ (eM = er /\ Zpos mM < Zpos mr))%Z.
Proof.
  intros Hv He.
  unfold SpecFloat.valid_binary, bounded, canonical_mantissa in Hv.
  apply andb_prop in Hv. destruct Hv as [Hc _]. apply Z.eqb_eq in Hc.
  assert (Hf : forall d, fexp prec emax d = Z.max (d - 53) (-1074))
    by reflexivity.
  rewrite Hf in Hc.
  assert (Hdm : Zpos (digits2_pos mM) = 53%Z) by lia.
  pose proof (mantissa_53 mM Hdm) as Hm.
  unfold SFmul. cbn [xorb]. rewrite Pos2Z.inj_mul.
  set (P := (4953959590107546 * Zpos mM)%Z).
  assert (HP : (2 ^ 104 <= P < 2 ^ 106)%Z).
  { change (2 ^ 104)%Z with 20282409603651670423947251286016%Z.
    change (2 ^ 106)%Z with 81129638414606681695789005144064%Z.
    unfold P. lia. }
  pose proof (@Zdigits2_between P 104 106 ltac:(lia) HP)
    as HdP.
  remember (binary_round_aux prec emax false P (-52 + eM) loc_Exact) as r
    eqn:Er.
  revert Er. unfold binary_round_aux, shr_fexp at 1.
  pose proof (@shr_digits (shr_record_of_loc P loc_Exact) (-52 + eM)
                (fexp prec emax (Zdigits2 P + (-52 + eM)) - (-52 + eM))) as H1.
  pose proof (@shr_value (shr_record_of_loc P loc_Exact) (-52 + eM)
                (fexp prec emax (Zdigits2 P + (-52 + eM)) - (-52 + eM))) as V1.
  rewrite shr_m_of_loc in H1, V1.
  specialize (H1 ltac:(lia)). specialize (V1 ltac:(lia)).
  destruct (shr _ _ _) as [mrs1 e1].
  cbn [fst snd] in H1, V1. destruct H1 as (H10 & He1 & Hd1).
  rewrite Hf in He1, Hd1, V1.
  (* the mantissa after the first shift *)
  assert (Hm1 : (4503599627370496 <= shr_m mrs1 < 9007199254740992)%Z /\
                (e1 = eM /\ Zpos mM < shr_m mrs1 \/ eM < e1)%Z).
  { destruct (Z.eq_dec (Zdigits2 P) 105) as [E|E].
    - assert (HP' : (P < 2 ^ 105)%Z).
      { destruct P as [|p|p] eqn:EP; try lia. cbn [Zdigits2] in E.
        pose proof (digits2_lt_pow p) as Hp. rewrite E in Hp. exact Hp. }
      change (2 ^ 105)%Z with 40564819207303340847894502572032%Z in HP'.
      change (2 ^ 104)%Z with 20282409603651670423947251286016%Z in HP.
      replace (Z.max (Z.max (Zdigits2 P + (-52 + eM) - 53) (-1074)
                      - (-52 + eM)) 0) with 52%Z in V1 by lia.
      change (2 ^ 52)%Z with 4503599627370496%Z in V1.
      assert (Hlow : (Zpos mM + 1 <= shr_m mrs1)%Z).
      { rewrite V1. apply Z.div_le_lower_bound; [lia|]. unfold P. lia. }
      split; [split|].
      + lia.
      + rewrite V1. apply Z.div_lt_upper_bound; lia.
      + left. lia.
    - assert (E' : Zdigits2 P = 106%Z) by lia.
      assert (HP' : (2 ^ 105 <= P)%Z).
      { destruct P as [|p|p] eqn:EP; try lia. cbn [Zdigits2] in E'.
        pose proof (digits2_ge_pow p) as Hp. rewrite E' in Hp. exact Hp. }
      change (2 ^ 105)%Z with 40564819207303340847894502572032%Z in HP'.
      change (2 ^ 106)%Z with 81129638414606681695789005144064%Z in HP.
      replace (Z.max (Z.max (Zdigits2 P + (-52 + eM) - 53) (-1074)
                      - (-52 + eM)) 0) with 53%Z in V1 by lia.
      change (2 ^ 53)%Z with 9007199254740992%Z in V1.
      split; [split|].
      + rewrite V1. apply Z.div_le_lower_bound; lia.
      + rewrite V1. apply Z.div_lt_upper_bound; lia.
      + right. lia. }
  destruct Hm1 as [Hm1 Hord].
  assert (He1' : (-104 <= e1)%Z) by lia.
  clear V1 Hd1 He1 HdP HP. clearbody P.
  (* rounding *)
  pose proof (round_nearest_even_bounds (shr_m mrs1) (loc_of_shr_record mrs1))
    as Hr.
  set (m2 := round_nearest_even _ _) in *.
  assert (Hm2 : (2 ^ 52 <= m2 < 2 ^ 54)%Z).
  { change (2 ^ 52)%Z with 4503599627370496%Z.
    change (2 ^ 54)%Z with 18014398509481984%Z. lia. }
  pose proof (@Zdigits2_between m2 52 54 ltac:(lia) Hm2)
    as Hd2.
  unfold shr_fexp.
  pose proof (@shr_digits (shr_record_of_loc m2 loc_Exact) e1
                (fexp prec emax (Zdigits2 m2 + e1) - e1)) as H2.
  pose proof (@shr_value (shr_record_of_loc m2 loc_Exact) e1
                (fexp prec emax (Zdigits2 m2 + e1) - e1)) as V2.
  rewrite shr_m_of_loc in H2, V2.
  specialize (H2 ltac:(lia)). specialize (V2 ltac:(lia)).
  destruct (shr _ _ _) as [mrs2 e2].
  cbn [fst snd] in H2, V2. destruct H2 as (H20 & He2 & _).
  rewrite Hf in He2, V2.
  assert (Hm3 : (0 < shr_m mrs2)%Z /\
                (e2 = e1 /\ shr_m mrs1 <= shr_m mrs2 \/ e1 < e2)%Z).
  { destruct (Z.eq_dec (Zdigits2 m2) 53) as [E|E].
    - replace (Z.max (Z.max (Zdigits2 m2 + e1 - 53) (-1074) - e1) 0)
        with 0%Z in V2, He2 by lia.
      rewrite Z.div_1_r in V2. split; [lia|left; lia].
    - replace (Z.max (Z.max (Zdigits2 m2 + e1 - 53) (-1074) - e1) 0)
        with 1%Z in V2, He2 by lia.
      change (2 ^ 1)%Z with 2%Z in V2.
      change (2 ^ 52)%Z with 4503599627370496%Z in Hm2.
      split; [|right; lia].
      rewrite V2. apply Z.lt_le_trans with (m := 1%Z); [lia|].
      apply Z.div_le_lower_bound; lia. }
  destruct Hm3 as [Hpos Hord2].
  destruct (shr_m mrs2) as [|m3|m3]; try lia.
  destruct (e2 <=? emax - prec)%Z; intros ->.
  - right. exists m3, e2. split; [reflexivity|lia].
  - left. reflexivity.
Qed.

(** *** The sign of a rounded number *)

(** Rounding a mantissa that is not negative gives a zero, a finite number
    or an infinity of the sign asked for, never NaN. *)
Lemma binary_round_aux_shape (sx : bool) (m e : Z) (l : location) :
  (0 <= m)%Z ->
  binary_round_aux prec emax sx m e l = S754_zero sx \/
  binary_round_aux prec emax sx m e l = S754_infinity sx \/
  exists m' e', binary_round_aux prec emax sx m e l = S754_finite sx m' e'.
Proof.
  intros Hm.
  remember (binary_round_aux prec emax sx m e l) as z eqn:Ez.
  revert Ez. unfold binary_round_aux, shr_fexp.
  pose proof (@shr_digits (shr_record_of_loc m l) e
                (fexp prec emax (Zdigits2 m + e) - e)) as H1.
  rewrite shr_m_of_loc in H1. specialize (H1 Hm).
  destruct (shr _ _ _) as [mrs1 e1]. cbn [fst snd] in H1.
  destruct H1 as (H10 & _ & _).
  pose proof (round_nearest_even_bounds (shr_m mrs1) (loc_of_shr_record mrs1))
    as Hr.
  set (m2 := round_nearest_even _ _) in *.
  pose proof (@shr_digits (shr_record_of_loc m2 loc_Exact) e1
                (fexp prec emax (Zdigits2 m2 + e1) - e1)) as H2.
  rewrite shr_m_of_loc in H2. specialize (H2 ltac:(lia)).
  destruct (shr _ _ _) as [mrs2 e2]. cbn [fst snd] in H2.
  destruct H2 as (H20 & _ & _).
  destruct (shr_m mrs2) as [|m3|m3]; try lia.
  - intros ->. left. reflexivity.
  - destruct (e2 <=? emax - prec)%Z; intros ->; right.
    + right. exists m3, e2. reflexivity.
    + left. reflexivity.
Qed.

(** A negative finite number divided by a positive finite one is below one. *)
Lemma SFdiv_negative_below_one (md mr : positive) (ed er : Z) :
  SFltb (SFdiv prec emax (S754_finite true md ed) (S754_finite false mr er))
        (S754_finite false 4503599627370496 (-52)) = true.
Proof.
  unfold SFdiv, SFdiv_core_binary. cbn [xorb].
  set (e' := Z.min _ _). set (s := (ed - er - e')%Z).
  assert (Hm' : (0 <= match s with
                      | 0%Z => Zpos md
                      | Zpos _ => Z.shiftl (Zpos md) s
                      | Zneg _ => 0%Z
                      end)%Z).
  { destruct s as [|p|p]; try lia. apply Z.shiftl_nonneg. lia. }
  set (m' := match s with 0%Z => _ | Zpos _ => _ | Zneg _ => _ end) in *.
  pose proof (Z_div_mod m' (Zpos mr) eq_refl) as Hdiv.
  destruct (Z.div_eucl m' (Zpos mr)) as [q rem].
  destruct Hdiv as [Hq Hrem].
  assert (Hq0 : (0 <= q)%Z) by nia.
  destruct (@binary_round_aux_shape true q e' (new_location (Zpos mr) rem) Hq0)
    as [-> | [-> | (m3 & e3 & ->)]]; reflexivity.
Qed.

(** *** The normalized distance *)

(** In binary64, for a running maximum [M] that is above zero and not below
    epsilon, a finite number [d] that [M] is not below, divided by 1.1 times
    [M], is below one. *)
Lemma quotient_below_one_binary64 (d M : float) :
  positive_SF (Prim2SF M) = true ->
  PrimFloat.ltb M (@epsilon float scalar) = false ->
  PrimFloat.ltb M d = false ->
  is_finite d = true ->
  PrimFloat.ltb (PrimFloat.div d (PrimFloat.mul (@c1_1 float scalar) M)) 1
  = true.
Proof.
  intros HM Heps HMd Hfin.
  pose proof (Prim2SF_valid d) as Vd. pose proof (Prim2SF_valid M) as VM.
  pose proof (Prim2SF_valid (PrimFloat.mul (@c1_1 float scalar) M)) as Vr.
  pose proof (Prim2SF_valid
                (PrimFloat.div d (PrimFloat.mul (@c1_1 float scalar) M))) as Vz.
  apply is_finite_Prim2SF in Hfin.
  rewrite ltb_spec in Heps, HMd. rewrite ltb_spec.
  rewrite div_spec in Vz. rewrite div_spec.
  rewrite mul_spec in Vr, Vz. rewrite mul_spec.
  rewrite Prim2SF_c1_1 in Vr, Vz. rewrite Prim2SF_c1_1.
  change (Prim2SF (@epsilon float scalar))
    with (S754_finite false 4503599627370496 (-104)) in Heps.
  change (Prim2SF 1) with (S754_finite false 4503599627370496 (-52)).
  unfold SF64div, SF64mul in *.
  destruct (Prim2SF M) as [sM|sM| |sM mM eM]; try discriminate;
    destruct sM; try discriminate.
  - (* the maximum is plus infinity *)
    destruct (Prim2SF d) as [s|s| |s m e]; try discriminate;
      destruct s; reflexivity.
  - assert (HeM : (-104 <= eM)%Z).
    { destruct (Z_lt_le_dec eM (-104)) as [H|H]; [exfalso|exact H].
      assert (X : SFltb (S754_finite false mM eM)
                        (S754_finite false 4503599627370496 (-104)) = true)
        by (apply SFltb_positive_iff; left; exact H).
      congruence. }
    destruct (@scaled_is_greater mM eM VM HeM) as [Hr | (mr & er & Hr & Hord)];
      rewrite Hr in Vr, Vz; rewrite Hr.
    + (* the radius overflows *)
      destruct (Prim2SF d) as [s|s| |s m e]; try discriminate;
        destruct s; reflexivity.
    + destruct (Prim2SF d) as [s|s| |s md ed]; try discriminate.
      * destruct s; reflexivity.
      * destruct s; [apply SFdiv_negative_below_one|].
        assert (Hdr : (ed < er \/ (ed = er /\ Zpos md < Zpos mr))%Z).
        { assert (X : ~ (eM < ed \/ (eM = ed /\ Zpos mM < Zpos md))%Z).
          { intros X. apply SFltb_positive_iff in X. congruence. }
          lia. }
        destruct (@SFdiv_below_one md mr ed er Vd Vr ltac:(lia) Hdr)
          as [Hz | (m & e & Hz & Hmag)]; rewrite Hz in Vz; rewrite Hz.
        -- reflexivity.
        -- unfold SpecFloat.valid_binary, bounded, canonical_mantissa in Vz.
           apply andb_prop in Vz. destruct Vz as [Hc _].
           apply Z.eqb_eq in Hc.
           assert (Hf : forall d, fexp prec emax d = Z.max (d - 53) (-1074))
             by reflexivity.
           rewrite Hf in Hc.
           apply SFltb_positive_iff. left. lia.
Qed.

Section NormalizedDistanceBinary64.

Context {PF : Platform} {EV : Environment float}.
Local Existing Instance scalar.

Variables (degree : nat) (MemorySpace : memory_space) (space : execution_space).
Variables (source_points target_points : handle) (st : State float).

(** C6, as amended.  In double precision, whatever the distance function
    returns: for every target [i] and every neighbour [j] whose distance to
    the origin is finite (neither an infinity nor NaN), the distance of
    [relative[i][j]] divided by [radius[i]] is less than 1.  The 1.1 inflation
    of the running maximum, which is never below epsilon, gives a radius
    greater than every finite distance, and the quotient of a number by a
    greater one rounds to at most [1 - 2^-53]. *)
Theorem finite_normalized_distance_is_below_one :
  preconditions MemorySpace space source_points target_points st = true ->
  source_points < allocated (mem st) -> target_points < allocated (mem st) ->
  let fin := snd (at_return degree MemorySpace source_points target_points st) in
  let tb := tables_of st in
  let dimension := call_dimension source_points st in
  movingLeastSquaresCoefficients degree MemorySpace space
                                 source_points target_points st
  = Done (coeffs_of st) fin /\
  forall i j,
    i < call_num_targets target_points st ->
    j < call_num_neighbors source_points st ->
    is_finite (distance (load_point dimension (mem fin)
                                    (source_ref_target_of tb) [i; j])
                        (origin dimension)) = true ->
    ltb (div (distance (load_point dimension (mem fin)
                                   (source_ref_target_of tb) [i; j])
                       (origin dimension))
             (read (mem fin) (radii_of tb) [i]))
        one = true.
Proof.
  intros Hpre Hs Ht fin tb dimension. split.
  - destruct (call_spec degree MemorySpace st Hs Ht) as (_ & _ & Hco).
    rewrite (call_returns degree _ _ _ _ _ Hpre). now rewrite Hco.
  - intros i j Hi Hj Hfin.
    pose proof (radius_at_return degree MemorySpace st Hs Ht Hi) as HR.
    cbv zeta in HR. fold fin tb dimension in HR. rewrite HR.
    set (f := fun j => distance (load_point dimension (mem fin)
                                            (source_ref_target_of tb) [i; j])
                                (origin dimension)).
    change (distance (load_point dimension (mem fin)
                                 (source_ref_target_of tb) [i; j])
                     (origin dimension)) with (f j) in *.
    set (M := max_floored epsilon _).
    apply quotient_below_one_binary64.
    + apply max_floored_positive. reflexivity.
    + apply (max_floored_floor ltb_irrefl_binary64 ltb_trans_binary64).
    + apply (max_floored_upper_bound ltb_irrefl_binary64 ltb_trans_binary64).
      apply in_map. apply in_seq. lia.
    + exact Hfin.
Qed.

End NormalizedDistanceBinary64.

End Binary64Quotient.

(** ** The further properties on the double precision instance *)

Module Binary64Witnesses.

Import Binary64 Binary64Inputs.

Local Existing Instances scalar environment sample_platform.

Local Abbreviation fin := (snd (at_return 1 Host 0 1 scenario_A)).
Local Abbreviation returned :=
  (@mem float sample_platform
        (snd (@at_return float scalar sample_platform environment
                         1 Host 0 1 scenario_A))).

Lemma closed_form_witness :
  read (mem fin) 7 [0; 1]
  = closed_coefficient 1 2 2 1 (relative_position 1 0 1 scenario_A 0) 1.
Proof.
  destruct (@coefficients_are_the_closed_form
              float scalar sample_platform environment 1 Host Host 0 1
              scenario_A (pinv_small_reads_entries _ _)
              ltac:(vm_compute; reflexivity)
              ltac:(vm_compute; lia) ltac:(vm_compute; lia)) as [_ H].
  exact (H 0 1 ltac:(vm_compute; lia) ltac:(vm_compute; lia)).
Defined.

(** In scenario A and in scenario A moved by 5 the differences are computed
    exactly, -1 and 1 in both. *)
Lemma equal_differences_witness :
  read (mem fin) 7 [0; 1]
  = read (mem (snd (at_return 1 Host 0 1 scenario_A_shifted))) 7 [0; 1].
Proof.
  refine (@coefficients_follow_relative_positions
            float scalar sample_platform environment 1 Host Host
            0 1 scenario_A 0 1 scenario_A_shifted 0 0
            (pinv_small_reads_entries _ _) _ _ _ _ _ _ _ _ _ 1 _).
  - vm_compute. lia.
  - vm_compute. lia.
  - vm_compute. lia.
  - vm_compute. lia.
  - vm_compute. reflexivity.
  - vm_compute. reflexivity.
  - vm_compute. lia.
  - vm_compute. lia.
  - intros j d Hj Hd. vm_compute in Hj, Hd.
    destruct j as [|[|j]], d as [|d]; try lia; vm_compute; reflexivity.
  - vm_compute. lia.
Defined.

(** Moving scenario T by 1 and rounding the moved coordinates changes the
    computed differences (0.6 becomes [0x1.3333333333332p-1]) and with them the
    coefficients. *)
Example rounded_translation_changes_coefficients :
  read (mem scenario_T) 0 [0; 1; 0] = 0x1.6666666666666p-1%float /\
  read (mem scenario_T_moved) 0 [0; 1; 0] = 0x1.b333333333333p+0%float /\
  sub (read (mem scenario_T) 0 [0; 1; 0]) (read (mem scenario_T) 1 [0; 0])
  = 0x1.3333333333333p-1%float /\
  sub (read (mem scenario_T_moved) 0 [0; 1; 0])
      (read (mem scenario_T_moved) 1 [0; 0])
  = 0x1.3333333333332p-1%float /\
  PrimFloat.eqb
    (read (mem (snd (at_return 1 Host 0 1 scenario_T))) 7 [0; 0])
    (read (mem (snd (at_return 1 Host 0 1 scenario_T_moved))) 7 [0; 0])
  = false.
Proof. vm_compute. repeat split. Qed.

Lemma uninitialised_witness :
  read (mem (snd (at_return (EV := with_uninitialized (fun _ _ => one) environment)
                            1 Host 0 1 scenario_A))) 7 [0; 1]
  = read (mem fin) 7 [0; 1].
Proof.
  exact (@coefficients_do_not_depend_on_uninitialised_memory
           float scalar sample_platform environment 1 Host 0 1 scenario_A
           (fun _ _ => one) (pinv_small_reads_entries _ _)
           ltac:(vm_compute; lia) ltac:(vm_compute; lia)
           0 1 ltac:(vm_compute; lia) ltac:(vm_compute; lia)).
Defined.


Lemma bounds_witness :
  read (mem fin) 7 [0; 2] = uninitialized 7 [0; 2].
Proof.
  destruct (@kernels_write_inside_their_tables
              float scalar sample_platform environment 1 Host Host 0 1
              scenario_A ltac:(vm_compute; reflexivity)
              ltac:(vm_compute; lia) ltac:(vm_compute; lia)) as [_ H].
  exact (H 7 [0; 2] ltac:(vm_compute; lia) ltac:(vm_compute; reflexivity)).
Defined.

Lemma no_neighbour_witness :
  read (mem (snd (at_return 1 Host 0 1 no_neighbour))) 3 [0] = mul c1_1 epsilon.
Proof.
  destruct (@no_neighbour_leaves_floor_radius_and_zero_moments
              float scalar sample_platform environment 1 Host Host 0 1
              no_neighbour ltac:(vm_compute; reflexivity)
              ltac:(vm_compute; lia) ltac:(vm_compute; lia)
              ltac:(vm_compute; reflexivity)) as (_ & _ & H).
  exact (proj1 (H 0 ltac:(vm_compute; lia))).
Defined.


Lemma positive_radius_witness :
  ltb zero (read (mem fin) 3 [0]) = true.
Proof.
  destruct (@Binary64Radius.radius_is_positive_in_double_precision
              sample_platform environment 1 Host Host 0 1 scenario_A
              ltac:(vm_compute; reflexivity)
              ltac:(vm_compute; lia) ltac:(vm_compute; lia)) as [_ H].
  exact (proj1 (H 0 ltac:(vm_compute; lia))).
Defined.

(** With a NaN neighbour the radius is that of the other neighbour, 1.1, and
    the weight of the NaN neighbour is NaN. *)
Example nan_neighbour_values :
  match run 1 nan_neighbour with
  | Done c st' => (read (mem st') 3 [0], is_nan (read (mem st') 4 [0; 0]))
  | _ => (0%float, false)
  end = (0x1.199999999999ap+0%float, true).
Proof. vm_compute. reflexivity. Qed.

(** With a neighbour whose distance overflows the radius is infinite, the
    weight of that neighbour is NaN and the other neighbour sits at
    normalized distance 0. *)
Example far_neighbour_values :
  match run 1 far_neighbour with
  | Done c st' =>
      (read (mem st') 3 [0], is_nan (read (mem st') 4 [0; 0]),
       PrimFloat.div (@distance float environment
                        (load_point 1 (mem st') 2 [0; 1]) [0%float])
                     (read (mem st') 3 [0]))
  | _ => (0%float, false, 0%float)
  end = (infinity, true, 0%float).
Proof. vm_compute. reflexivity. Qed.

Lemma nan_witness :
  read (mem (snd (at_return 1 Host 0 1 nan_neighbour))) 3 [0]
  = mul c1_1
      (max_floored epsilon
         (filter (fun d => negb (is_nan d))
            (map (fun j => distance
                             (load_point 1
                                (mem (snd (at_return 1 Host 0 1 nan_neighbour)))
                                2 [0; j])
                             (origin 1))
                 (seq 0 2)))).
Proof.
  destruct (@Binary64Radius.nan_distances_are_skipped_by_the_radius
              sample_platform environment 1 Host Host 0 1 nan_neighbour
              ltac:(vm_compute; reflexivity)
              ltac:(vm_compute; lia) ltac:(vm_compute; lia)) as [_ H].
  exact (H 0 ltac:(vm_compute; lia)).
Defined.

Lemma overflow_witness :
  is_nan (div (distance
                 (load_point 1 (mem (snd (at_return 1 Host 0 1 far_neighbour)))
                             2 [0; 0])
                 (origin 1))
              (read (mem (snd (at_return 1 Host 0 1 far_neighbour))) 3 [0]))
  = true.
Proof.
  exact (proj2 (proj2
           (@Binary64Radius.infinite_distance_gives_infinite_radius
              sample_platform environment 1 Host Host 0 1 far_neighbour 0 0
              ltac:(vm_compute; reflexivity)
              ltac:(vm_compute; lia) ltac:(vm_compute; lia)
              ltac:(vm_compute; lia) ltac:(vm_compute; lia)
              ltac:(vm_compute; reflexivity)))).
Defined.

(** C6, as stated, fails in double precision: with one target at 0 and
    neighbours at [2^700] and 1, the squared distance of the first neighbour
    overflows, its distance and the radius are plus infinity, and their
    quotient is NaN, which is not below 1. *)
Lemma overflowing_distance_is_not_below_one :
  movingLeastSquaresCoefficients 1 Host Host 0 1 far_neighbour
  = Done (coeffs_of far_neighbour) (snd (at_return 1 Host 0 1 far_neighbour)) /\
  0 < call_num_targets 1 far_neighbour /\
  0 < call_num_neighbors 0 far_neighbour /\
  ltb (div (distance
              (load_point (call_dimension 0 far_neighbour)
                 (mem (snd (at_return 1 Host 0 1 far_neighbour)))
                 (source_ref_target_of (tables_of far_neighbour)) [0; 0])
              (origin (call_dimension 0 far_neighbour)))
           (read (mem (snd (at_return 1 Host 0 1 far_neighbour)))
                 (radii_of (tables_of far_neighbour)) [0]))
      one = false.
Proof.
  split; [vm_compute; reflexivity|].
  split; [vm_compute; lia|].
  split; [vm_compute; lia|].
  vm_compute. reflexivity.
Qed.

(** A neighbour whose distance is NaN is not below 1 either: with neighbours
    at NaN and 1 the radius is 1.1 and the quotient of the first neighbour is
    NaN. *)
Example nan_distance_is_not_below_one :
  ltb (div (distance
              (load_point 1 (mem (snd (at_return 1 Host 0 1 nan_neighbour)))
                          2 [0; 0])
              (origin 1))
           (read (mem (snd (at_return 1 Host 0 1 nan_neighbour))) 3 [0]))
      one = false.
Proof. vm_compute. reflexivity. Qed.

(** On the same inputs as the counterexample, the other neighbour keeps a
    normalized distance below 1. *)
Lemma finite_distance_witness :
  ltb (div (distance
              (load_point 1 (mem (snd (at_return 1 Host 0 1 far_neighbour)))
                          2 [0; 1])
              (origin 1))
           (read (mem (snd (at_return 1 Host 0 1 far_neighbour))) 3 [0]))
      one = true.
Proof.
  destruct (@Binary64Quotient.finite_normalized_distance_is_below_one
              sample_platform environment 1 Host Host 0 1 far_neighbour
              ltac:(vm_compute; reflexivity)
              ltac:(vm_compute; lia) ltac:(vm_compute; lia)) as [_ H].
  exact (H 0 1 ltac:(vm_compute; lia) ltac:(vm_compute; lia)
           ltac:(vm_compute; reflexivity)).
Defined.

End Binary64Witnesses.

(** ** Exact arithmetic: reproduction, weights and moment matrices *)

Module ExactProperties.

Import Exact ExactFacts ExactInputs.

Local Existing Instance scalar.

Lemma sum_upto_nonneg (n : nat) (f : nat -> R) :
  (forall k, k < n -> (0 <= f k)%R) -> (0 <= sum_upto n f)%R.
Proof.
  intros H. induction n as [|n IH].
  - unfold sum_upto. simpl. lra.
  - rewrite sum_upto_S. specialize (IH ltac:(intros; apply H; lia)).
    specialize (H n ltac:(lia)). lra.
Qed.

Section ExactCalls.

Context {PF : Platform} {EV : Environment R}.

Variables (degree : nat) (MemorySpace : memory_space) (space : execution_space).
Variables (source_points target_points : handle) (st : State R).

Let dimension := call_dimension source_points st.
Let num_targets := call_num_targets target_points st.
Let num_neighbors := call_num_neighbors source_points st.
Let poly_size := call_poly_size degree source_points st.
Let tb := tables_of st.
Let mid := snd (at_pseudo_inverse degree MemorySpace source_points target_points st).
Let fin := snd (at_return degree MemorySpace source_points target_points st).

(** X10.  Polynomial reproduction in exact arithmetic: for a target whose
    moment matrix the pseudo-inverse inverts (row 0 of what it returns times
    the moment matrix is the first unit vector), the coefficients applied to
    the values, at the relative positions of the neighbours, of any
    combination [Σ_m c m * basis_m] of the basis functions give [c 0], the
    weight of the first basis function. *)
Theorem coefficients_reproduce_the_basis (c : nat -> R) (i : nat) :
  preconditions MemorySpace space source_points target_points st = true ->
  source_points < allocated (mem st) -> target_points < allocated (mem st) ->
  i < num_targets ->
  0 < poly_size ->
  (forall m, m < poly_size ->
     sum_upto poly_size
       (fun k => pseudoInverse poly_size
                   (fun r' k' => read (mem mid) (a_of tb) [i; r'; k']) 0 k
                 * read (mem mid) (a_of tb) [i; k; m])%R
     = if (m =? 0)%nat then 1%R else 0%R) ->
  movingLeastSquaresCoefficients degree MemorySpace space
                                 source_points target_points st
  = Done (coeffs_of st) fin /\
  sum_upto num_neighbors
    (fun j => read (mem fin) (coeffs_of st) [i; j]
              * sum_upto poly_size
                  (fun m => c m * evaluatePolynomialBasis degree
                                    (relative_position dimension source_points
                                                       target_points st i j) m))%R
  = c 0%nat.
Proof.
  intros Hpre Hs Ht Hi Hps Hinv. split.
  - destruct (call_spec degree MemorySpace st Hs Ht) as (_ & _ & Hco).
    rewrite (call_returns degree _ _ _ _ _ Hpre). now rewrite Hco.
  - rewrite <- (reproduction_at_return degree MemorySpace st c Hs Ht Hi Hps Hinv).
    apply sum_upto_ext. intros j Hj. f_equal.
    apply sum_upto_ext. intros m Hm. f_equal. unfold read.
    rewrite (kept_until_return degree MemorySpace Hs Ht)
      by (unfold tables_of, coeffs_of; simpl; lia).
    now rewrite (basis_at_pseudo_inverse degree MemorySpace st Hs Ht Hi Hj Hm).
Qed.

(** X11.  In exact arithmetic, with a distance that is never negative and a
    kernel that is positive on [0, 1), every neighbour of every target gets a
    positive weight: the radius is 1.1 times a maximum that is at least the
    distance of the neighbour and at least epsilon, so the normalized
    distance stays below 1 and no neighbour sits at the limit of the support
    of the kernel. *)
Theorem every_weight_is_positive :
  (forall x y : list R, (0 <= distance x y)%R) ->
  (forall x : R, (0 <= x < 1)%R -> (0 < CRBF_evaluate x)%R) ->
  preconditions MemorySpace space source_points target_points st = true ->
  source_points < allocated (mem st) -> target_points < allocated (mem st) ->
  movingLeastSquaresCoefficients degree MemorySpace space
                                 source_points target_points st
  = Done (coeffs_of st) fin /\
  forall i j, i < num_targets -> j < num_neighbors ->
    (0 < read (mem fin) (phi_of tb) [i; j])%R.
Proof.
  intros Hdist Hker Hpre Hs Ht. split.
  - destruct (call_spec degree MemorySpace st Hs Ht) as (_ & _ & Hco).
    rewrite (call_returns degree _ _ _ _ _ Hpre). now rewrite Hco.
  - intros i j Hi Hj. unfold read, fin, tb.
    rewrite (kept_until_return degree MemorySpace Hs Ht)
      by (unfold tables_of, coeffs_of; simpl; lia).
    rewrite (weight_at_pseudo_inverse degree MemorySpace st Hs Ht Hi Hj).
    unfold closed_weight, closed_radius, radius_formula.
    set (rel := relative_position _ _ _ _ _).
    set (ds := map (closed_distance (call_dimension source_points st) rel)
                   (seq 0 (call_num_neighbors source_points st))).
    set (d := closed_distance (call_dimension source_points st) rel j).
    set (M := max_floored epsilon ds).
    assert (Hfloor : (epsilon <= M)%R).
    { apply Rltb_false.
      exact (max_floored_floor ltb_irrefl ltb_trans epsilon ds). }
    assert (Hub : (d <= M)%R).
    { apply Rltb_false.
      apply (max_floored_upper_bound ltb_irrefl ltb_trans epsilon ds).
      apply in_map, in_seq. fold num_neighbors. lia. }
    assert (Heps : (0 < epsilon)%R)
      by (apply Rltb_true; exact epsilon_positive).
    assert (Hd : (0 <= d)%R) by apply Hdist.
    apply Hker. change (0 <= d / (11 / 10 * M) < 1)%R. split.
    + apply Rle_mult_inv_pos; lra.
    + apply (Rmult_lt_reg_r (11 / 10 * M)); [lra|].
      unfold Rdiv at 1. rewrite Rmult_assoc, Rinv_l by lra. lra.
Qed.

(** X12.  In exact arithmetic, with a kernel that is never negative, the
    moment matrix handed to the pseudo-inverse is positive semi-definite:
    for every vector [x], [Σ_j Σ_k x j * A[i][j][k] * x k] is the sum over
    the neighbours [l] of [weight[i][l]] times the square of
    [Σ_j x j * P[i][l][j]], which is not negative. *)
Theorem moment_matrix_is_positive_semidefinite (x : nat -> R) (i : nat) :
  (forall y : R, (0 <= CRBF_evaluate y)%R) ->
  source_points < allocated (mem st) -> target_points < allocated (mem st) ->
  i < num_targets ->
  sum_upto poly_size
    (fun j => sum_upto poly_size
                (fun k => x j * read (mem mid) (a_of tb) [i; j; k] * x k))%R
  = sum_upto num_neighbors
      (fun l => read (mem mid) (phi_of tb) [i; l]
                * (sum_upto poly_size
                     (fun j => x j * read (mem mid) (p_of tb) [i; l; j])
                   * sum_upto poly_size
                       (fun j => x j * read (mem mid) (p_of tb) [i; l; j])))%R /\
  (0 <= sum_upto poly_size
          (fun j => sum_upto poly_size
                      (fun k => x j * read (mem mid) (a_of tb) [i; j; k] * x k)))%R.
Proof.
  intros Hker Hs Ht Hi.
  destruct (call_spec degree MemorySpace st Hs Ht) as (HA & _ & _).
  fold mid in HA. rewrite (as_tables HA) in HA. fold tb in HA.
  set (P := fun l j => read (mem mid) (p_of tb) [i; l; j]).
  set (w := fun l => read (mem mid) (phi_of tb) [i; l]).
  assert (E : sum_upto poly_size
                (fun j => sum_upto poly_size
                   (fun k => x j * read (mem mid) (a_of tb) [i; j; k] * x k))%R
              = sum_upto num_neighbors
                  (fun l => w l * (sum_upto poly_size (fun j => x j * P l j)
                                   * sum_upto poly_size (fun j => x j * P l j)))%R).
  { transitivity
      (sum_upto poly_size
         (fun j => sum_upto num_neighbors
            (fun l => sum_upto poly_size
               (fun k => w l * ((x j * P l j) * (x k * P l k)))))%R).
    { apply sum_upto_ext. intros j Hj.
      rewrite sum_upto_exchange.
      apply sum_upto_ext. intros k Hk. unfold read.
      rewrite (as_moment HA) by assumption.
      unfold moment_formula. change (@mul R scalar) with Rmult.
      rewrite <- sum_upto_scal, <- sum_upto_scal_r.
      apply sum_upto_ext. intros l _. unfold P, w, table3_of, table2_of, read.
      ring. }
    rewrite sum_upto_exchange.
    apply sum_upto_ext. intros l _.
    rewrite <- sum_upto_scal_r, <- sum_upto_scal.
    apply sum_upto_ext. intros j _.
    rewrite <- !sum_upto_scal.
    apply sum_upto_ext. intros k _. ring. }
  split; [exact E|]. rewrite E.
  apply sum_upto_nonneg. intros l Hl.
  apply Rmult_le_pos.
  - unfold w, read. rewrite (as_phi HA) by assumption. apply Hker.
  - apply Rle_0_sqr.
Qed.

End ExactCalls.

Lemma fold_left_Permutation {A B : Type} (f : A -> B -> A) (l l' : list B) :
  (forall a b c, f (f a b) c = f (f a c) b) ->
  Permutation l l' -> forall a, fold_left f l a = fold_left f l' a.
Proof.
  intros Hf HP. induction HP as [|x l l' _ IH|x y l|l l' l'' _ IH1 _ IH2];
    intros a; simpl.
  - reflexivity.
  - apply IH.
  - now rewrite Hf.
  - rewrite IH1. apply IH2.
Qed.

Lemma kmax_swap (a b c : R) : kmax (kmax a b) c = kmax (kmax a c) b.
Proof.
  unfold kmax. cbn [ltb scalar]. unfold Rltb.
  repeat (destruct (Rlt_dec _ _)); lra.
Qed.

Lemma add_swap (a b c : R) : add (add a b) c = add (add a c) b.
Proof. cbn [add scalar]. ring. Qed.

Section Reordering.

Context {EV : Environment R}.
Variables (dimension num_neighbors poly_size degree : nat).
Variables (relative : nat -> list R) (sigma : nat -> nat).
Hypothesis sigma_permutes :
  Permutation (map sigma (seq 0 num_neighbors)) (seq 0 num_neighbors).

Lemma closed_radius_reordered :
  closed_radius dimension num_neighbors (fun j => relative (sigma j))
  = closed_radius dimension num_neighbors relative.
Proof.
  unfold closed_radius, radius_formula, max_floored. f_equal.
  replace (map (closed_distance dimension (fun j => relative (sigma j)))
               (seq 0 num_neighbors))
    with (map (closed_distance dimension relative)
              (map sigma (seq 0 num_neighbors)))
    by (rewrite map_map; reflexivity).
  apply fold_left_Permutation; [apply kmax_swap|].
  now apply Permutation_map.
Qed.

Lemma closed_weight_reordered (j : nat) :
  closed_weight dimension num_neighbors (fun j => relative (sigma j)) j
  = closed_weight dimension num_neighbors relative (sigma j).
Proof.
  unfold closed_weight. rewrite closed_radius_reordered. reflexivity.
Qed.

Lemma closed_moment_reordered (r k : nat) :
  closed_moment dimension num_neighbors degree (fun j => relative (sigma j)) r k
  = closed_moment dimension num_neighbors degree relative r k.
Proof.
  unfold closed_moment, sum_upto.
  set (term := fun l =>
         mul (mul (closed_basis degree relative l r)
                  (closed_basis degree relative l k))
             (closed_weight dimension num_neighbors relative l)).
  replace (map _ (seq 0 num_neighbors))
    with (map term (map sigma (seq 0 num_neighbors))).
  2:{ rewrite map_map. apply map_ext. intros l. unfold term.
      now rewrite closed_weight_reordered. }
  apply fold_left_Permutation; [apply add_swap|].
  now apply Permutation_map.
Qed.

Lemma closed_coefficient_reordered (j : nat) :
  reads_matrix_entries_only ->
  closed_coefficient dimension num_neighbors poly_size degree
                     (fun j => relative (sigma j)) j
  = closed_coefficient dimension num_neighbors poly_size degree
                       relative (sigma j).
Proof.
  intros Hpinv. unfold closed_coefficient. apply sum_upto_ext.
  intros k Hk. rewrite closed_weight_reordered.
  f_equal. f_equal. apply Hpinv; [|lia|exact Hk].
  intros r c _ _. apply closed_moment_reordered.
Qed.

End Reordering.

Section ReorderedCalls.

Context {PF : Platform} {EV : Environment R}.
Variables (degree : nat) (MemorySpace MemorySpace' : memory_space).
Variables (source_points target_points : handle) (st : State R).
Variables (source_points' target_points' : handle) (st' : State R).

(** X13.  In exact arithmetic the order of the neighbours of a target does
    not matter: if the neighbours of target [i'] of a second call are those of
    target [i] of the first taken in another order ([sigma] permutes
    [0 .. num_neighbors - 1], and neighbour [j] of the second sits, relative
    to its target, where neighbour [sigma j] of the first does), then the
    coefficient of neighbour [j] in the second call is the coefficient of
    neighbour [sigma j] in the first.  The maximum behind the radius and the
    sums behind the moment matrix do not depend on the order of their
    terms. *)
Theorem reordering_the_neighbours_reorders_the_coefficients
        (sigma : nat -> nat) (i i' : nat) :
  reads_matrix_entries_only ->
  source_points < allocated (mem st) -> target_points < allocated (mem st) ->
  source_points' < allocated (mem st') -> target_points' < allocated (mem st') ->
  call_dimension source_points st = call_dimension source_points' st' ->
  call_num_neighbors source_points st = call_num_neighbors source_points' st' ->
  i < call_num_targets target_points st ->
  i' < call_num_targets target_points' st' ->
  Permutation (map sigma (seq 0 (call_num_neighbors source_points st)))
              (seq 0 (call_num_neighbors source_points st)) ->
  (forall j d,
      j < call_num_neighbors source_points st ->
      d < call_dimension source_points st ->
      sub (read (mem st') source_points' [i'; j; d])
          (read (mem st') target_points' [i'; d])
      = sub (read (mem st) source_points [i; sigma j; d])
            (read (mem st) target_points [i; d])) ->
  forall j, j < call_num_neighbors source_points st ->
    read (mem (snd (at_return degree MemorySpace' source_points'
                              target_points' st')))
         (coeffs_of st') [i'; j]
    = read (mem (snd (at_return degree MemorySpace source_points
                                target_points st)))
           (coeffs_of st) [i; sigma j].
Proof.
  intros Hpinv Hs Ht Hs' Ht' Hdim Hnn Hi Hi' Hperm Hrel j Hj.
  assert (Hsj : sigma j < call_num_neighbors source_points st).
  { assert (Hin : In (sigma j) (seq 0 (call_num_neighbors source_points st))).
    { apply (Permutation_in _ Hperm). apply in_map, in_seq. lia. }
    apply in_seq in Hin. lia. }
  rewrite (coefficient_at_return degree MemorySpace st Hs Ht Hpinv Hi Hsj).
  rewrite (coefficient_at_return degree MemorySpace' st' Hs' Ht' Hpinv Hi')
    by (rewrite <- Hnn; exact Hj).
  unfold call_poly_size. rewrite <- Hdim, <- Hnn.
  transitivity
    (closed_coefficient (call_dimension source_points st)
       (call_num_neighbors source_points st)
       (polynomialBasisSize (call_dimension source_points st) degree) degree
       (fun l => relative_position (call_dimension source_points st)
                                   source_points target_points st i (sigma l))
       j).
  - apply closed_coefficient_agree; [|exact Hpinv|exact Hj].
    intros l Hl. unfold relative_position. apply map_ext_in.
    intros d Hd. apply in_seq in Hd. apply Hrel; [exact Hl|lia].
  - now apply closed_coefficient_reordered.
Qed.

End ReorderedCalls.

(** *** The sample collaborators in exact arithmetic *)

Local Existing Instances environment sample_platform.

Lemma distance_nonnegative (x y : list R) : (0 <= distance x y)%R.
Proof. apply sqrt_pos. Qed.

Lemma kernel_nonnegative (y : R) : (0 <= CRBF_evaluate y)%R.
Proof.
  cbn [CRBF_evaluate environment sample_environment]. unfold wendland0.
  cbn [mul sub one scalar]. apply Rle_0_sqr.
Qed.

Lemma kernel_positive (x : R) : (0 <= x < 1)%R -> (0 < CRBF_evaluate x)%R.
Proof.
  intros Hx. cbn [CRBF_evaluate environment sample_environment].
  unfold wendland0, kmin. cbn [mul sub one ltb scalar].
  rewrite Rabs_pos_eq by lra.
  rewrite (proj2 (Rltb_false 1 x)) by lra.
  apply Rmult_lt_0_compat; lra.
Qed.

Lemma unit_distance (x : R) :
  (x * x = 1)%R -> distance [x] (origin 1) = 1%R.
Proof.
  intros Hx. cbn [distance environment sample_environment].
  unfold euclidean_distance, origin.
  cbn [repeat combine fold_left fst snd add mul sub zero scalar].
  replace (0 + (x - 0) * (x - 0))%R with 1%R by lra. apply sqrt_1.
Qed.

(** Scenario A with degree 0: the moment matrix of the target is the sum of
    the two weights, [(1 - 10/11)^2] each. *)
Lemma scenario_A_moment :
  closed_moment 1 2 0 (relative_position 1 0 1 scenario_A 0) 0 0 = (2 / 121)%R.
Proof.
  unfold closed_moment, closed_basis, closed_weight, closed_radius,
    closed_distance, sum_upto, radius_formula, max_floored.
  cbn [seq map fold_left relative_position].
  unfold read.
  cbn [mem scenario_A sample_state sample_memory views elem table3 table2 nth].
  rewrite !unit_distance by (cbn [sub scalar]; lra).
  cbn [evaluatePolynomialBasis CRBF_evaluate environment sample_environment
       linear_basis].
  unfold kmax. cbn [ltb epsilon scalar].
  rewrite (proj2 (Rltb_true (/ 4503599627370496) 1))
    by lra.
  rewrite (proj2 (Rltb_false 1 1)) by lra.
  unfold wendland0, kmin. cbn [add mul sub div zero one ltb c1_1 scalar].
  replace (1 / (11 / 10 * 1))%R with (10 / 11)%R by lra.
  rewrite Rabs_pos_eq by lra.
  rewrite (proj2 (Rltb_false 1 (10 / 11))) by lra.
  lra.
Qed.

Local Abbreviation mid0 := (snd (at_pseudo_inverse 0 Host 0 1 scenario_A)).
Local Abbreviation fin0 := (snd (at_return 0 Host 0 1 scenario_A)).
Local Abbreviation mid := (snd (at_pseudo_inverse 1 Host 0 1 scenario_A)).
Local Abbreviation fin := (snd (at_return 1 Host 0 1 scenario_A)).

(** On scenario A with degree 0 the sample pseudo-inverse inverts the moment
    matrix. *)
Lemma scenario_A_inverted (m : nat) :
  m < 1 ->
  sum_upto 1
    (fun k => (pseudoInverse 1
                 (fun r' k' => read (mem mid0) 6%nat [0%nat; r'; k'])
                 0%nat k
               * read (mem mid0) 6%nat [0%nat; k; m])%R)
  = if (m =? 0)%nat then 1%R else 0%R.
Proof.
  intros Hm. assert (m = 0) by lia. subst m.
  assert (E : read (mem mid0) 6 [0; 0; 0] = (2 / 121)%R).
  { rewrite <- scenario_A_moment.
    exact (@moment_at_pseudo_inverse
             R scalar sample_platform environment 0 Host 0 1 scenario_A
             ltac:(vm_compute; lia) ltac:(vm_compute; lia) 0 0 0
             ltac:(vm_compute; lia) ltac:(vm_compute; lia)
             ltac:(vm_compute; lia)). }
  unfold sum_upto. cbn [seq map fold_left Nat.eqb].
  cbn [pseudoInverse environment sample_environment pinv_small].
  rewrite E. unfold nonzero. cbn [add mul div zero one ltb scalar].
  rewrite (proj2 (Rltb_true 0 (2 / 121))) by lra.
  rewrite orb_true_r. lra.
Qed.

Lemma reproduction_witness :
  sum_upto 2
    (fun j => Rmult (read (mem fin0) 7 [0; j])
                    (sum_upto 1
                       (fun m => Rmult 1%R
                                   (evaluatePolynomialBasis 0
                                      (relative_position 1 0 1 scenario_A 0 j)
                                      m))))
  = 1%R.
Proof.
  exact (proj2 (@coefficients_reproduce_the_basis
                  sample_platform environment 0 Host Host 0 1 scenario_A
                  (fun _ => 1%R) 0
                  ltac:(vm_compute; reflexivity)
                  ltac:(vm_compute; lia) ltac:(vm_compute; lia)
                  ltac:(vm_compute; lia) ltac:(vm_compute; lia)
                  scenario_A_inverted)).
Defined.

Lemma positive_weight_witness : Rlt 0%R (read (mem fin) 4 [0; 1]).
Proof.
  destruct (@every_weight_is_positive
              sample_platform environment 1 Host Host 0 1 scenario_A
              distance_nonnegative kernel_positive
              ltac:(vm_compute; reflexivity)
              ltac:(vm_compute; lia) ltac:(vm_compute; lia)) as [_ H].
  exact (H 0 1 ltac:(vm_compute; lia) ltac:(vm_compute; lia)).
Defined.

Lemma semidefinite_witness :
  Rle 0%R
      (sum_upto 2
         (fun j => sum_upto 2
                     (fun k => Rmult (Rmult 1%R (read (mem mid) 6 [0; j; k]))
                                     1%R))).
Proof.
  exact (proj2 (@moment_matrix_is_positive_semidefinite
                  sample_platform environment 1 Host 0 1 scenario_A
                  (fun _ => 1%R) 0 kernel_nonnegative
                  ltac:(vm_compute; lia) ltac:(vm_compute; lia)
                  ltac:(vm_compute; lia))).
Defined.

Lemma reordering_witness :
  read (mem (snd (at_return 1 Host 0 1 scenario_A_swapped))) 7 [0; 0]
  = read (mem fin) 7 [0; 1].
Proof.
  refine (@reordering_the_neighbours_reorders_the_coefficients
            sample_platform environment 1 Host Host
            0 1 scenario_A 0 1 scenario_A_swapped (fun j => 1 - j) 0 0
            (pinv_small_reads_entries _ _) _ _ _ _ _ _ _ _ _ _ 0 _).
  - vm_compute. lia.
  - vm_compute. lia.
  - vm_compute. lia.
  - vm_compute. lia.
  - vm_compute. reflexivity.
  - vm_compute. reflexivity.
  - vm_compute. lia.
  - vm_compute. lia.
  - exact (perm_swap 0 1 []).
  - intros j d Hj Hd. vm_compute in Hj, Hd.
    destruct j as [|[|j]], d as [|d]; try lia; reflexivity.
  - vm_compute. lia.
Defined.

End ExactProperties.
